(** * Space Invaders: the per-frame simulation core of [SpaceInvadersGame]

    A shallow embedding of the game class (grid constants, entity records,
    the session fields, the input handlers, [update] and the helpers it
    calls) together with the properties of the simulation that the
    specification states about it.

    Conventions of the embedding.
    - Grid coordinates, counters and timers are [Z]; times are whole
      milliseconds.
    - A gamepad axis is a rational ([Q]), compared with the thresholds
      -0.5 and 0.5 as in the source.
    - Numbers that are not whole are rationals ([Q]). [Math.random()] is
      an input of the frame: a binary64 value [r] with [0 <= r < 1]; the
      product [r * n] that selects the shooter is rounded to binary64 as
      the multiplication of the language does, and then floored.
    - The object arrays ([invaders], [bullets], [barriers]) are lists; the
      index loops with [splice] are fuelled loops over stdpp's list lookup
      [!!] and [delete].
    - The sound sink is the [SynthManager] record: its mute flag and the
      log of the effects that were actually handed to the synthesiser. *)

From Stdlib Require Import ZArith QArith Qround Qpower Qabs Bool List Lia Lqa.
From stdpp Require Import base list.
Import ListNotations.

Local Open Scope Z_scope.

(** ** Grid dimensions *)

Definition GRID_WIDTH : Z := 60.
Definition GRID_HEIGHT : Z := 40.

(** ** Entity records *)

Module Point.
Record t : Type := mk { x : Z; y : Z }.
End Point.

Module Bullet.
Record t : Type := mk { x : Z; y : Z; isPlayerBullet : bool }.
End Bullet.

Module Invader.
Record t : Type := mk { x : Z; y : Z; type : Z; alive : bool }.
End Invader.

Module Barrier.
Record t : Type := mk { x : Z; y : Z; health : Z }.
End Barrier.

(** ** The sound sink *)

(** The closed vocabulary of cues, [SoundEffect]. *)
Module Sound.
Inductive t : Type :=
| playerShoot | enemyShoot | explosion | barrierHit
| playerHit | invaderMove | levelComplete | gameOver.
End Sound.

Definition SoundEffect : Type := Sound.t.

Module SynthManager.
Record t : Type := mk { muted : bool; emitted : list SoundEffect }.

(** [play]: nothing when muted, otherwise the effect goes to the
    synthesiser (every effect of the closed vocabulary has a
    configuration, so the lookup never misses). *)
Definition play (effect : SoundEffect) (m : t) : t :=
  if muted m then m else mk (muted m) (emitted m ++ [effect]).

Definition toggleMute (m : t) : t := mk (negb (muted m)) (emitted m).

Definition fresh : t := mk false [].
End SynthManager.

(** ** Session state: the fields of [SpaceInvadersGame] *)

Record Game : Type := mkGame {
  player : Point.t;
  invaders : list Invader.t;
  bullets : list Bullet.t;
  barriers : list Barrier.t;
  score : Z;
  lives : Z;
  gameOver : bool;
  paused : bool;
  started : bool;
  level : Z;
  highScore : Z;
  invaderMoveTimer : Z;
  invaderMoveInterval : Z;
  invaderDirection : Z;
  shootCooldown : Z;
  enemyShootTimer : Z;
  synthManager : SynthManager.t
}.

(** The three timing fields that are initialised once and never assigned. *)
Definition invaderDropDistance : Z := 2.
Definition shootInterval : Z := 300.
Definition enemyShootInterval : Z := 1500.

(** Field assignments. *)

Definition set_player (v : Point.t) (s : Game) : Game :=
  mkGame v (invaders s) (bullets s) (barriers s) (score s) (lives s)
    (gameOver s) (paused s) (started s) (level s) (highScore s)
    (invaderMoveTimer s) (invaderMoveInterval s) (invaderDirection s)
    (shootCooldown s) (enemyShootTimer s) (synthManager s).

Definition set_invaders (v : list Invader.t) (s : Game) : Game :=
  mkGame (player s) v (bullets s) (barriers s) (score s) (lives s)
    (gameOver s) (paused s) (started s) (level s) (highScore s)
    (invaderMoveTimer s) (invaderMoveInterval s) (invaderDirection s)
    (shootCooldown s) (enemyShootTimer s) (synthManager s).

Definition set_bullets (v : list Bullet.t) (s : Game) : Game :=
  mkGame (player s) (invaders s) v (barriers s) (score s) (lives s)
    (gameOver s) (paused s) (started s) (level s) (highScore s)
    (invaderMoveTimer s) (invaderMoveInterval s) (invaderDirection s)
    (shootCooldown s) (enemyShootTimer s) (synthManager s).

Definition set_barriers (v : list Barrier.t) (s : Game) : Game :=
  mkGame (player s) (invaders s) (bullets s) v (score s) (lives s)
    (gameOver s) (paused s) (started s) (level s) (highScore s)
    (invaderMoveTimer s) (invaderMoveInterval s) (invaderDirection s)
    (shootCooldown s) (enemyShootTimer s) (synthManager s).

Definition set_score (v : Z) (s : Game) : Game :=
  mkGame (player s) (invaders s) (bullets s) (barriers s) v (lives s)
    (gameOver s) (paused s) (started s) (level s) (highScore s)
    (invaderMoveTimer s) (invaderMoveInterval s) (invaderDirection s)
    (shootCooldown s) (enemyShootTimer s) (synthManager s).

Definition set_lives (v : Z) (s : Game) : Game :=
  mkGame (player s) (invaders s) (bullets s) (barriers s) (score s) v
    (gameOver s) (paused s) (started s) (level s) (highScore s)
    (invaderMoveTimer s) (invaderMoveInterval s) (invaderDirection s)
    (shootCooldown s) (enemyShootTimer s) (synthManager s).

Definition set_gameOver (v : bool) (s : Game) : Game :=
  mkGame (player s) (invaders s) (bullets s) (barriers s) (score s) (lives s)
    v (paused s) (started s) (level s) (highScore s)
    (invaderMoveTimer s) (invaderMoveInterval s) (invaderDirection s)
    (shootCooldown s) (enemyShootTimer s) (synthManager s).

Definition set_paused (v : bool) (s : Game) : Game :=
  mkGame (player s) (invaders s) (bullets s) (barriers s) (score s) (lives s)
    (gameOver s) v (started s) (level s) (highScore s)
    (invaderMoveTimer s) (invaderMoveInterval s) (invaderDirection s)
    (shootCooldown s) (enemyShootTimer s) (synthManager s).

Definition set_started (v : bool) (s : Game) : Game :=
  mkGame (player s) (invaders s) (bullets s) (barriers s) (score s) (lives s)
    (gameOver s) (paused s) v (level s) (highScore s)
    (invaderMoveTimer s) (invaderMoveInterval s) (invaderDirection s)
    (shootCooldown s) (enemyShootTimer s) (synthManager s).

Definition set_level (v : Z) (s : Game) : Game :=
  mkGame (player s) (invaders s) (bullets s) (barriers s) (score s) (lives s)
    (gameOver s) (paused s) (started s) v (highScore s)
    (invaderMoveTimer s) (invaderMoveInterval s) (invaderDirection s)
    (shootCooldown s) (enemyShootTimer s) (synthManager s).

Definition set_highScore (v : Z) (s : Game) : Game :=
  mkGame (player s) (invaders s) (bullets s) (barriers s) (score s) (lives s)
    (gameOver s) (paused s) (started s) (level s) v
    (invaderMoveTimer s) (invaderMoveInterval s) (invaderDirection s)
    (shootCooldown s) (enemyShootTimer s) (synthManager s).

Definition set_invaderMoveTimer (v : Z) (s : Game) : Game :=
  mkGame (player s) (invaders s) (bullets s) (barriers s) (score s) (lives s)
    (gameOver s) (paused s) (started s) (level s) (highScore s)
    v (invaderMoveInterval s) (invaderDirection s)
    (shootCooldown s) (enemyShootTimer s) (synthManager s).

Definition set_invaderMoveInterval (v : Z) (s : Game) : Game :=
  mkGame (player s) (invaders s) (bullets s) (barriers s) (score s) (lives s)
    (gameOver s) (paused s) (started s) (level s) (highScore s)
    (invaderMoveTimer s) v (invaderDirection s)
    (shootCooldown s) (enemyShootTimer s) (synthManager s).

Definition set_invaderDirection (v : Z) (s : Game) : Game :=
  mkGame (player s) (invaders s) (bullets s) (barriers s) (score s) (lives s)
    (gameOver s) (paused s) (started s) (level s) (highScore s)
    (invaderMoveTimer s) (invaderMoveInterval s) v
    (shootCooldown s) (enemyShootTimer s) (synthManager s).

Definition set_shootCooldown (v : Z) (s : Game) : Game :=
  mkGame (player s) (invaders s) (bullets s) (barriers s) (score s) (lives s)
    (gameOver s) (paused s) (started s) (level s) (highScore s)
    (invaderMoveTimer s) (invaderMoveInterval s) (invaderDirection s)
    v (enemyShootTimer s) (synthManager s).

Definition set_enemyShootTimer (v : Z) (s : Game) : Game :=
  mkGame (player s) (invaders s) (bullets s) (barriers s) (score s) (lives s)
    (gameOver s) (paused s) (started s) (level s) (highScore s)
    (invaderMoveTimer s) (invaderMoveInterval s) (invaderDirection s)
    (shootCooldown s) v (synthManager s).

Definition set_synthManager (v : SynthManager.t) (s : Game) : Game :=
  mkGame (player s) (invaders s) (bullets s) (barriers s) (score s) (lives s)
    (gameOver s) (paused s) (started s) (level s) (highScore s)
    (invaderMoveTimer s) (invaderMoveInterval s) (invaderDirection s)
    (shootCooldown s) (enemyShootTimer s) v.

(** [this.synthManager.play(effect)] *)
Definition play (effect : SoundEffect) (s : Game) : Game :=
  set_synthManager (SynthManager.play effect (synthManager s)) s.

(** ** Wave and barrier spawning *)

(** Top row = type 2, middle rows = type 1, bottom rows = type 0. *)
Definition rowType (row : Z) : Z :=
  if row <? 1 then 2 else if row <? 3 then 1 else 0.

Definition waveRow (row : Z) : list Invader.t :=
  map (fun col => Invader.mk (10 + col * 4) (5 + row * 3) (rowType row) true)
      (map Z.of_nat (seq 0 11)).

Definition freshWave : list Invader.t :=
  flat_map waveRow (map Z.of_nat (seq 0 5)).

Definition spawnInvaders (s : Game) : Game :=
  set_invaderDirection 1
    (set_invaderMoveInterval (Z.max 300 (800 - level s * 100))
       (set_invaders freshWave s)).

Definition barrierPositions : list Z := [10; 22; 34; 46].

Definition barrierBlock (baseX : Z) : list Barrier.t :=
  flat_map (fun y =>
              map (fun x => Barrier.mk (baseX + x) (GRID_HEIGHT - 10 + y) 3)
                  (map Z.of_nat (seq 0 6)))
           (map Z.of_nat (seq 0 3)).

Definition freshBarriers : list Barrier.t :=
  flat_map barrierBlock barrierPositions.

Definition spawnBarriers (s : Game) : Game :=
  set_barriers freshBarriers s.

(** ** [initGame] and the state after construction *)

Definition initGame (s : Game) : Game :=
  spawnBarriers
    (spawnInvaders
       (set_bullets []
          (set_started false
             (set_paused false
                (set_gameOver false
                   (set_level 1
                      (set_score 0
                         (set_lives 3
                            (set_player
                               (Point.mk (GRID_WIDTH / 2) (GRID_HEIGHT - 3))
                               s))))))))).

(** The field initialisers of the class. *)
Definition fieldDefaults : Game :=
  mkGame (Point.mk 0 0) [] [] [] 0 3 false false false 1 0
         0 800 1 0 0 SynthManager.fresh.

(** The state when the constructor returns. *)
Definition newGame : Game := initGame fieldDefaults.

(** ** Input handlers *)

(** The closure [startGame] of [setupInput] and [handleGamepadInput]. *)
Definition startGame (s : Game) : Game :=
  if negb (started s) && negb (gameOver s) then set_started true s else s.

Definition togglePause (s : Game) : Game :=
  if started s && negb (gameOver s) then set_paused (negb (paused s)) s else s.

(** Fire a bullet from the player's ship. *)
Definition shootBullet (s : Game) : Game :=
  if shootCooldown s <=? 0 then
    play Sound.playerShoot
      (set_shootCooldown shootInterval
         (set_bullets
            (bullets s ++
               [Bullet.mk (Point.x (player s)) (Point.y (player s) - 1) true])
            s))
  else s.

(** The closure [shoot]: the Space key and the gamepad's A button. *)
Definition shoot (s : Game) : Game :=
  startGame
    (if started s && negb (gameOver s) && negb (paused s)
     then shootBullet s else s).

Definition restart (s : Game) : Game :=
  if gameOver s then initGame s else s.

Definition toggleMute (s : Game) : Game :=
  set_synthManager (SynthManager.toggleMute (synthManager s)) s.

(** [this.player.x -= 2] and [this.player.x += 2] with their guards. *)
Definition moveLeft (s : Game) : Game :=
  if Point.x (player s) >? 1
  then set_player (Point.mk (Point.x (player s) - 2) (Point.y (player s))) s
  else s.

Definition moveRight (s : Game) : Game :=
  if Point.x (player s) <? GRID_WIDTH - 2
  then set_player (Point.mk (Point.x (player s) + 2) (Point.y (player s))) s
  else s.

(** What the gamepad manager reports in one frame. *)
Record Gamepad : Type := mkGamepad {
  isConnected : bool;
  leftStickX : Q;
  dpadX : Q;
  pressedA : bool;      (* justPressed(0) *)
  pressedB : bool;      (* justPressed(1) *)
  pressedY : bool;      (* justPressed(3) *)
  pressedStart : bool   (* justPressed(9) *)
}.

Definition Qltb (a b : Q) : bool :=
  match Qcompare a b with Lt => true | _ => false end.

Definition half : Q := Qmake 1 2.

(** [leftStick.x < -0.5 || dpad.x < -0.5] and its mirror image. *)
Definition pushedLeft (g : Gamepad) : bool :=
  Qltb (leftStickX g) (Qopp half) || Qltb (dpadX g) (Qopp half).

Definition pushedRight (g : Gamepad) : bool :=
  Qltb half (leftStickX g) || Qltb half (dpadX g).

Definition handleGamepadInput (g : Gamepad) (s : Game) : Game :=
  if negb (isConnected g) then s else
  let s1 :=
    if pushedLeft g then startGame (moveLeft s)
    else if pushedRight g then startGame (moveRight s)
    else s in
  let s2 := if pressedA g then shoot s1 else s1 in
  let s3 := if pressedStart g then togglePause s2 else s2 in
  let s4 := if pressedB g then restart s3 else s3 in
  if pressedY g then toggleMute s4 else s4.

(** ** Enemy fire *)

Definition aliveInvaders (s : Game) : list Invader.t :=
  List.filter Invader.alive (invaders s).

(** The product [Math.random() * aliveInvaders.length] is a binary64
    multiplication: the real product rounded to the nearest binary64
    value, a tie going to the even significand. The length of an array is
    a whole number below 2^32, so it is a binary64 value as it stands. *)

(** [floor (log2 q)] for a positive [q]: the position of the leading bit. *)
Definition ilog2 (q : Q) : Z :=
  let k := Z.log2 (Qnum q) - Z.log2 (Zpos (Qden q)) in
  if Qle_bool (2 ^ k) q then k else k - 1.

(** The nearest whole number, a tie going to the even one. *)
Definition nearestEven (q : Q) : Z :=
  let f := Qfloor q in
  match (q - inject_Z f ?= half)%Q with
  | Lt => f
  | Gt => f + 1
  | Eq => if Z.even f then f else f + 1
  end.

(** The weight of the last bit of the 53-bit significand of [q]: 52 places
    below the leading bit, and not below 2^-1074 (the subnormal range). *)
Definition lastBit (q : Q) : Z := Z.max (ilog2 (Qabs q) - 52) (-1074).

(** Rounding to binary64, for magnitudes below 2^1024 (beyond them the
    result is an infinity, which a product of a sample below 1 and an
    array length never is). *)
Definition roundDouble (q : Q) : Q :=
  if Qeq_bool q 0 then 0%Q
  else (inject_Z (nearestEven (q / 2 ^ lastBit q)) * 2 ^ lastBit q)%Q.

(** [Math.floor(Math.random() * aliveInvaders.length)] for the sample [r]. *)
Definition randomIndex (r : Q) (n : nat) : nat :=
  Z.to_nat (Qfloor (roundDouble (r * inject_Z (Z.of_nat n)))).

Definition enemyShoot (r : Q) (s : Game) : Game :=
  match aliveInvaders s with
  | [] => s
  | _ :: _ =>
      match aliveInvaders s !! randomIndex r (length (aliveInvaders s)) with
      | Some shooter =>
          play Sound.enemyShoot
            (set_bullets
               (bullets s ++
                  [Bullet.mk (Invader.x shooter) (Invader.y shooter + 1) false])
               s)
      | None => s (* not reached when r is a binary64 value in [0, 1) *)
      end
  end.

(** ** Formation movement *)

Definition atEdge (dir : Z) (inv : Invader.t) : bool :=
  ((dir =? 1) && (Invader.x inv >=? GRID_WIDTH - 3))
  || ((dir =? -1) && (Invader.x inv <=? 1)).

Definition dropInvader (inv : Invader.t) : Invader.t :=
  if Invader.alive inv
  then Invader.mk (Invader.x inv) (Invader.y inv + invaderDropDistance)
                  (Invader.type inv) (Invader.alive inv)
  else inv.

Definition slideInvader (dir : Z) (inv : Invader.t) : Invader.t :=
  if Invader.alive inv
  then Invader.mk (Invader.x inv + dir) (Invader.y inv)
                  (Invader.type inv) (Invader.alive inv)
  else inv.

(** The final loop of [moveInvaders]: every alive invader that reached the
    row above the player ends the game (and plays the cue once more). *)
Definition reachedPlayer (inv : Invader.t) (s : Game) : Game :=
  if Invader.y inv >=? Point.y (player s) - 1
  then play Sound.gameOver (set_gameOver true (set_lives 0 s))
  else s.

(** [aliveInvaders] is computed before the formation moves, but it holds
    the very objects that the move mutates; so the edge scan sees the old
    positions and the final loop the new ones, over the same alive set. *)
Definition moveInvaders (deltaTime : Z) (s : Game) : Game :=
  let s1 := set_invaderMoveTimer (invaderMoveTimer s + deltaTime) s in
  if invaderMoveTimer s1 >=? invaderMoveInterval s1 then
    let s2 := set_invaderMoveTimer 0 s1 in
    let shouldDrop := existsb (atEdge (invaderDirection s2)) (aliveInvaders s2) in
    let s3 :=
      if shouldDrop
      then set_invaderDirection (invaderDirection s2 * -1)
             (set_invaders (map dropInvader (invaders s2)) s2)
      else set_invaders (map (slideInvader (invaderDirection s2)) (invaders s2)) s2 in
    let s4 :=
      match aliveInvaders s2 with
      | [] => s3
      | _ :: _ => play Sound.invaderMove s3
      end in
    fold_left (fun acc inv => reachedPlayer inv acc) (aliveInvaders s4) s4
  else s1.

(** ** Bullets and collisions *)

Definition advance (b : Bullet.t) : Bullet.t :=
  if Bullet.isPlayerBullet b
  then Bullet.mk (Bullet.x b) (Bullet.y b - 1) true
  else Bullet.mk (Bullet.x b) (Bullet.y b + 1) false.

Definition onScreen (b : Bullet.t) : bool :=
  (Bullet.y b >=? 0) && (Bullet.y b <? GRID_HEIGHT).

Definition hitsInvader (b : Bullet.t) (inv : Invader.t) : bool :=
  Invader.alive inv
  && (Z.abs (Bullet.x b - Invader.x inv) <=? 1)
  && (Bullet.y b =? Invader.y inv).

(** The inner loop over the invaders for one bullet: the first invader hit
    is marked dead; the result is the new array and the victim. *)
Fixpoint destroyFirst (b : Bullet.t) (invs : list Invader.t)
  : option (list Invader.t * Invader.t) :=
  match invs with
  | [] => None
  | inv :: rest =>
      if hitsInvader b inv
      then Some (Invader.mk (Invader.x inv) (Invader.y inv)
                            (Invader.type inv) false :: rest, inv)
      else match destroyFirst b rest with
           | Some (rest', victim) => Some (inv :: rest', victim)
           | None => None
           end
  end.

(** The bullet/invader loop, for [i] from [n - 1] down to [0]. *)
Fixpoint invaderCollisions (n : nat) (s : Game) : Game :=
  match n with
  | O => s
  | S i =>
      match bullets s !! i with
      | None => invaderCollisions i s (* index within range by construction *)
      | Some bullet =>
          if negb (Bullet.isPlayerBullet bullet) then invaderCollisions i s
          else
            match destroyFirst bullet (invaders s) with
            | Some (invs', victim) =>
                invaderCollisions i
                  (play Sound.explosion
                     (set_score (score s + (Invader.type victim + 1) * 10)
                        (set_bullets (delete i (bullets s))
                           (set_invaders invs' s))))
            | None => invaderCollisions i s
            end
      end
  end.

Definition hitsBarrier (b : Bullet.t) (bar : Barrier.t) : bool :=
  (Bullet.x b =? Barrier.x bar) && (Bullet.y b =? Barrier.y bar).

(** [barrier.health--] followed by the removal test, at index [j]. *)
Definition damageBarrier (j : nat) (bar : Barrier.t) (bars : list Barrier.t)
  : list Barrier.t :=
  if Barrier.health bar - 1 <=? 0
  then delete j bars
  else <[j := Barrier.mk (Barrier.x bar) (Barrier.y bar) (Barrier.health bar - 1)]> bars.

(** The inner loop over the barriers for one bullet, for [j] from [m - 1]
    down to [0]; [None] when no segment is hit. *)
Fixpoint damageLast (b : Bullet.t) (m : nat) (bars : list Barrier.t)
  : option (list Barrier.t) :=
  match m with
  | O => None
  | S j =>
      match bars !! j with
      | None => damageLast b j bars
      | Some bar =>
          if hitsBarrier b bar then Some (damageBarrier j bar bars)
          else damageLast b j bars
      end
  end.

(** The bullet/barrier loop, for [i] from [n - 1] down to [0]. *)
Fixpoint barrierCollisions (n : nat) (s : Game) : Game :=
  match n with
  | O => s
  | S i =>
      match bullets s !! i with
      | None => barrierCollisions i s
      | Some bullet =>
          match damageLast bullet (length (barriers s)) (barriers s) with
          | Some bars' =>
              barrierCollisions i
                (set_bullets (delete i (bullets s))
                   (set_barriers bars' (play Sound.barrierHit s)))
          | None => barrierCollisions i s
          end
      end
  end.

Definition hitsPlayer (b : Bullet.t) (p : Point.t) : bool :=
  negb (Bullet.isPlayerBullet b)
  && (Z.abs (Bullet.x b - Point.x p) <=? 1)
  && (Bullet.y b =? Point.y p).

(** The body of the bullet/player loop once a hit is found. *)
Definition playerStruck (i : nat) (s : Game) : Game :=
  let s1 := play Sound.playerHit
              (set_lives (lives s - 1) (set_bullets (delete i (bullets s)) s)) in
  if lives s1 <=? 0 then play Sound.gameOver (set_gameOver true s1) else s1.

(** The bullet/player loop, for [i] from [n - 1] down to [0]. *)
Fixpoint playerCollisions (n : nat) (s : Game) : Game :=
  match n with
  | O => s
  | S i =>
      match bullets s !! i with
      | None => playerCollisions i s
      | Some bullet =>
          if hitsPlayer bullet (player s)
          then playerCollisions i (playerStruck i s)
          else playerCollisions i s
      end
  end.

(** The first two statements of [updateBullets]: advance, then prune. *)
Definition advanceBullets (s : Game) : Game :=
  set_bullets (List.filter onScreen (map advance (bullets s))) s.

Definition resolveCollisions (s : Game) : Game :=
  let s1 := invaderCollisions (length (bullets s)) s in
  let s2 := barrierCollisions (length (bullets s1)) s1 in
  playerCollisions (length (bullets s2)) s2.

Definition updateBullets (s : Game) : Game :=
  resolveCollisions (advanceBullets s).

(** ** Level progression *)

Definition checkLevelComplete (s : Game) : Game :=
  match aliveInvaders s with
  | [] =>
      set_bullets []
        (spawnBarriers
           (spawnInvaders
              (play Sound.levelComplete (set_level (level s + 1) s))))
  | _ :: _ => s
  end.

(** ** The frame *)

(** Everything [update] reads from its collaborators in one frame. *)
Record FrameInput : Type := mkFrame {
  deltaTime : Z;
  gamepad : Gamepad;
  directionX : Z;   (* keyboard.getDirection().x *)
  random : Q        (* the value Math.random() would return *)
}.

Definition keyboardMovement (dx : Z) (s : Game) : Game :=
  if negb (dx =? 0) then
    let s1 := startGame s in
    let s2 := if dx <? 0 then moveLeft s1 else s1 in
    if dx >? 0 then moveRight s2 else s2
  else s.

Definition inactive (s : Game) : bool :=
  negb (started s) || gameOver s || paused s.

(** The blocks of [update] after the gate, in the order of the source. *)

(** "Update cooldowns" *)
Definition coolDown (dt : Z) (s : Game) : Game :=
  if shootCooldown s >? 0
  then set_shootCooldown (shootCooldown s - dt) s else s.

(** "Enemy shooting" *)
Definition enemyFire (dt : Z) (r : Q) (s : Game) : Game :=
  let s1 := set_enemyShootTimer (enemyShootTimer s + dt) s in
  if enemyShootTimer s1 >=? enemyShootInterval
  then enemyShoot r (set_enemyShootTimer 0 s1) else s1.

(** "Update high score" *)
Definition updateHighScore (s : Game) : Game :=
  if score s >? highScore s then set_highScore (score s) s else s.

(** The state of the frame when [checkLevelComplete] is called. *)
Definition beforeLevelCheck (dt : Z) (r : Q) (s : Game) : Game :=
  updateBullets (enemyFire dt r (moveInvaders dt (coolDown dt s))).

Definition simulate (dt : Z) (r : Q) (s : Game) : Game :=
  updateHighScore (checkLevelComplete (beforeLevelCheck dt r s)).

Definition update (f : FrameInput) (s : Game) : Game :=
  let s1 := handleGamepadInput (gamepad f) s in
  let s2 := keyboardMovement (directionX f) s1 in
  if inactive s2 then s2 else simulate (deltaTime f) (random f) s2.

(** ** Events and runs *)

(** What can happen to a game: a key press between two frames, or a frame. *)
Inductive Event : Type :=
| KeySpace
| KeyP
| KeyR
| KeyM
| Frame (f : FrameInput).

Definition step (s : Game) (e : Event) : Game :=
  match e with
  | KeySpace => shoot s
  | KeyP => togglePause s
  | KeyR => restart s
  | KeyM => toggleMute s
  | Frame f => update f s
  end.

Definition run (s : Game) (es : list Event) : Game := fold_left step es s.

(** The states a game can be in: those some run from [newGame] ends in. *)
Inductive reachable : Game -> Prop :=
| reachable_new : reachable newGame
| reachable_step s e : reachable s -> reachable (step s e).

(** ** Vocabulary of the statements *)

(** The four phases of a session, decoded from the three flags; [None] for
    a combination of flags that is no phase. *)
Inductive Phase : Type := NotStarted | Playing | Paused | GameOver.

Definition phase (s : Game) : option Phase :=
  match started s, paused s, gameOver s with
  | false, false, false => Some NotStarted
  | true, false, false => Some Playing
  | true, true, false => Some Paused
  | true, false, true => Some GameOver
  | _, _, _ => None
  end.

(** Some alive invader is at the edge the formation is moving towards. *)
Definition edgeReached (s : Game) : Prop :=
  exists inv, In inv (invaders s) /\ Invader.alive inv = true /\
    ((invaderDirection s = 1 /\ Invader.x inv >= GRID_WIDTH - 3)
     \/ (invaderDirection s = -1 /\ Invader.x inv <= 1)).

(** One invader before and after a drop step, and before and after a
    slide step in direction [dir]. *)
Definition dropped (a b : Invader.t) : Prop :=
  Invader.x b = Invader.x a /\ Invader.type b = Invader.type a /\
  Invader.alive b = Invader.alive a /\
  Invader.y b = (if Invader.alive a then Invader.y a + 2 else Invader.y a).

Definition slid (dir : Z) (a b : Invader.t) : Prop :=
  Invader.y b = Invader.y a /\ Invader.type b = Invader.type a /\
  Invader.alive b = Invader.alive a /\
  Invader.x b = (if Invader.alive a then Invader.x a + dir else Invader.x a).

Definition aliveCount (s : Game) : Z := Z.of_nat (length (aliveInvaders s)).

Definition totalHealth (bars : list Barrier.t) : Z :=
  fold_right Z.add 0 (map Barrier.health bars).

Definition bulletCount (s : Game) : Z := Z.of_nat (length (bullets s)).

Definition healthy (bars : list Barrier.t) : Prop :=
  Forall (fun bar => 1 <= Barrier.health bar) bars.

(** The scores of the states a run goes through, the first included. *)
Fixpoint scoresSeen (s : Game) (es : list Event) : list Z :=
  match es with
  | [] => [score s]
  | e :: rest => score s :: scoresSeen (step s e) rest
  end.

Definition maximum (l : list Z) : Z := fold_right Z.max 0 l.





(** ** Sample inputs *)

Definition noGamepad : Gamepad :=
  mkGamepad false 0%Q 0%Q false false false false.

(** A frame with no input at all. *)
Definition idleFrame (dt : Z) : FrameInput := mkFrame dt noGamepad 0 0%Q.

(** A frame with the keyboard direction [dx] held. *)
Definition moveFrame (dt dx : Z) : FrameInput := mkFrame dt noGamepad dx 0%Q.

(** A frame in which [Math.random()] selects the alive invader number [k]
    of a full wave of 55: the sample is the multiple of 2^-12 next above
    (k + 1/2) / 55, whose product with 55 is exact. *)
Definition shotFrame (dt k : Z) : FrameInput :=
  mkFrame dt noGamepad 0 (Qmake ((2 * k + 1) * 2048 / 55 + 1) 4096).

(** The cells the player's ship can occupy. *)
Definition onTrack (s : Game) : Prop :=
  Point.y (player s) = GRID_HEIGHT - 3 /\
  0 <= Point.x (player s) <= GRID_WIDTH - 2 /\
  Z.even (Point.x (player s)) = true.

(** Fifteen frames with the left key held, from a new game. *)
Definition holdLeft : list Event := repeat (Frame (moveFrame 16 (-1))) 15.

(** A game that was started and then paused. *)
Definition pausedGame : Game := run newGame [KeySpace; KeyP].

(** A playing game whose invaders are all dead and with a bullet in
    flight: invaders moved to the dead state of a fresh wave. *)
Definition clearedGame : Game :=
  set_bullets [Bullet.mk 30 20 true]
    (set_invaders
       (map (fun inv => Invader.mk (Invader.x inv) (Invader.y inv)
                          (Invader.type inv) false) freshWave)
       (set_score 990 (set_started true newGame))).

(** A playing game whose formation clock is about to expire. *)
Definition marchingGame : Game :=
  set_invaderMoveTimer 690 (set_started true newGame).

(** The same, after seven slides to the right: the rightmost column is at
    x = 57 = W - 3. *)
Definition atRightEdge : Game :=
  set_invaderMoveTimer 690
    (set_invaders (map (fun inv => Invader.mk (Invader.x inv + 7)
                          (Invader.y inv) (Invader.type inv) true) freshWave)
       (set_started true newGame)).

(** A game that has just been started: playing, cooldown expired. *)
Definition playingGame : Game := run newGame [KeySpace].


(** A frame that reads no movement and no mute request. *)
Definition quiet (f : FrameInput) : Prop :=
  directionX f = 0 /\
  (isConnected (gamepad f) = false \/
   (pushedLeft (gamepad f) = false /\ pushedRight (gamepad f) = false /\
    pressedY (gamepad f) = false)).

(** A frame in which the gamepad does not toggle pause. *)
Definition keepsPause (f : FrameInput) : Prop :=
  isConnected (gamepad f) && pressedStart (gamepad f) = false.

(** Every invader is of one of the three tiers. *)
Definition wellTyped (invs : list Invader.t) : Prop :=
  Forall (fun t => 0 <= t <= 2) (map Invader.type invs).

(** The score is non-negative and the high score is not below it. *)
Definition tallyOK (s : Game) : Prop :=
  0 <= score s <= highScore s /\ wellTyped (invaders s).

(** Start, then one idle frame. *)
Definition firstFrame : list Event := [KeySpace; Frame (idleFrame 16)].

(** A playing game with three bullets about to hit: a player bullet below
    the bottom-left invader, an enemy bullet above a barrier segment and an
    enemy bullet above the player. *)
Definition crossfire : Game :=
  set_bullets [Bullet.mk 10 18 true; Bullet.mk 12 29 false; Bullet.mk 30 36 false]
    (set_started true newGame).

(** What a bullet that hits does to the rest of the state under each of
    the three rules of [updateBullets], the bullet list left aside: the
    body of the rule's loop without its [splice]. [None] when the bullet
    hits nothing under the rule. *)
Definition invaderStrike (b : Bullet.t) (s : Game) : option Game :=
  if Bullet.isPlayerBullet b then
    match destroyFirst b (invaders s) with
    | Some (invs', victim) =>
        Some (play Sound.explosion
                (set_score (score s + (Invader.type victim + 1) * 10)
                   (set_invaders invs' s)))
    | None => None
    end
  else None.

Definition barrierStrike (b : Bullet.t) (s : Game) : option Game :=
  match damageLast b (length (barriers s)) (barriers s) with
  | Some bars' => Some (set_barriers bars' (play Sound.barrierHit s))
  | None => None
  end.

Definition playerStrike (b : Bullet.t) (s : Game) : option Game :=
  if hitsPlayer b (player s) then
    let s1 := play Sound.playerHit (set_lives (lives s - 1) s) in
    Some (if lives s1 <=? 0
          then play Sound.gameOver (set_gameOver true s1) else s1)
  else None.

(** One rule taken bullet by bullet, the last bullet first: every bullet
    of [bs] is offered to the rule exactly once; a bullet that strikes is
    consumed and the others are kept, in order. The result is the bullets
    kept and the state the strikes leave. *)
Fixpoint sweep (strike : Bullet.t -> Game -> option Game)
         (bs : list Bullet.t) (s : Game) : list Bullet.t * Game :=
  match bs with
  | [] => ([], s)
  | b :: rest =>
      let (kept, s') := sweep strike rest s in
      match strike b s' with
      | Some s'' => (kept, s'')
      | None => (b :: kept, s')
      end
  end.

(** An invader that was shot. *)
Definition shotDown (inv : Invader.t) : Invader.t :=
  Invader.mk (Invader.x inv) (Invader.y inv) (Invader.type inv) false.

(** The invaders [Math.random()] selects in a run of 31 frames of 1500 ms:
    row 0 column 5 in frame 1, row 1 column 4 in frame 4, row 2 column 3 in
    frame 7, row 3 column 4 in frame 12, and the bottom-left invader (number
    44) in every other frame. *)
Definition volleyPicks : list Z :=
  [5; 44; 44; 15; 44; 44; 25; 44; 44; 44; 44; 37] ++ repeat 44 19.

(** Start with the Space key, then the 31 frames. The four selected shots
    reach the player's row in the same frame, at x = 31, 30, 29 and 29. *)
Definition volley : list Event :=
  KeySpace :: map (fun k => Frame (shotFrame 1500 k)) volleyPicks.

(** A playing game with one life left and two enemy bullets just above
    the ship. *)
Definition lastLife : Game :=
  set_lives 1
    (set_bullets [Bullet.mk 29 36 false; Bullet.mk 31 36 false]
       (set_started true newGame)).

(** What the input handlers can do to the tally of a state [s0]: nothing
    to the high score, and nothing to the score unless the game was over
    (when a restart resets it to 0). *)
Definition handled (s0 t : Game) : Prop :=
  tallyOK t /\ highScore t = highScore s0 /\
  (gameOver s0 = false -> score t = score s0 /\ gameOver t = false).


(** ** Vocabulary of the further properties *)

(** The formation parameters agree with the level. *)
Definition paramsOK (s : Game) : Prop :=
  1 <= level s /\
  invaderMoveInterval s = Z.max 300 (800 - level s * 100) /\
  (invaderDirection s = 1 \/ invaderDirection s = -1).

(** An invader [a] of the formation shifted by ([dx], [dy]) from its
    place [f] in a fresh wave: the tier is that of the place, and while
    alive the position is the place's plus the shift. *)
Definition inFormation (dx dy : Z) (a f : Invader.t) : Prop :=
  Invader.type a = Invader.type f /\
  (Invader.alive a = true ->
   Invader.x a = Invader.x f + dx /\ Invader.y a = Invader.y f + dy).

(** Every alive invader is in the columns 1 to W - 3. *)
Definition inColumns (invs : list Invader.t) : Prop :=
  Forall (fun a => Invader.alive a = true ->
                   1 <= Invader.x a <= GRID_WIDTH - 3) invs.

Definition formationOK (s : Game) : Prop :=
  (invaderDirection s = 1 \/ invaderDirection s = -1) /\
  (exists dx dy, 0 <= dy /\
     Forall2 (inFormation dx dy) (invaders s) freshWave) /\
  inColumns (invaders s).

(** An invader later in the same wave: same tier, not higher up, and not
    alive again once dead. *)
Definition descended (a b : Invader.t) : Prop :=
  Invader.type b = Invader.type a /\ Invader.y a <= Invader.y b /\
  (Invader.alive b = true -> Invader.alive a = true).

(** An invader across the collisions of a frame: it does not move or
    change tier, and it is not alive again once dead. *)
Definition wornDown (a b : Invader.t) : Prop :=
  Invader.x b = Invader.x a /\ Invader.y b = Invader.y a /\
  Invader.type b = Invader.type a /\
  (Invader.alive b = true -> Invader.alive a = true).

(** Some alive invader is on the row above the player or lower. *)
Definition reachedRow (s : Game) : Prop :=
  exists inv, In inv (invaders s) /\ Invader.alive inv = true /\
              Invader.y inv >= Point.y (player s) - 1.

(** A playing game whose formation, nine drops down, is about to step at
    the right edge: its bottom row drops from y = 35 to y = 37. *)
Definition lastDrop : Game :=
  set_invaderMoveTimer 690
    (set_invaders (map (fun inv => Invader.mk (Invader.x inv + 7)
                          (Invader.y inv + 18) (Invader.type inv) true)
                     freshWave)
       (set_started true newGame)).

(** A bullet on the grid: in the columns 0 to W - 2 and the rows 0 to
    H - 1. *)
Definition onGrid (b : Bullet.t) : Prop :=
  0 <= Bullet.x b <= GRID_WIDTH - 2 /\ 0 <= Bullet.y b < GRID_HEIGHT.

(** The bullet an invader fires. *)
Definition enemyBullet (shooter : Invader.t) : Bullet.t :=
  Bullet.mk (Invader.x shooter) (Invader.y shooter + 1) false.

(** A binary64 value: a whole number of magnitude below 2^53 times a power
    of two from 2^-1074 to 2^971. *)
Definition binary64 (q : Q) : Prop :=
  exists m e : Z,
    Z.abs m < 2 ^ 53 /\ -1074 <= e <= 971 /\ (q == inject_Z m * 2 ^ e)%Q.

(** A sample of [Math.random()]: a binary64 value in [0, 1). *)
Definition unitSample (r : Q) : Prop :=
  binary64 r /\ (0 <= r)%Q /\ (r < 1)%Q.

(** The points still to be scored in a wave: (tier + 1) * 10 for every
    alive invader. *)
Definition bounty (invs : list Invader.t) : Z :=
  fold_right (fun inv acc =>
                if Invader.alive inv then (Invader.type inv + 1) * 10 + acc
                else acc) 0 invs.

(** What the input handlers leave alone in a game that is not over. *)
Definition sameWave (s t : Game) : Prop :=
  invaders t = invaders s /\ level t = level s /\ gameOver t = false /\
  score t = score s.

(** Whose bullets a list holds. *)
Definition allEnemy (bs : list Bullet.t) : Prop :=
  Forall (fun b => Bullet.isPlayerBullet b = false) bs.

Definition allPlayer (bs : list Bullet.t) : Prop :=
  Forall (fun b => Bullet.isPlayerBullet b = true) bs.

(** The cell of a barrier segment. *)
Definition cell (bar : Barrier.t) : Z * Z := (Barrier.x bar, Barrier.y bar).

(** Segments of the four spawned blocks, in spawn order, each with 1 to 3
    points of health left. *)
Definition barriersOK (bars : list Barrier.t) : Prop :=
  Forall (fun bar => 1 <= Barrier.health bar <= 3) bars /\
  sublist (map cell bars) (map cell freshBarriers).

(** An event that does not restart the game. *)
Definition noRestart (e : Event) : Prop :=
  match e with
  | KeyR => False
  | Frame f => isConnected (gamepad f) && pressedB (gamepad f) = false
  | _ => True
  end.

(** A game lost with five shots fired: the state after [volley]. *)
Definition lostGame : Game := run newGame volley.

(** The sound sink [m'] after some calls of [play] on [m]: the mute
    setting is the same, the log is extended, and not at all when muted. *)
Definition heard (m m' : SynthManager.t) : Prop :=
  SynthManager.muted m' = SynthManager.muted m /\
  exists cues,
    SynthManager.emitted m' = SynthManager.emitted m ++ cues /\
    (SynthManager.muted m = true -> cues = []).

(** An event that does not toggle mute. *)
Definition noMuteToggle (e : Event) : Prop :=
  match e with
  | KeyM => False
  | Frame f => isConnected (gamepad f) && pressedY (gamepad f) = false
  | _ => True
  end.

(** The crossfire of three bullets with the sound muted. *)
Definition mutedCrossfire : Game := toggleMute crossfire.

(** A frame that reads no start input: no direction, and on a connected
    gamepad no stick or d-pad push, no A button and no Y button. *)
Definition idle (f : FrameInput) : Prop :=
  directionX f = 0 /\
  (isConnected (gamepad f) = false \/
   (pushedLeft (gamepad f) = false /\ pushedRight (gamepad f) = false /\
    pressedA (gamepad f) = false /\ pressedY (gamepad f) = false)).

(** The column and row of a bullet, without its owner. *)
Definition place (b : Bullet.t) : Z * Z := (Bullet.x b, Bullet.y b).

(** Two bullets on barrier cells, and the same with the owners swapped. *)
Definition siege : Game :=
  set_bullets [Bullet.mk 12 30 false; Bullet.mk 25 31 true]
    (set_started true newGame).

Definition siegeSwapped : Game :=
  set_bullets [Bullet.mk 12 30 true; Bullet.mk 25 31 false]
    (set_started true newGame).

(** The game-over flag tells that no life is left. *)
Definition overIffNoLives (s : Game) : Prop :=
  gameOver s = true <-> lives s <= 0.

(** * Properties *)

(** The frame and its blocks are unfolded by name only. *)
Arguments simulate : simpl never.
Arguments beforeLevelCheck : simpl never.
Arguments updateBullets : simpl never.
Arguments moveInvaders : simpl never.
Arguments enemyFire : simpl never.
Arguments checkLevelComplete : simpl never.
Arguments update : simpl never.
Arguments initGame : simpl never.
Arguments freshWave : simpl never.
Arguments freshBarriers : simpl never.

(** Reduce field reads of field assignments, and nothing else. *)
Ltac fields :=
  cbn [player invaders bullets barriers score lives gameOver paused started
       level highScore invaderMoveTimer invaderMoveInterval invaderDirection
       shootCooldown enemyShootTimer synthManager
       set_player set_invaders set_bullets set_barriers set_score set_lives
       set_gameOver set_paused set_started set_level set_highScore
       set_invaderMoveTimer set_invaderMoveInterval set_invaderDirection
       set_shootCooldown set_enemyShootTimer set_synthManager
       play spawnInvaders spawnBarriers].

Ltac fields_in H :=
  cbn [player invaders bullets barriers score lives gameOver paused started
       level highScore invaderMoveTimer invaderMoveInterval invaderDirection
       shootCooldown enemyShootTimer synthManager
       set_player set_invaders set_bullets set_barriers set_score set_lives
       set_gameOver set_paused set_started set_level set_highScore
       set_invaderMoveTimer set_invaderMoveInterval set_invaderDirection
       set_shootCooldown set_enemyShootTimer set_synthManager
       play spawnInvaders spawnBarriers] in H.

(** Case analysis on every flag of a state. *)
Ltac flag_cases s :=
  destruct s; simpl in *;
  repeat match goal with b : bool |- _ => destruct b end;
  simpl; try assumption; try congruence.

(** ** Shapes: the fields an operation can assign *)

Lemma game_eta (s : Game) :
  s = mkGame (player s) (invaders s) (bullets s) (barriers s) (score s)
        (lives s) (gameOver s) (paused s) (started s) (level s) (highScore s)
        (invaderMoveTimer s) (invaderMoveInterval s) (invaderDirection s)
        (shootCooldown s) (enemyShootTimer s) (synthManager s).
Proof. destruct s; reflexivity. Qed.

Lemma muted_play (effect : SoundEffect) (m : SynthManager.t) :
  SynthManager.muted (SynthManager.play effect m) = SynthManager.muted m.
Proof. destruct m as [[|] l]; reflexivity. Qed.

Lemma invaderCollisions_shape (n : nat) (s : Game) :
  exists invs bs sc m,
    invaderCollisions n s =
    mkGame (player s) invs bs (barriers s) sc (lives s) (gameOver s)
      (paused s) (started s) (level s) (highScore s) (invaderMoveTimer s)
      (invaderMoveInterval s) (invaderDirection s) (shootCooldown s)
      (enemyShootTimer s) m.
Proof.
  revert s; induction n as [|i IH]; intros s; simpl.
  - exists (invaders s), (bullets s), (score s), (synthManager s). apply game_eta.
  - destruct (bullets s !! i) as [b|]; [|apply IH].
    destruct (negb (Bullet.isPlayerBullet b)); [apply IH|].
    destruct (destroyFirst b (invaders s)) as [[invs' v]|]; [|apply IH].
    match goal with |- context [invaderCollisions i ?t] =>
      destruct (IH t) as (a1 & a2 & a3 & a4 & ->) end.
    simpl. eauto 10.
Qed.

Lemma barrierCollisions_shape (n : nat) (s : Game) :
  exists bs bars m,
    barrierCollisions n s =
    mkGame (player s) (invaders s) bs bars (score s) (lives s) (gameOver s)
      (paused s) (started s) (level s) (highScore s) (invaderMoveTimer s)
      (invaderMoveInterval s) (invaderDirection s) (shootCooldown s)
      (enemyShootTimer s) m.
Proof.
  revert s; induction n as [|i IH]; intros s; simpl.
  - exists (bullets s), (barriers s), (synthManager s). apply game_eta.
  - destruct (bullets s !! i) as [b|]; [|apply IH].
    destruct (damageLast b (length (barriers s)) (barriers s)) as [bars'|];
      [|apply IH].
    match goal with |- context [barrierCollisions i ?t] =>
      destruct (IH t) as (a1 & a2 & a3 & ->) end.
    simpl. eauto 10.
Qed.

Lemma playerStruck_shape (i : nat) (s : Game) :
  exists bs lv go m,
    playerStruck i s =
    mkGame (player s) (invaders s) bs (barriers s) (score s) lv go
      (paused s) (started s) (level s) (highScore s) (invaderMoveTimer s)
      (invaderMoveInterval s) (invaderDirection s) (shootCooldown s)
      (enemyShootTimer s) m.
Proof.
  unfold playerStruck. simpl.
  destruct (lives s - 1 <=? 0); simpl; eauto 10.
Qed.

Lemma playerCollisions_shape (n : nat) (s : Game) :
  exists bs lv go m,
    playerCollisions n s =
    mkGame (player s) (invaders s) bs (barriers s) (score s) lv go
      (paused s) (started s) (level s) (highScore s) (invaderMoveTimer s)
      (invaderMoveInterval s) (invaderDirection s) (shootCooldown s)
      (enemyShootTimer s) m.
Proof.
  revert s; induction n as [|i IH]; intros s; simpl.
  - exists (bullets s), (lives s), (gameOver s), (synthManager s). apply game_eta.
  - destruct (bullets s !! i) as [b|]; [|apply IH].
    destruct (hitsPlayer b (player s)); [|apply IH].
    destruct (playerStruck_shape i s) as (b1 & b2 & b3 & b4 & ->).
    match goal with |- context [playerCollisions i ?t] =>
      destruct (IH t) as (a1 & a2 & a3 & a4 & ->) end.
    simpl. eauto 10.
Qed.

Lemma updateBullets_shape (s : Game) :
  exists invs bs bars sc lv go m,
    updateBullets s =
    mkGame (player s) invs bs bars sc lv go
      (paused s) (started s) (level s) (highScore s) (invaderMoveTimer s)
      (invaderMoveInterval s) (invaderDirection s) (shootCooldown s)
      (enemyShootTimer s) m.
Proof.
  unfold updateBullets, resolveCollisions.
  destruct (invaderCollisions_shape
              (length (bullets (advanceBullets s))) (advanceBullets s))
    as (a1 & a2 & a3 & a4 & ->).
  match goal with |- context [barrierCollisions ?n ?t] =>
    destruct (barrierCollisions_shape n t) as (b1 & b2 & b3 & ->) end.
  match goal with |- context [playerCollisions ?n ?t] =>
    destruct (playerCollisions_shape n t) as (c1 & c2 & c3 & c4 & ->) end.
  simpl. eauto 12.
Qed.

Lemma reachedPlayer_fold_shape (l : list Invader.t) (s : Game) :
  exists lv go m,
    fold_left (fun acc inv => reachedPlayer inv acc) l s =
    mkGame (player s) (invaders s) (bullets s) (barriers s) (score s) lv go
      (paused s) (started s) (level s) (highScore s) (invaderMoveTimer s)
      (invaderMoveInterval s) (invaderDirection s) (shootCooldown s)
      (enemyShootTimer s) m.
Proof.
  revert s; induction l as [|inv l IH]; intros s; simpl.
  - exists (lives s), (gameOver s), (synthManager s). apply game_eta.
  - unfold reachedPlayer at 2.
    destruct (Invader.y inv >=? Point.y (player s) - 1); [|apply IH].
    match goal with |- context [fold_left _ l ?t] =>
      destruct (IH t) as (a1 & a2 & a3 & ->) end.
    simpl. eauto 10.
Qed.

Lemma moveInvaders_shape (dt : Z) (s : Game) :
  exists invs lv go tm dir m,
    moveInvaders dt s =
    mkGame (player s) invs (bullets s) (barriers s) (score s) lv go
      (paused s) (started s) (level s) (highScore s) tm
      (invaderMoveInterval s) dir (shootCooldown s)
      (enemyShootTimer s) m.
Proof.
  unfold moveInvaders. simpl.
  destruct (invaderMoveTimer s + dt >=? invaderMoveInterval s);
    [|simpl; eauto 12].
  match goal with |- context [fold_left _ ?l ?t] =>
    destruct (reachedPlayer_fold_shape l t) as (a1 & a2 & a3 & ->) end.
  destruct (existsb _ _); destruct (aliveInvaders _); simpl; eauto 12.
Qed.

Lemma enemyShoot_shape (r : Q) (s : Game) :
  exists bs m,
    enemyShoot r s =
    mkGame (player s) (invaders s) bs (barriers s) (score s) (lives s)
      (gameOver s) (paused s) (started s) (level s) (highScore s)
      (invaderMoveTimer s) (invaderMoveInterval s) (invaderDirection s)
      (shootCooldown s) (enemyShootTimer s) m.
Proof.
  unfold enemyShoot.
  destruct (aliveInvaders s) as [|a l];
    [exists (bullets s), (synthManager s); apply game_eta|].
  destruct (_ !! _);
    [simpl; eauto|exists (bullets s), (synthManager s); apply game_eta].
Qed.

Lemma checkLevelComplete_shape (s : Game) :
  exists invs bs bars lvl iv dir m,
    checkLevelComplete s =
    mkGame (player s) invs bs bars (score s) (lives s)
      (gameOver s) (paused s) (started s) lvl (highScore s)
      (invaderMoveTimer s) iv dir
      (shootCooldown s) (enemyShootTimer s) m.
Proof.
  unfold checkLevelComplete.
  destruct (aliveInvaders s).
  { exists freshWave, [], freshBarriers, (level s + 1),
      (Z.max 300 (800 - (level s + 1) * 100)), 1,
      (SynthManager.play Sound.levelComplete (synthManager s)).
    reflexivity. }
  exists (invaders s), (bullets s), (barriers s), (level s),
    (invaderMoveInterval s), (invaderDirection s), (synthManager s).
  apply game_eta.
Qed.

Lemma enemyFire_shape (dt : Z) (r : Q) (s : Game) :
  exists bs et m,
    enemyFire dt r s =
    mkGame (player s) (invaders s) bs (barriers s) (score s) (lives s)
      (gameOver s) (paused s) (started s) (level s) (highScore s)
      (invaderMoveTimer s) (invaderMoveInterval s) (invaderDirection s)
      (shootCooldown s) et m.
Proof.
  unfold enemyFire. simpl.
  destruct (_ >=? enemyShootInterval); [|simpl; eauto].
  match goal with |- context [enemyShoot r ?t] =>
    destruct (enemyShoot_shape r t) as (b1 & b2 & ->) end.
  simpl. eauto.
Qed.

Lemma beforeLevelCheck_shape (dt : Z) (r : Q) (s : Game) :
  exists invs bs bars sc lv go tm dir et m,
    beforeLevelCheck dt r s =
    mkGame (player s) invs bs bars sc lv go (paused s) (started s)
      (level s) (highScore s) tm (invaderMoveInterval s) dir
      (if shootCooldown s >? 0 then shootCooldown s - dt else shootCooldown s)
      et m.
Proof.
  unfold beforeLevelCheck.
  destruct (moveInvaders_shape dt (coolDown dt s))
    as (a1 & a2 & a3 & a4 & a5 & a6 & ->).
  match goal with |- context [enemyFire dt r ?t] =>
    destruct (enemyFire_shape dt r t) as (b1 & b2 & b3 & ->) end.
  match goal with |- context [updateBullets ?t] =>
    destruct (updateBullets_shape t)
      as (c1 & c2 & c3 & c4 & c5 & c6 & c7 & ->) end.
  unfold coolDown. destruct (shootCooldown s >? 0); simpl; eauto 20.
Qed.

Lemma updateHighScore_max (s : Game) :
  updateHighScore s = set_highScore (Z.max (highScore s) (score s)) s.
Proof.
  unfold updateHighScore. destruct (score s >? highScore s) eqn:E.
  - apply Z.gtb_lt in E. rewrite Z.max_r by lia. reflexivity.
  - rewrite Z.max_l by (rewrite Z.gtb_ltb in E; apply Z.ltb_ge in E; lia).
    destruct s; reflexivity.
Qed.

Lemma simulate_shape (dt : Z) (r : Q) (s : Game) :
  exists invs bs bars lv go lvl tm iv dir et m,
    simulate dt r s =
    mkGame (player s) invs bs bars (score (beforeLevelCheck dt r s)) lv go
      (paused s) (started s) lvl
      (Z.max (highScore s) (score (beforeLevelCheck dt r s))) tm iv dir
      (if shootCooldown s >? 0 then shootCooldown s - dt else shootCooldown s)
      et m.
Proof.
  unfold simulate. rewrite updateHighScore_max.
  destruct (checkLevelComplete_shape (beforeLevelCheck dt r s))
    as (d1 & d2 & d3 & d4 & d5 & d6 & d7 & ->).
  destruct (beforeLevelCheck_shape dt r s)
    as (c1 & c2 & c3 & c4 & c5 & c6 & c7 & c8 & c9 & c10 & ->).
  simpl. eauto 20.
Qed.

(** ** Invariants of the event loop

    A property that every handler and the gated simulation preserve holds
    in every reachable state. *)

Section Invariants.
Variable P : Game -> Prop.

Hypothesis P_startGame : forall s, P s -> P (startGame s).
Hypothesis P_moveLeft : forall s, P s -> P (moveLeft s).
Hypothesis P_moveRight : forall s, P s -> P (moveRight s).
Hypothesis P_shootBullet : forall s, P s -> P (shootBullet s).
Hypothesis P_togglePause : forall s, P s -> P (togglePause s).
Hypothesis P_initGame : forall s, P s -> gameOver s = true -> P (initGame s).
Hypothesis P_toggleMute : forall s, P s -> P (toggleMute s).

Lemma shoot_preserves s : P s -> P (shoot s).
Proof.
  intros H. unfold shoot. apply P_startGame.
  destruct (started s && negb (gameOver s) && negb (paused s)); auto.
Qed.

Lemma restart_preserves s : P s -> P (restart s).
Proof.
  intros H. unfold restart. destruct (gameOver s) eqn:E; auto.
Qed.

Lemma handleGamepadInput_preserves g s : P s -> P (handleGamepadInput g s).
Proof.
  intros H. unfold handleGamepadInput.
  destruct (negb (isConnected g)); [assumption|]. cbv zeta.
  destruct (pressedY g); [apply P_toggleMute|];
    (destruct (pressedB g); [apply restart_preserves|]);
    (destruct (pressedStart g); [apply P_togglePause|]);
    (destruct (pressedA g); [apply shoot_preserves|]);
    (destruct (pushedLeft g); [apply P_startGame, P_moveLeft, H|]);
    (destruct (pushedRight g); [apply P_startGame, P_moveRight, H|exact H]).
Qed.

Lemma keyboardMovement_preserves dx s : P s -> P (keyboardMovement dx s).
Proof.
  intros H. unfold keyboardMovement.
  destruct (negb (dx =? 0)); [|assumption]. cbv zeta.
  destruct (dx >? 0); destruct (dx <? 0); auto.
Qed.

Lemma inputs_preserve f s :
  P s -> P (keyboardMovement (directionX f) (handleGamepadInput (gamepad f) s)).
Proof.
  intros H. apply keyboardMovement_preserves, handleGamepadInput_preserves, H.
Qed.

Hypothesis P_simulate :
  forall dt r s, P s -> inactive s = false -> P (simulate dt r s).

Lemma update_preserves f s : P s -> P (update f s).
Proof.
  intros H. unfold update. cbv zeta.
  destruct (inactive _) eqn:E; [apply inputs_preserve, H|].
  apply P_simulate; [apply inputs_preserve, H|exact E].
Qed.

Lemma step_preserves s e : P s -> P (step s e).
Proof.
  intros H. destruct e; simpl.
  - apply shoot_preserves, H.
  - apply P_togglePause, H.
  - apply restart_preserves, H.
  - apply P_toggleMute, H.
  - apply update_preserves, H.
Qed.

Lemma run_preserves es : forall s, P s -> P (run s es).
Proof.
  induction es as [|e es IH]; intros s H; simpl; [assumption|].
  apply IH, step_preserves, H.
Qed.

Lemma reachable_preserves : P newGame -> forall s, reachable s -> P s.
Proof.
  intros H0 s R. induction R; [assumption|]. apply step_preserves; assumption.
Qed.
End Invariants.

Lemma reachable_run (es : list Event) : reachable (run newGame es).
Proof.
  unfold run. rewrite <- (rev_involutive es).
  induction (rev es) as [|e l IH]; simpl; [constructor|].
  rewrite fold_left_app. simpl. constructor. exact IH.
Qed.

(** ** The player's track *)

Lemma onTrack_startGame s : onTrack s -> onTrack (startGame s).
Proof. intros H. unfold startGame. flag_cases s. Qed.

Lemma onTrack_togglePause s : onTrack s -> onTrack (togglePause s).
Proof. intros H. unfold togglePause. flag_cases s. Qed.

Lemma onTrack_shootBullet s : onTrack s -> onTrack (shootBullet s).
Proof. unfold shootBullet. destruct (_ <=? _); simpl; auto. Qed.

Lemma onTrack_toggleMute s : onTrack s -> onTrack (toggleMute s).
Proof. auto. Qed.

Lemma onTrack_initGame s : onTrack (initGame s).
Proof. unfold onTrack; simpl. repeat split; vm_compute; congruence. Qed.

Lemma onTrack_moveLeft s : onTrack s -> onTrack (moveLeft s).
Proof.
  unfold moveLeft, onTrack, GRID_WIDTH, GRID_HEIGHT.
  intros (Hy & Hx & He).
  destruct (Point.x (player s) >? 1) eqn:E; simpl; [|auto].
  apply Z.gtb_lt in E. split; [exact Hy|]. split; [lia|].
  rewrite Z.even_sub, He. reflexivity.
Qed.

Lemma onTrack_moveRight s : onTrack s -> onTrack (moveRight s).
Proof.
  unfold moveRight, onTrack, GRID_WIDTH, GRID_HEIGHT.
  intros (Hy & Hx & He).
  destruct (Point.x (player s) <? 60 - 2) eqn:E; simpl; [|auto].
  apply Z.ltb_lt in E. split; [exact Hy|].
  assert (Point.x (player s) <> 57)
    by (intros K; rewrite K in He; discriminate).
  split; [lia|]. rewrite Z.even_add, He. reflexivity.
Qed.

Lemma onTrack_simulate dt r s : onTrack s -> onTrack (simulate dt r s).
Proof.
  destruct (simulate_shape dt r s)
    as (? & ? & ? & ? & ? & ? & ? & ? & ? & ? & ? & ->).
  auto.
Qed.

Lemma onTrack_reachable s : reachable s -> onTrack s.
Proof.
  revert s. apply (reachable_preserves onTrack);
    eauto using onTrack_startGame, onTrack_moveLeft, onTrack_moveRight,
      onTrack_shootBullet, onTrack_togglePause, onTrack_initGame,
      onTrack_toggleMute, onTrack_simulate.
Qed.

(** C1, as the code has it: in every reachable state the player's x
    coordinate is within [0, W-2] = [0, 58], whatever the keyboard and
    gamepad inputs were; the ship moves two cells at a time from x = 30
    and so stays on even cells. *)
Theorem player_x_within_track (s : Game) :
  reachable s ->
  0 <= Point.x (player s) <= GRID_WIDTH - 2 /\
  Z.even (Point.x (player s)) = true.
Proof.
  intros R. destruct (onTrack_reachable s R) as (_ & Hx & He). auto.
Qed.

Lemma player_x_within_track_witness :
  reachable (run newGame holdLeft) /\
  0 <= Point.x (player (run newGame holdLeft)) <= GRID_WIDTH - 2 /\
  Z.even (Point.x (player (run newGame holdLeft))) = true.
Proof.
  split; [apply reachable_run|].
  apply (player_x_within_track (run newGame holdLeft)), reachable_run.
Defined.

(** C1 as stated fails: holding the left key for fifteen frames takes the
    ship from x = 30 to x = 0, below the claimed lower bound 1. *)
Lemma player_x_leaves_claimed_range :
  reachable (run newGame holdLeft) /\
  Point.x (player (run newGame holdLeft)) = 0 /\
  ~ (1 <= Point.x (player (run newGame holdLeft)) <= GRID_WIDTH - 2).
Proof.
  split; [apply reachable_run|].
  assert (E : Point.x (player (run newGame holdLeft)) = 0)
    by (vm_compute; reflexivity).
  split; [exact E|]. rewrite E. lia.
Qed.

(** ** Phases *)

Lemma phase_startGame s : phase s <> None -> phase (startGame s) <> None.
Proof. unfold startGame, phase. flag_cases s. Qed.

Lemma phase_togglePause s : phase s <> None -> phase (togglePause s) <> None.
Proof. unfold togglePause, phase. flag_cases s. Qed.

Lemma phase_shootBullet s : phase s <> None -> phase (shootBullet s) <> None.
Proof. unfold shootBullet. destruct (_ <=? _); simpl; auto. Qed.

Lemma phase_moveLeft s : phase s <> None -> phase (moveLeft s) <> None.
Proof. unfold moveLeft. destruct (_ >? _); simpl; auto. Qed.

Lemma phase_moveRight s : phase s <> None -> phase (moveRight s) <> None.
Proof. unfold moveRight. destruct (_ <? _); simpl; auto. Qed.

Lemma phase_initGame s : phase (initGame s) = Some NotStarted.
Proof. reflexivity. Qed.

Lemma phase_simulate dt r s :
  inactive s = false -> phase (simulate dt r s) <> None.
Proof.
  intros H.
  destruct (simulate_shape dt r s)
    as (? & ? & ? & ? & go & ? & ? & ? & ? & ? & ? & ->).
  revert H. unfold inactive, phase. simpl.
  destruct (started s), (gameOver s), (paused s), go; simpl; congruence.
Qed.

Lemma phase_reachable s : reachable s -> phase s <> None.
Proof.
  revert s. apply (reachable_preserves (fun s => phase s <> None));
    eauto using phase_startGame, phase_moveLeft, phase_moveRight,
      phase_shootBullet, phase_togglePause, phase_simulate;
    intros; rewrite ?phase_initGame; discriminate.
Qed.

(** C9: in every reachable state the three flags encode exactly one of the
    four phases; so paused implies started, paused and game-over never hold
    together, and paused-while-not-started is unreachable. *)
Theorem phases_mutually_exclusive (s : Game) :
  reachable s ->
  (exists p, phase s = Some p) /\
  (paused s = true -> started s = true) /\
  ~ (paused s = true /\ gameOver s = true) /\
  ~ (paused s = true /\ started s = false).
Proof.
  intros R. pose proof (phase_reachable s R) as H. revert H.
  unfold phase.
  destruct (started s), (paused s), (gameOver s); intros H;
    try (exfalso; apply H; reflexivity);
    (split; [eexists; reflexivity|]);
    (split; [intros; congruence|]);
    split; intros [? ?]; congruence.
Qed.

Lemma phases_mutually_exclusive_witness :
  reachable pausedGame /\
  (exists p, phase pausedGame = Some p) /\
  (paused pausedGame = true -> started pausedGame = true) /\
  ~ (paused pausedGame = true /\ gameOver pausedGame = true) /\
  ~ (paused pausedGame = true /\ started pausedGame = false).
Proof.
  split; [apply (reachable_run [KeySpace; KeyP])|].
  apply (phases_mutually_exclusive pausedGame), (reachable_run [KeySpace; KeyP]).
Defined.

(** ** Level progression *)

Lemma aliveCount_zero (s : Game) : aliveCount s = 0 -> aliveInvaders s = [].
Proof.
  unfold aliveCount. destruct (aliveInvaders s); [reflexivity|].
  simpl. lia.
Qed.

(** The transition in full, field by field. *)
Lemma checkLevelComplete_cleared (s : Game) :
  aliveInvaders s = [] ->
  checkLevelComplete s =
  mkGame (player s) freshWave [] freshBarriers (score s) (lives s)
    (gameOver s) (paused s) (started s) (level s + 1) (highScore s)
    (invaderMoveTimer s) (Z.max 300 (800 - (level s + 1) * 100)) 1
    (shootCooldown s) (enemyShootTimer s)
    (SynthManager.play Sound.levelComplete (synthManager s)).
Proof. intros H. unfold checkLevelComplete. rewrite H. reflexivity. Qed.

Lemma checkLevelComplete_pending (s : Game) :
  aliveInvaders s <> [] -> checkLevelComplete s = s.
Proof.
  intros H. unfold checkLevelComplete.
  destruct (aliveInvaders s); [contradiction|reflexivity].
Qed.

Lemma freshWave_grid (row col : nat) :
  (row < 5)%nat -> (col < 11)%nat ->
  freshWave !! (row * 11 + col)%nat =
  Some (Invader.mk (10 + Z.of_nat col * 4) (5 + Z.of_nat row * 3)
          (rowType (Z.of_nat row)) true).
Proof.
  intros Hr Hc.
  do 5 (destruct row as [|row]; [
    do 11 (destruct col as [|col]; [reflexivity|]); lia |]).
  lia.
Qed.

(** C8: when no invader is alive, [checkLevelComplete] increments the level,
    spawns a fresh wave of 55 alive invaders in 5 rows of 11 and fresh
    barriers at full health, recomputes the step interval from the new level
    as max(300, 800 - level * 100), empties the bullet list, and leaves the
    phase flags as they were. *)
Theorem level_complete_transition (s : Game) :
  aliveCount s = 0 ->
  let s' := checkLevelComplete s in
  level s' = level s + 1 /\
  (length (invaders s') = 55%nat /\
   Forall (fun inv => Invader.alive inv = true) (invaders s') /\
   forall row col : nat, (row < 5)%nat -> (col < 11)%nat ->
     invaders s' !! (row * 11 + col)%nat =
     Some (Invader.mk (10 + Z.of_nat col * 4) (5 + Z.of_nat row * 3)
             (rowType (Z.of_nat row)) true)) /\
  (barriers s' = freshBarriers /\ length (barriers s') = 72%nat /\
   Forall (fun bar => Barrier.health bar = 3) (barriers s')) /\
  invaderMoveInterval s' = Z.max 300 (800 - level s' * 100) /\
  bullets s' = [] /\
  (started s' = started s /\ paused s' = paused s /\
   gameOver s' = gameOver s /\ phase s' = phase s).
Proof.
  intros H. apply aliveCount_zero in H.
  unfold checkLevelComplete. rewrite H. simpl.
  split; [reflexivity|]. split.
  { split; [reflexivity|]. split; [|exact freshWave_grid].
    apply List.Forall_forall. intros inv Hin. vm_compute in Hin.
    repeat (destruct Hin as [<-|Hin]; [reflexivity|]). destruct Hin. }
  split.
  { split; [reflexivity|]. split; [reflexivity|].
    apply List.Forall_forall. intros bar Hin. vm_compute in Hin.
    repeat (destruct Hin as [<-|Hin]; [reflexivity|]). destruct Hin. }
  repeat split; reflexivity.
Qed.

Lemma level_complete_transition_witness :
  aliveCount clearedGame = 0 /\
  level (checkLevelComplete clearedGame) = 2 /\
  invaderMoveInterval (checkLevelComplete clearedGame) = 600 /\
  bullets (checkLevelComplete clearedGame) = [].
Proof.
  split; [reflexivity|].
  destruct (level_complete_transition clearedGame eq_refl)
    as (H1 & _ & _ & H4 & H5 & _).
  split; [exact H1|]. split; [exact H4|exact H5].
Defined.

(** The same transition seen from the frame: if the bullets of this frame
    leave no invader alive, the frame ends one level up with the fresh
    wave, the fresh barriers and no bullet. *)
Lemma level_complete_in_frame (dt : Z) (r : Q) (s : Game) :
  aliveCount (beforeLevelCheck dt r s) = 0 ->
  let s' := simulate dt r s in
  level s' = level s + 1 /\ invaders s' = freshWave /\
  barriers s' = freshBarriers /\ bullets s' = [] /\
  invaderMoveInterval s' = Z.max 300 (800 - (level s + 1) * 100).
Proof.
  intros H. apply aliveCount_zero in H. cbv zeta.
  assert (L : level (beforeLevelCheck dt r s) = level s).
  { destruct (beforeLevelCheck_shape dt r s)
      as (? & ? & ? & ? & ? & ? & ? & ? & ? & ? & ->). reflexivity. }
  unfold simulate.
  rewrite updateHighScore_max, (checkLevelComplete_cleared _ H). fields.
  rewrite L. repeat split; reflexivity.
Qed.

(** C10: the level-complete transition leaves score, lives, high score and
    the player's position as they were (and the flags, the three clocks and
    the mute setting); the only fields it assigns are the level, the
    invaders, the barriers, the bullets, the step interval and the
    direction, apart from handing its cue to the sound sink. *)
Theorem level_complete_frame_condition (s : Game) :
  aliveCount s = 0 ->
  let s' := checkLevelComplete s in
  score s' = score s /\ lives s' = lives s /\ highScore s' = highScore s /\
  player s' = player s /\
  s' = mkGame (player s) (invaders s') (bullets s') (barriers s') (score s)
         (lives s) (gameOver s) (paused s) (started s) (level s')
         (highScore s) (invaderMoveTimer s) (invaderMoveInterval s')
         (invaderDirection s') (shootCooldown s) (enemyShootTimer s)
         (synthManager s') /\
  SynthManager.muted (synthManager s') = SynthManager.muted (synthManager s).
Proof.
  intros H. apply aliveCount_zero in H.
  unfold checkLevelComplete. rewrite H. simpl.
  repeat split; try reflexivity. apply muted_play.
Qed.

Lemma level_complete_frame_condition_witness :
  aliveCount clearedGame = 0 /\
  score (checkLevelComplete clearedGame) = 990 /\
  lives (checkLevelComplete clearedGame) = 3 /\
  player (checkLevelComplete clearedGame) = Point.mk 30 37.
Proof.
  split; [reflexivity|].
  destruct (level_complete_frame_condition clearedGame eq_refl)
    as (H1 & H2 & _ & H4 & _).
  split; [exact H1|]. split; [exact H2|exact H4].
Defined.

(** ** The formation step *)

Lemma existsb_atEdge (s : Game) :
  existsb (atEdge (invaderDirection s)) (aliveInvaders s) = true <->
  edgeReached s.
Proof.
  unfold edgeReached, aliveInvaders, atEdge. rewrite existsb_exists. split.
  - intros (inv & Hin & H). apply List.filter_In in Hin as [Hin Ha].
    exists inv. split; [exact Hin|]. split; [exact Ha|].
    apply orb_true_iff in H as [H|H]; apply andb_true_iff in H as [Hd Hx];
      apply Z.eqb_eq in Hd; [left|right]; split; try exact Hd.
    + apply Z.geb_le in Hx. lia.
    + apply Z.leb_le in Hx. exact Hx.
  - intros (inv & Hin & Ha & H). exists inv.
    split; [apply List.filter_In; auto|].
    apply orb_true_iff.
    destruct H as [[Hd Hx]|[Hd Hx]]; [left|right]; apply andb_true_iff;
      (split; [apply Z.eqb_eq, Hd|]).
    + apply Z.geb_le. lia.
    + apply Z.leb_le, Hx.
Qed.

Lemma map_dropInvader (l : list Invader.t) :
  Forall2 dropped l (map dropInvader l).
Proof.
  induction l as [|a l IH]; simpl; constructor; [|exact IH].
  unfold dropped, dropInvader, invaderDropDistance.
  destruct (Invader.alive a) eqn:E; simpl; rewrite ?E; auto.
Qed.

Lemma map_slideInvader (dir : Z) (l : list Invader.t) :
  Forall2 (slid dir) l (map (slideInvader dir) l).
Proof.
  induction l as [|a l IH]; simpl; constructor; [|exact IH].
  unfold slid, slideInvader.
  destruct (Invader.alive a) eqn:E; simpl; rewrite ?E; auto.
Qed.

(** What a triggered step does to the formation, whatever the final
    loss check then does to lives and the game-over flag. *)
Lemma moveInvaders_triggered (dt : Z) (s : Game) :
  invaderMoveTimer s + dt >= invaderMoveInterval s ->
  invaderMoveTimer (moveInvaders dt s) = 0 /\
  if existsb (atEdge (invaderDirection s)) (aliveInvaders s)
  then invaders (moveInvaders dt s) = map dropInvader (invaders s) /\
       invaderDirection (moveInvaders dt s) = invaderDirection s * -1
  else invaders (moveInvaders dt s) =
         map (slideInvader (invaderDirection s)) (invaders s) /\
       invaderDirection (moveInvaders dt s) = invaderDirection s.
Proof.
  intros H. unfold moveInvaders. simpl.
  replace (invaderMoveTimer s + dt >=? invaderMoveInterval s) with true
    by (symmetry; apply Z.geb_le; lia).
  match goal with |- context [fold_left _ ?l ?t] =>
    destruct (reachedPlayer_fold_shape l t) as (a1 & a2 & a3 & ->) end.
  simpl.
  change (aliveInvaders (set_invaderMoveTimer 0
            (set_invaderMoveTimer (invaderMoveTimer s + dt) s)))
    with (aliveInvaders s).
  destruct (existsb _ (aliveInvaders s)); destruct (aliveInvaders s);
    simpl; auto.
Qed.

(** C3: a triggered formation step is one decision for the whole
    formation. If some alive invader is at the edge it moves towards, every
    alive invader's y grows by exactly 2, no x changes and the direction is
    negated; otherwise every alive invader's x changes by exactly the
    direction, no y changes and the direction stays. Dead invaders are left
    alone in both cases. *)
Theorem formation_step_atomic (dt : Z) (s : Game) :
  invaderMoveTimer s + dt >= invaderMoveInterval s ->
  let s' := moveInvaders dt s in
  (edgeReached s ->
     Forall2 dropped (invaders s) (invaders s') /\
     invaderDirection s' = - invaderDirection s) /\
  (~ edgeReached s ->
     Forall2 (slid (invaderDirection s)) (invaders s) (invaders s') /\
     invaderDirection s' = invaderDirection s).
Proof.
  intros H s'. subst s'.
  destruct (moveInvaders_triggered dt s H) as [_ K].
  pose proof (existsb_atEdge s) as E.
  destruct (existsb _ _); destruct K as [-> ->]; split; intros He.
  - split; [apply map_dropInvader|lia].
  - exfalso. apply He, E. reflexivity.
  - apply E in He. discriminate.
  - split; [apply map_slideInvader|reflexivity].
Qed.

Lemma formation_step_atomic_witness :
  invaderMoveTimer atRightEdge + 16 >= invaderMoveInterval atRightEdge /\
  edgeReached atRightEdge /\
  invaderDirection (moveInvaders 16 atRightEdge) = -1 /\
  Forall2 dropped (invaders atRightEdge) (invaders (moveInvaders 16 atRightEdge)) /\
  ~ edgeReached marchingGame /\
  invaderDirection (moveInvaders 16 marchingGame) = 1 /\
  Forall2 (slid 1) (invaders marchingGame) (invaders (moveInvaders 16 marchingGame)).
Proof.
  assert (T1 : invaderMoveTimer atRightEdge + 16 >= invaderMoveInterval atRightEdge)
    by (vm_compute; congruence).
  assert (T2 : invaderMoveTimer marchingGame + 16 >= invaderMoveInterval marchingGame)
    by (vm_compute; congruence).
  assert (E1 : edgeReached atRightEdge)
    by (apply existsb_atEdge; vm_compute; reflexivity).
  assert (E2 : ~ edgeReached marchingGame).
  { intros E. apply existsb_atEdge in E. vm_compute in E. discriminate. }
  destruct (formation_step_atomic 16 atRightEdge T1) as [D _].
  destruct (formation_step_atomic 16 marchingGame T2) as [_ S].
  destruct (D E1) as [D1 D2]. destruct (S E2) as [S1 S2].
  repeat split; assumption.
Defined.

(** ** Player fire *)


Lemma shoot_playing (s : Game) :
  phase s = Some Playing -> shoot s = shootBullet s.
Proof.
  unfold phase, shoot, startGame, shootBullet. intros H.
  destruct (started s) eqn:E1, (paused s) eqn:E2, (gameOver s) eqn:E3;
    try discriminate.
  simpl. destruct (shootCooldown s <=? 0); simpl; rewrite E1; reflexivity.
Qed.







(** ** Pause *)

Lemma togglePause_twice (s : Game) : togglePause (togglePause s) = s.
Proof.
  unfold togglePause.
  destruct s as [? ? ? ? ? ? go pa st ? ? ? ? ? ? ? ?]; simpl.
  destruct st, go, pa; reflexivity.
Qed.

Lemma phase_paused_flags (s : Game) :
  phase s = Some Paused ->
  started s = true /\ paused s = true /\ gameOver s = false.
Proof.
  unfold phase. destruct (started s), (paused s), (gameOver s);
    intros; try discriminate; auto.
Qed.

Lemma startGame_started (t : Game) : started t = true -> startGame t = t.
Proof. intros H. unfold startGame. rewrite H. reflexivity. Qed.

Lemma shoot_paused (t : Game) :
  started t = true -> paused t = true -> shoot t = t.
Proof.
  intros H1 H2. unfold shoot. rewrite H1, H2, andb_false_r.
  apply startGame_started, H1.
Qed.

Lemma restart_running (t : Game) : gameOver t = false -> restart t = t.
Proof. intros H. unfold restart. rewrite H. reflexivity. Qed.

Lemma set_player_same (s : Game) :
  set_player (Point.mk (Point.x (player s)) (Point.y (player s))) s = s.
Proof. destruct s as [[px py] ? ? ? ? ? ? ? ? ? ? ? ? ? ? ? ?]. reflexivity. Qed.

Lemma moveLeft_column (s : Game) :
  exists x, moveLeft s = set_player (Point.mk x (Point.y (player s))) s.
Proof.
  unfold moveLeft. destruct (_ >? _); [eexists; reflexivity|].
  exists (Point.x (player s)). symmetry. apply set_player_same.
Qed.

Lemma moveRight_column (s : Game) :
  exists x, moveRight s = set_player (Point.mk x (Point.y (player s))) s.
Proof.
  unfold moveRight. destruct (_ <? _); [eexists; reflexivity|].
  exists (Point.x (player s)). symmetry. apply set_player_same.
Qed.

Lemma paused_gamepad (g : Gamepad) (s : Game) :
  phase s = Some Paused ->
  isConnected g && pressedStart g = false ->
  exists x m,
    handleGamepadInput g s =
    mkGame (Point.mk x (Point.y (player s))) (invaders s) (bullets s)
      (barriers s) (score s) (lives s) (gameOver s) (paused s) (started s)
      (level s) (highScore s) (invaderMoveTimer s) (invaderMoveInterval s)
      (invaderDirection s) (shootCooldown s) (enemyShootTimer s) m /\
    SynthManager.emitted m = SynthManager.emitted (synthManager s) /\
    (isConnected g = false \/
     (pushedLeft g = false /\ pushedRight g = false /\ pressedY g = false) ->
     x = Point.x (player s) /\ m = synthManager s).
Proof.
  intros Hp Hs. destruct (phase_paused_flags s Hp) as (St & Pa & Go).
  unfold handleGamepadInput. destruct (isConnected g) eqn:C; cbn [negb].
  2:{ exists (Point.x (player s)), (synthManager s).
      split; [|auto]. rewrite (game_eta s) at 1.
      destruct (player s); reflexivity. }
  cbn [andb] in Hs. rewrite Hs. cbv zeta.
  assert (E1 : exists x,
     (if pushedLeft g then startGame (moveLeft s)
      else if pushedRight g then startGame (moveRight s) else s)
     = set_player (Point.mk x (Point.y (player s))) s /\
     (pushedLeft g = false -> pushedRight g = false ->
      x = Point.x (player s))).
  { destruct (pushedLeft g); [|destruct (pushedRight g)].
    - destruct (moveLeft_column s) as [x ->].
      exists x. split; [apply startGame_started, St|discriminate].
    - destruct (moveRight_column s) as [x ->].
      exists x. split; [apply startGame_started, St|discriminate].
    - exists (Point.x (player s)).
      split; [symmetry; apply set_player_same|auto]. }
  destruct E1 as (x & -> & Q).
  set (t := set_player (Point.mk x (Point.y (player s))) s).
  assert (E2 : (if pressedA g then shoot t else t) = t)
    by (destruct (pressedA g); [apply shoot_paused; assumption|reflexivity]).
  rewrite E2.
  assert (E3 : (if pressedB g then restart t else t) = t)
    by (destruct (pressedB g); [apply restart_running; assumption|reflexivity]).
  rewrite E3. subst t.
  exists x,
    (if pressedY g then SynthManager.toggleMute (synthManager s)
     else synthManager s).
  split; [destruct (pressedY g); reflexivity|].
  split; [destruct (pressedY g); reflexivity|].
  intros [K|(K1 & K2 & K3)]; [discriminate|].
  rewrite K3. split; [apply Q; assumption|reflexivity].
Qed.

Lemma paused_keyboard (dx : Z) (s : Game) :
  phase s = Some Paused ->
  exists x,
    keyboardMovement dx s =
    set_player (Point.mk x (Point.y (player s))) s /\
    (dx = 0 -> x = Point.x (player s)).
Proof.
  unfold phase, keyboardMovement, startGame, moveLeft, moveRight.
  destruct s as [[px py] ? ? ? ? ? go pa st ? ? ? ? ? ? ? m]; simpl.
  destruct st, pa, go; try discriminate. intros _.
  destruct (dx =? 0) eqn:E; simpl.
  - exists px. auto.
  - apply Z.eqb_neq in E.
    repeat match goal with
           | |- context [if ?c then _ else _] => destruct c; simpl
           end;
      eexists; (split; [reflexivity|]); intros; contradiction.
Qed.

(** C2, as the code has it: a frame in the Paused phase that does not
    itself toggle pause skips the simulation: the three clocks, the
    invaders, bullets, barriers, score, lives, level, high score and the
    flags are unchanged and no cue is emitted. The ship is not frozen: its
    x coordinate (and the mute setting) still follows the frame's input;
    when the frame reads no movement and no mute request the whole state is
    unchanged. Toggling pause twice in a row gives back the very state. *)
Theorem paused_frame_skips_simulation (f : FrameInput) (s : Game) :
  phase s = Some Paused ->
  keepsPause f ->
  (exists x m,
     update f s =
     mkGame (Point.mk x (Point.y (player s))) (invaders s) (bullets s)
       (barriers s) (score s) (lives s) (gameOver s) (paused s) (started s)
       (level s) (highScore s) (invaderMoveTimer s) (invaderMoveInterval s)
       (invaderDirection s) (shootCooldown s) (enemyShootTimer s) m /\
     SynthManager.emitted m = SynthManager.emitted (synthManager s)) /\
  (quiet f -> update f s = s) /\
  togglePause (togglePause s) = s.
Proof.
  intros Hp Hk.
  destruct (paused_gamepad (gamepad f) s Hp Hk) as (x1 & m & E1 & Em & Q1).
  assert (Hp1 : phase (handleGamepadInput (gamepad f) s) = Some Paused)
    by (rewrite E1; exact Hp).
  destruct (paused_keyboard (directionX f) _ Hp1) as (x2 & E2 & Q2).
  assert (Hin : inactive (keyboardMovement (directionX f)
                            (handleGamepadInput (gamepad f) s)) = true).
  { rewrite E2, E1. unfold inactive. simpl.
    revert Hp. unfold phase.
    destruct (started s), (paused s), (gameOver s); simpl; congruence. }
  assert (E : update f s = keyboardMovement (directionX f)
                             (handleGamepadInput (gamepad f) s))
    by (unfold update; cbv zeta; rewrite Hin; reflexivity).
  split; [|split; [|apply togglePause_twice]].
  - exists x2, m. rewrite E, E2, E1. simpl. auto.
  - intros [Hd Hg]. rewrite E, E2, E1. simpl.
    destruct (Q1 Hg) as [-> ->]. rewrite E1 in Q2. simpl in Q2.
    rewrite (Q2 Hd). destruct s as [[px py] ? ? ? ? ? ? ? ? ? ? ? ? ? ? ? ?].
    reflexivity.
Qed.

Lemma paused_frame_skips_simulation_witness :
  phase pausedGame = Some Paused /\
  keepsPause (idleFrame 1000) /\ quiet (idleFrame 1000) /\
  update (idleFrame 1000) pausedGame = pausedGame.
Proof.
  assert (H1 : phase pausedGame = Some Paused) by reflexivity.
  assert (H2 : keepsPause (idleFrame 1000)) by reflexivity.
  assert (H3 : quiet (idleFrame 1000)) by (split; [reflexivity|left; reflexivity]).
  destruct (paused_frame_skips_simulation (idleFrame 1000) pausedGame H1 H2)
    as (_ & Q & _).
  auto.
Defined.

(** C2 as stated fails: in a paused game a frame with the right key held
    moves the player from x = 30 to x = 32. *)
Lemma paused_frame_moves_player :
  reachable pausedGame /\ phase pausedGame = Some Paused /\
  player pausedGame = Point.mk 30 37 /\
  player (update (moveFrame 16 1) pausedGame) = Point.mk 32 37 /\
  update (moveFrame 16 1) pausedGame <> pausedGame.
Proof.
  split; [apply (reachable_run [KeySpace; KeyP])|].
  split; [reflexivity|]. split; [reflexivity|]. split; [reflexivity|].
  intros E. apply (f_equal (fun t => Point.x (player t))) in E.
  vm_compute in E. discriminate.
Qed.

(** ** Score and high score *)

Lemma wellTyped_freshWave : wellTyped freshWave.
Proof.
  unfold wellTyped. apply List.Forall_forall. intros t Hin.
  assert (F : forallb (fun t => (0 <=? t) && (t <=? 2))
                (map Invader.type freshWave) = true) by reflexivity.
  rewrite forallb_forall in F. specialize (F t Hin).
  apply andb_true_iff in F as [F1 F2].
  apply Z.leb_le in F1, F2. lia.
Qed.

Lemma destroyFirst_types (b : Bullet.t) (invs invs' : list Invader.t)
      (victim : Invader.t) :
  destroyFirst b invs = Some (invs', victim) ->
  map Invader.type invs' = map Invader.type invs /\
  In (Invader.type victim) (map Invader.type invs).
Proof.
  revert invs'. induction invs as [|inv rest IH]; intros invs'; simpl;
    [discriminate|].
  destruct (hitsInvader b inv).
  - intros [= <- <-]. simpl. auto.
  - destruct (destroyFirst b rest) as [[rest' v]|]; [|discriminate].
    intros [= <- <-]. destruct (IH rest' eq_refl) as [E Hin].
    simpl. rewrite E. auto.
Qed.

Lemma invaderCollisions_score (n : nat) (s : Game) :
  wellTyped (invaders s) ->
  score s <= score (invaderCollisions n s) /\
  map Invader.type (invaders (invaderCollisions n s))
  = map Invader.type (invaders s).
Proof.
  revert s. induction n as [|i IH]; intros s W; simpl; [split; [lia|auto]|].
  destruct (bullets s !! i) as [b|]; [|apply IH, W].
  destruct (negb (Bullet.isPlayerBullet b)); [apply IH, W|].
  destruct (destroyFirst b (invaders s)) as [[invs' v]|] eqn:D; [|apply IH, W].
  destruct (destroyFirst_types _ _ _ _ D) as [E Hin].
  match goal with |- context [invaderCollisions i ?t] =>
    destruct (IH t) as [H1 H2] end.
  { simpl. unfold wellTyped. rewrite E. exact W. }
  simpl in H1, H2. rewrite H2, E. split; [|reflexivity].
  unfold wellTyped in W. rewrite List.Forall_forall in W.
  specialize (W _ Hin). lia.
Qed.

Lemma updateBullets_score (s : Game) :
  wellTyped (invaders s) ->
  score s <= score (updateBullets s) /\
  map Invader.type (invaders (updateBullets s))
  = map Invader.type (invaders s).
Proof.
  intros W. unfold updateBullets, resolveCollisions.
  destruct (invaderCollisions_score
              (length (bullets (advanceBullets s))) (advanceBullets s) W)
    as [H1 H2].
  match goal with |- context [barrierCollisions ?n ?t] =>
    destruct (barrierCollisions_shape n t) as (b1 & b2 & b3 & ->) end.
  match goal with |- context [playerCollisions ?n ?t] =>
    destruct (playerCollisions_shape n t) as (c1 & c2 & c3 & c4 & ->) end.
  simpl in *. auto.
Qed.

Lemma moveInvaders_types (dt : Z) (s : Game) :
  map Invader.type (invaders (moveInvaders dt s))
  = map Invader.type (invaders s).
Proof.
  unfold moveInvaders. simpl.
  destruct (invaderMoveTimer s + dt >=? invaderMoveInterval s);
    [|reflexivity].
  match goal with |- context [fold_left _ ?l ?t] =>
    destruct (reachedPlayer_fold_shape l t) as (a1 & a2 & a3 & ->) end.
  simpl.
  assert (D : forall l, map Invader.type (map dropInvader l)
                        = map Invader.type l).
  { induction l as [|a l IH]; simpl; [reflexivity|]. rewrite IH.
    unfold dropInvader. destruct (Invader.alive a); reflexivity. }
  assert (S : forall d l, map Invader.type (map (slideInvader d) l)
                          = map Invader.type l).
  { intros d. induction l as [|a l IH]; simpl; [reflexivity|]. rewrite IH.
    unfold slideInvader. destruct (Invader.alive a); reflexivity. }
  destruct (existsb _ _); destruct (aliveInvaders _); simpl; auto.
Qed.

Lemma beforeLevelCheck_score (dt : Z) (r : Q) (s : Game) :
  wellTyped (invaders s) ->
  score s <= score (beforeLevelCheck dt r s) /\
  wellTyped (invaders (beforeLevelCheck dt r s)).
Proof.
  intros W. unfold beforeLevelCheck.
  pose proof (moveInvaders_types dt (coolDown dt s)) as T.
  destruct (moveInvaders_shape dt (coolDown dt s))
    as (a1 & a2 & a3 & a4 & a5 & a6 & E).
  rewrite E in T |- *. simpl in T.
  match goal with |- context [enemyFire dt r ?t] =>
    destruct (enemyFire_shape dt r t) as (b1 & b2 & b3 & ->) end.
  simpl.
  assert (C : invaders (coolDown dt s) = invaders s /\
              score (coolDown dt s) = score s)
    by (unfold coolDown; destruct (_ >? _); auto).
  destruct C as [C1 C2]. rewrite C1 in T. rewrite C2.
  match goal with |- context [updateBullets ?t] =>
    destruct (updateBullets_score t) as [H1 H2] end.
  { simpl. unfold wellTyped. rewrite T. exact W. }
  simpl in H1, H2. split; [exact H1|].
  unfold wellTyped. rewrite H2, T. exact W.
Qed.

Lemma levelCheck_tally (t : Game) :
  score (updateHighScore (checkLevelComplete t)) = score t /\
  highScore (updateHighScore (checkLevelComplete t))
  = Z.max (highScore t) (score t) /\
  (invaders (updateHighScore (checkLevelComplete t)) = freshWave \/
   invaders (updateHighScore (checkLevelComplete t)) = invaders t).
Proof.
  rewrite updateHighScore_max. unfold checkLevelComplete.
  destruct (aliveInvaders t); auto.
Qed.

Lemma beforeLevelCheck_highScore (dt : Z) (r : Q) (s : Game) :
  highScore (beforeLevelCheck dt r s) = highScore s.
Proof.
  destruct (beforeLevelCheck_shape dt r s)
    as (? & ? & ? & ? & ? & ? & ? & ? & ? & ? & ->).
  reflexivity.
Qed.

Lemma simulate_tally (dt : Z) (r : Q) (s : Game) :
  tallyOK s ->
  tallyOK (simulate dt r s) /\
  score s <= score (simulate dt r s) /\
  highScore (simulate dt r s) = Z.max (highScore s) (score (simulate dt r s)).
Proof.
  intros [Hs W].
  destruct (beforeLevelCheck_score dt r s W) as [H1 H2].
  pose proof (beforeLevelCheck_highScore dt r s) as Hh.
  unfold simulate, tallyOK.
  destruct (levelCheck_tally (beforeLevelCheck dt r s)) as (E1 & E2 & E3).
  rewrite E1, E2, Hh.
  split; [split; [lia|]|split; [lia|reflexivity]].
  destruct E3 as [-> | ->]; [apply wellTyped_freshWave|exact H2].
Qed.

Section Handled.
Variable s0 : Game.

Lemma handled_startGame s : handled s0 s -> handled s0 (startGame s).
Proof. unfold startGame. destruct (_ && _); auto. Qed.

Lemma handled_moveLeft s : handled s0 s -> handled s0 (moveLeft s).
Proof. unfold moveLeft. destruct (_ >? _); auto. Qed.

Lemma handled_moveRight s : handled s0 s -> handled s0 (moveRight s).
Proof. unfold moveRight. destruct (_ <? _); auto. Qed.

Lemma handled_shootBullet s : handled s0 s -> handled s0 (shootBullet s).
Proof. unfold shootBullet. destruct (_ <=? _); auto. Qed.

Lemma handled_togglePause s : handled s0 s -> handled s0 (togglePause s).
Proof. unfold togglePause. destruct (_ && _); auto. Qed.

Lemma handled_toggleMute s : handled s0 s -> handled s0 (toggleMute s).
Proof. auto. Qed.

Lemma handled_initGame s :
  handled s0 s -> gameOver s = true -> handled s0 (initGame s).
Proof.
  intros ((Hs & W) & Hh & Hg) Go. unfold handled, tallyOK. simpl.
  split; [split; [lia|apply wellTyped_freshWave]|].
  split; [exact Hh|]. intros K. destruct (Hg K) as [_ K']. congruence.
Qed.
End Handled.

Lemma handled_refl (s : Game) : tallyOK s -> handled s s.
Proof. intros H. split; [exact H|]. auto. Qed.

Lemma step_tally (s : Game) (e : Event) :
  tallyOK s ->
  tallyOK (step s e) /\
  highScore (step s e) = Z.max (highScore s) (score (step s e)) /\
  (gameOver s = false -> score s <= score (step s e)).
Proof.
  intros T.
  assert (K : forall t, handled s t ->
     tallyOK t /\ highScore t = Z.max (highScore s) (score t) /\
     (gameOver s = false -> score s <= score t)).
  { intros t ((Hs & W) & Hh & Hg). split; [split; assumption|].
    split; [lia|]. intros G. destruct (Hg G) as [-> _]. lia. }
  pose proof (handled_refl s T) as R.
  destruct e as [| | | |f]; simpl.
  - apply K. apply shoot_preserves;
      auto using handled_startGame, handled_shootBullet.
  - apply K, handled_togglePause, R.
  - apply K. apply restart_preserves; auto using handled_initGame.
  - exact (K (toggleMute s) (handled_toggleMute s s R)).
  - unfold update. cbv zeta.
    assert (H : handled s (keyboardMovement (directionX f)
                             (handleGamepadInput (gamepad f) s))).
    { apply inputs_preserve;
        auto using handled_startGame, handled_moveLeft, handled_moveRight,
          handled_shootBullet, handled_togglePause, handled_initGame,
          handled_toggleMute. }
    destruct (inactive _); [apply K, H|].
    destruct H as (T2 & Hh & Hg).
    destruct (simulate_tally (deltaTime f) (random f) _ T2) as (T3 & Hm & Hx).
    split; [exact T3|]. rewrite Hx, Hh. split; [|intros G].
    + destruct T2 as [? _]. reflexivity.
    + destruct (Hg G) as [E _]. lia.
Qed.

Lemma tallyOK_newGame : tallyOK newGame.
Proof.
  split; [simpl; lia|apply wellTyped_freshWave].
Qed.

Lemma tallyOK_run (es : list Event) (s : Game) : tallyOK s -> tallyOK (run s es).
Proof.
  revert s. induction es as [|e es IH]; intros s T; simpl; [exact T|].
  apply IH, step_tally, T.
Qed.

Lemma score_le_maximum (s : Game) (es : list Event) :
  score s <= maximum (scoresSeen s es).
Proof. destruct es; unfold maximum; simpl; lia. Qed.

Lemma highScore_run (es : list Event) (s : Game) :
  tallyOK s ->
  highScore (run s es) = Z.max (highScore s) (maximum (scoresSeen s es)).
Proof.
  revert s. induction es as [|e es IH]; intros s T.
  - destruct T as [? _]. unfold maximum. simpl. lia.
  - destruct (step_tally s e T) as (T' & Hh & _).
    simpl. rewrite (IH _ T'), Hh.
    pose proof (score_le_maximum (step s e) es).
    destruct T as [? _].
    change (maximum (score s :: scoresSeen (step s e) es))
      with (Z.max (score s) (maximum (scoresSeen (step s e) es))).
    lia.
Qed.

(** C7: after every run of events from a new game the high score is the
    maximum of the scores of all the states the run went through; no event
    decreases it; a restart resets score, lives and level and keeps it; and
    no event decreases the score of a game that is not over (the score goes
    down only by the reset of a restart). *)
Theorem high_score_is_running_maximum (es : list Event) :
  highScore (run newGame es) = maximum (scoresSeen newGame es) /\
  (forall e, highScore (run newGame es) <= highScore (step (run newGame es) e)) /\
  (forall e, gameOver (run newGame es) = false ->
             score (run newGame es) <= score (step (run newGame es) e)) /\
  (highScore (initGame (run newGame es)) = highScore (run newGame es) /\
   score (initGame (run newGame es)) = 0 /\
   lives (initGame (run newGame es)) = 3 /\
   level (initGame (run newGame es)) = 1).
Proof.
  pose proof (tallyOK_run es newGame tallyOK_newGame) as T.
  split.
  { rewrite (highScore_run es newGame tallyOK_newGame).
    pose proof (score_le_maximum newGame es). simpl in *. lia. }
  split; [|split].
  - intros e. destruct (step_tally _ e T) as (_ & -> & _). lia.
  - intros e G. destruct (step_tally _ e T) as (_ & _ & K). auto.
  - repeat split.
Qed.

Lemma high_score_is_running_maximum_witness :
  gameOver (run newGame firstFrame) = false /\
  highScore (run newGame firstFrame) = maximum (scoresSeen newGame firstFrame) /\
  score (run newGame firstFrame)
  <= score (step (run newGame firstFrame) (Frame (idleFrame 16))).
Proof.
  destruct (high_score_is_running_maximum firstFrame) as (H1 & _ & H3 & _).
  split; [reflexivity|]. split; [exact H1|].
  apply (H3 (Frame (idleFrame 16))). reflexivity.
Defined.

(** ** Collisions consume their bullet *)

Lemma destroyFirst_alive (b : Bullet.t) (invs invs' : list Invader.t)
      (victim : Invader.t) :
  destroyFirst b invs = Some (invs', victim) ->
  length (List.filter Invader.alive invs)
  = S (length (List.filter Invader.alive invs')).
Proof.
  revert invs'. induction invs as [|inv rest IH]; intros invs'; simpl;
    [discriminate|].
  destruct (hitsInvader b inv) eqn:Hit.
  - intros [= <- <-]. unfold hitsInvader in Hit.
    destruct (Invader.alive inv); [reflexivity|discriminate].
  - destruct (destroyFirst b rest) as [[rest' v]|]; [|discriminate].
    intros [= <- <-]. simpl. specialize (IH rest' eq_refl).
    destruct (Invader.alive inv); simpl; lia.
Qed.

Lemma bulletCount_delete (i : nat) (b : Bullet.t) (s : Game) :
  bullets s !! i = Some b ->
  Z.of_nat (length (delete i (bullets s))) = bulletCount s - 1.
Proof.
  intros H. unfold bulletCount.
  rewrite length_delete by (eexists; exact H).
  apply lookup_lt_Some in H. lia.
Qed.

Lemma invaderCollisions_count (n : nat) (s : Game) :
  aliveCount s - aliveCount (invaderCollisions n s)
  = bulletCount s - bulletCount (invaderCollisions n s) /\
  sublist (bullets (invaderCollisions n s)) (bullets s).
Proof.
  revert s. induction n as [|i IH]; intros s; simpl;
    [split; [lia|reflexivity]|].
  destruct (bullets s !! i) as [b|] eqn:L; [|apply IH].
  destruct (negb (Bullet.isPlayerBullet b)); [apply IH|].
  destruct (destroyFirst b (invaders s)) as [[invs' v]|] eqn:D; [|apply IH].
  match goal with |- context [invaderCollisions i ?t] =>
    destruct (IH t) as [H1 H2] end.
  pose proof (destroyFirst_alive _ _ _ _ D) as A.
  pose proof (bulletCount_delete i b s L) as B.
  unfold aliveCount, aliveInvaders, bulletCount in *. simpl in H1, H2.
  split; [lia|].
  etransitivity; [exact H2|apply sublist_delete].
Qed.

Lemma totalHealth_delete (j : nat) (bar : Barrier.t) (bars : list Barrier.t) :
  bars !! j = Some bar ->
  totalHealth (delete j bars) = totalHealth bars - Barrier.health bar.
Proof.
  revert j. induction bars as [|a bars IH]; intros [|j] H;
    try discriminate; unfold totalHealth in *; simpl in *.
  - injection H as ->. lia.
  - rewrite (IH j H). lia.
Qed.

Lemma totalHealth_insert (j : nat) (bar bar' : Barrier.t)
      (bars : list Barrier.t) :
  bars !! j = Some bar ->
  totalHealth (<[j := bar']> bars)
  = totalHealth bars - Barrier.health bar + Barrier.health bar'.
Proof.
  revert j. induction bars as [|a bars IH]; intros [|j] H;
    try discriminate; unfold totalHealth in *; simpl in *.
  - injection H as ->. lia.
  - rewrite (IH j H). lia.
Qed.

Lemma damageBarrier_health (j : nat) (bar : Barrier.t) (bars : list Barrier.t) :
  bars !! j = Some bar -> healthy bars ->
  healthy (damageBarrier j bar bars) /\
  totalHealth (damageBarrier j bar bars) = totalHealth bars - 1.
Proof.
  intros L H. unfold damageBarrier.
  assert (P : 1 <= Barrier.health bar)
    by exact (Forall_lookup_1 _ _ _ _ H L).
  destruct (Barrier.health bar - 1 <=? 0) eqn:E.
  - apply Z.leb_le in E. split; [apply Forall_delete, H|].
    rewrite (totalHealth_delete j bar bars L). lia.
  - apply Z.leb_gt in E. split; [apply Forall_insert; [exact H|simpl; lia]|].
    rewrite (totalHealth_insert j bar _ bars L). simpl. lia.
Qed.

Lemma damageLast_health (b : Bullet.t) (m : nat) (bars bars' : list Barrier.t) :
  damageLast b m bars = Some bars' -> healthy bars ->
  healthy bars' /\ totalHealth bars' = totalHealth bars - 1.
Proof.
  induction m as [|j IH]; simpl; [discriminate|].
  destruct (bars !! j) as [bar|] eqn:L; [|exact IH].
  destruct (hitsBarrier b bar); [|exact IH].
  intros [= <-]. apply damageBarrier_health, L.
Qed.

Lemma barrierCollisions_count (n : nat) (s : Game) :
  healthy (barriers s) ->
  totalHealth (barriers s) - totalHealth (barriers (barrierCollisions n s))
  = bulletCount s - bulletCount (barrierCollisions n s) /\
  sublist (bullets (barrierCollisions n s)) (bullets s) /\
  healthy (barriers (barrierCollisions n s)).
Proof.
  revert s. induction n as [|i IH]; intros s H; simpl;
    [split; [lia|split; [reflexivity|exact H]]|].
  destruct (bullets s !! i) as [b|] eqn:L; [|apply IH, H].
  destruct (damageLast b (length (barriers s)) (barriers s)) as [bars'|] eqn:D;
    [|apply IH, H].
  destruct (damageLast_health _ _ _ _ D H) as [H' T].
  match goal with |- context [barrierCollisions i ?t] =>
    destruct (IH t H') as (H1 & H2 & H3) end.
  pose proof (bulletCount_delete i b s L) as B.
  unfold bulletCount in *. simpl in H1, H2.
  split; [lia|]. split; [|exact H3].
  etransitivity; [exact H2|apply sublist_delete].
Qed.

Lemma playerCollisions_count (n : nat) (s : Game) :
  lives s - lives (playerCollisions n s)
  = bulletCount s - bulletCount (playerCollisions n s) /\
  sublist (bullets (playerCollisions n s)) (bullets s).
Proof.
  revert s. induction n as [|i IH]; intros s; simpl;
    [split; [lia|reflexivity]|].
  destruct (bullets s !! i) as [b|] eqn:L; [|apply IH].
  destruct (hitsPlayer b (player s)); [|apply IH].
  destruct (IH (playerStruck i s)) as [H1 H2].
  pose proof (bulletCount_delete i b s L) as B.
  assert (E : lives (playerStruck i s) = lives s - 1 /\
              bullets (playerStruck i s) = delete i (bullets s)).
  { unfold playerStruck. simpl. destruct (lives s - 1 <=? 0); auto. }
  destruct E as [E1 E2].
  unfold bulletCount in *. rewrite E1, E2 in *.
  split; [lia|].
  etransitivity; [exact H2|apply sublist_delete].
Qed.

(** The index loops are the rules taken bullet by bullet. *)

Lemma sweep_snoc (strike : Bullet.t -> Game -> option Game)
      (l : list Bullet.t) (b : Bullet.t) (s : Game) :
  sweep strike (l ++ [b]) s =
  match strike b s with
  | Some s' => sweep strike l s'
  | None => (fst (sweep strike l s) ++ [b], snd (sweep strike l s))
  end.
Proof.
  induction l as [|a l IH]; cbn [app sweep].
  - destruct (strike b s); reflexivity.
  - rewrite IH. destruct (strike b s) as [s'|]; [reflexivity|].
    cbn [fst snd]. destruct (sweep strike l s) as [k w]. cbn [fst snd].
    destruct (strike a w); reflexivity.
Qed.

Lemma sweep_sublist (strike : Bullet.t -> Game -> option Game)
      (bs : list Bullet.t) (s : Game) :
  sublist (fst (sweep strike bs s)) bs.
Proof.
  induction bs as [|b bs IH]; cbn [sweep]; [constructor|].
  destruct (sweep strike bs s) as [k w]. cbn [fst] in IH.
  destruct (strike b w); cbn [fst]; [apply sublist_cons|apply sublist_skip];
    exact IH.
Qed.

Lemma set_bullets_twice (l l' : list Bullet.t) (s : Game) :
  set_bullets l (set_bullets l' s) = set_bullets l s.
Proof. reflexivity. Qed.

Lemma set_bullets_same (s : Game) : set_bullets (bullets s) s = s.
Proof. destruct s; reflexivity. Qed.

Lemma delete_split (pre post : list Bullet.t) (b : Bullet.t) :
  delete (length pre) (pre ++ b :: post) = pre ++ post.
Proof.
  induction pre as [|a pre IH]; simpl; [reflexivity|]. f_equal. exact IH.
Qed.

Lemma lookup_split (pre post : list Bullet.t) (b : Bullet.t) :
  (pre ++ b :: post) !! length pre = Some b.
Proof. induction pre as [|a pre IH]; simpl; [reflexivity|exact IH]. Qed.

Lemma invaderCollisions_sweep (pre post : list Bullet.t) (s : Game) :
  invaderCollisions (length pre) (set_bullets (pre ++ post) s)
  = set_bullets (fst (sweep invaderStrike pre s) ++ post)
      (snd (sweep invaderStrike pre s)).
Proof.
  revert post s. induction pre as [|b pre IH] using rev_ind; intros post s.
  { reflexivity. }
  rewrite sweep_snoc, length_app, Nat.add_1_r, <- app_assoc.
  cbn [app invaderCollisions bullets set_bullets].
  rewrite lookup_split. unfold invaderStrike.
  destruct (Bullet.isPlayerBullet b); cbn [negb fst snd];
    [|rewrite IH, <- app_assoc; reflexivity].
  cbn [invaders set_bullets].
  destruct (destroyFirst b (invaders s)) as [[invs' v]|]; cbn [fst snd];
    [|rewrite IH, <- app_assoc; reflexivity].
  rewrite delete_split.
  match goal with |- invaderCollisions _ ?t = _ =>
    replace t with
      (set_bullets (pre ++ post)
         (play Sound.explosion
            (set_score (score s + (Invader.type v + 1) * 10)
               (set_invaders invs' s)))) by reflexivity end.
  apply IH.
Qed.

Lemma barrierCollisions_sweep (pre post : list Bullet.t) (s : Game) :
  barrierCollisions (length pre) (set_bullets (pre ++ post) s)
  = set_bullets (fst (sweep barrierStrike pre s) ++ post)
      (snd (sweep barrierStrike pre s)).
Proof.
  revert post s. induction pre as [|b pre IH] using rev_ind; intros post s.
  { reflexivity. }
  rewrite sweep_snoc, length_app, Nat.add_1_r, <- app_assoc.
  cbn [app barrierCollisions bullets set_bullets].
  rewrite lookup_split. unfold barrierStrike.
  cbn [barriers set_bullets].
  destruct (damageLast b (length (barriers s)) (barriers s)) as [bars'|];
    cbn [fst snd]; [|rewrite IH, <- app_assoc; reflexivity].
  rewrite delete_split.
  match goal with |- barrierCollisions _ ?t = _ =>
    replace t with
      (set_bullets (pre ++ post)
         (set_barriers bars' (play Sound.barrierHit s))) by reflexivity end.
  apply IH.
Qed.

Lemma playerStrike_bullets (b : Bullet.t) (l : list Bullet.t) (s : Game) :
  playerStrike b (set_bullets l s)
  = option_map (set_bullets l) (playerStrike b s).
Proof.
  unfold playerStrike. cbn [player set_bullets].
  destruct (hitsPlayer b (player s)); [|reflexivity].
  cbn. destruct (lives s - 1 <=? 0); reflexivity.
Qed.

Lemma playerStruck_strike (i : nat) (b : Bullet.t) (s w : Game) :
  playerStrike b s = Some w ->
  playerStruck i s = set_bullets (delete i (bullets s)) w.
Proof.
  unfold playerStrike, playerStruck.
  destruct (hitsPlayer b (player s)); [|discriminate].
  intros [= <-]. cbn. destruct (lives s - 1 <=? 0); reflexivity.
Qed.

Lemma playerStrike_hits (b : Bullet.t) (s : Game) :
  hitsPlayer b (player s)
  = match playerStrike b s with Some _ => true | None => false end.
Proof. unfold playerStrike. destruct (hitsPlayer b (player s)); reflexivity. Qed.

Lemma playerCollisions_sweep (pre post : list Bullet.t) (s : Game) :
  playerCollisions (length pre) (set_bullets (pre ++ post) s)
  = set_bullets (fst (sweep playerStrike pre s) ++ post)
      (snd (sweep playerStrike pre s)).
Proof.
  revert post s. induction pre as [|b pre IH] using rev_ind; intros post s.
  { reflexivity. }
  rewrite sweep_snoc, length_app, Nat.add_1_r, <- app_assoc.
  cbn [app playerCollisions bullets set_bullets].
  rewrite lookup_split.
  change (player (set_bullets (pre ++ b :: post) s)) with (player s).
  rewrite playerStrike_hits.
  destruct (playerStrike b s) as [w|] eqn:E; cbn [fst snd];
    [|rewrite IH, <- app_assoc; reflexivity].
  assert (E' : playerStrike b (set_bullets (pre ++ b :: post) s)
               = Some (set_bullets (pre ++ b :: post) w))
    by (rewrite playerStrike_bullets, E; reflexivity).
  rewrite (playerStruck_strike _ _ _ _ E'), set_bullets_twice.
  change (bullets (set_bullets (pre ++ b :: post) s)) with (pre ++ b :: post).
  rewrite delete_split. apply IH.
Qed.

Lemma rules_sweep (s0 : Game) :
  let r1 := sweep invaderStrike (bullets s0) s0 in
  let r2 := sweep barrierStrike (fst r1) (snd r1) in
  let r3 := sweep playerStrike (fst r2) (snd r2) in
  invaderCollisions (length (bullets s0)) s0
  = set_bullets (fst r1) (snd r1) /\
  barrierCollisions (length (fst r1)) (set_bullets (fst r1) (snd r1))
  = set_bullets (fst r2) (snd r2) /\
  playerCollisions (length (fst r2)) (set_bullets (fst r2) (snd r2))
  = set_bullets (fst r3) (snd r3).
Proof.
  intros r1 r2 r3. split; [|split].
  - rewrite <- (set_bullets_same s0) at 2.
    rewrite <- (app_nil_r (bullets s0)) at 2.
    rewrite invaderCollisions_sweep, app_nil_r. reflexivity.
  - rewrite <- (app_nil_r (fst r1)) at 2.
    rewrite barrierCollisions_sweep, app_nil_r. reflexivity.
  - rewrite <- (app_nil_r (fst r2)) at 2.
    rewrite playerCollisions_sweep, app_nil_r. reflexivity.
Qed.

Lemma updateBullets_sweep (s : Game) :
  let s0 := advanceBullets s in
  let r1 := sweep invaderStrike (bullets s0) s0 in
  let r2 := sweep barrierStrike (fst r1) (snd r1) in
  let r3 := sweep playerStrike (fst r2) (snd r2) in
  updateBullets s = set_bullets (fst r3) (snd r3).
Proof.
  intros s0 r1 r2 r3. unfold updateBullets, resolveCollisions. fold s0.
  destruct (rules_sweep s0) as (E1 & E2 & E3). fold r1 r2 r3 in E1, E2, E3.
  rewrite E1. cbn [bullets set_bullets].
  rewrite E2. cbn [bullets set_bullets]. exact E3.
Qed.

(** The victims of a strike. *)

Lemma destroyFirst_victim (b : Bullet.t) (invs invs' : list Invader.t)
      (victim : Invader.t) :
  destroyFirst b invs = Some (invs', victim) ->
  exists before after,
    invs = before ++ victim :: after /\
    invs' = before ++ shotDown victim :: after /\
    hitsInvader b victim = true /\
    Forall (fun inv => hitsInvader b inv = false) before.
Proof.
  revert invs'. induction invs as [|inv rest IH]; intros invs';
    cbn [destroyFirst]; [discriminate|].
  destruct (hitsInvader b inv) eqn:Hit.
  - intros [= <- <-]. exists [], rest. repeat split; auto.
  - destruct (destroyFirst b rest) as [[rest' v]|]; [|discriminate].
    intros [= <- <-].
    destruct (IH rest' eq_refl) as (before & after & -> & -> & H & F).
    exists (inv :: before), after. repeat split; auto.
Qed.

Lemma destroyFirst_none (b : Bullet.t) (invs : list Invader.t) :
  destroyFirst b invs = None <->
  Forall (fun inv => hitsInvader b inv = false) invs.
Proof.
  induction invs as [|inv rest IH]; cbn [destroyFirst].
  { split; [constructor|reflexivity]. }
  destruct (hitsInvader b inv) eqn:Hit.
  - split; [discriminate|]. intros H. apply Forall_cons in H as [K _].
    congruence.
  - destruct (destroyFirst b rest) as [[rest' v]|].
    + split; [discriminate|]. intros H. apply Forall_cons in H as [_ K].
      apply IH in K. discriminate.
    + split; [|reflexivity].
      intros _. constructor; [exact Hit|apply IH; reflexivity].
Qed.

Lemma damageLast_victim (b : Bullet.t) (m : nat) (bars bars' : list Barrier.t) :
  damageLast b m bars = Some bars' ->
  exists j bar,
    bars !! j = Some bar /\ hitsBarrier b bar = true /\
    (forall j' bar', (j < j' < m)%nat -> bars !! j' = Some bar' ->
                     hitsBarrier b bar' = false) /\
    bars' = damageBarrier j bar bars.
Proof.
  induction m as [|j IH]; cbn [damageLast]; [discriminate|].
  destruct (bars !! j) as [bar|] eqn:L.
  - destruct (hitsBarrier b bar) eqn:Hit.
    + intros [= <-]. exists j, bar. repeat split; auto.
      intros j' bar' Hj. lia.
    + intros D. destruct (IH D) as (k & bar0 & L0 & H0 & F & E).
      exists k, bar0. repeat split; auto.
      intros j' bar' Hj Lj.
      destruct (Nat.eq_dec j' j) as [->|N]; [congruence|].
      apply (F j' bar'); [lia|exact Lj].
  - intros D. destruct (IH D) as (k & bar0 & L0 & H0 & F & E).
    exists k, bar0. repeat split; auto.
    intros j' bar' Hj Lj.
    destruct (Nat.eq_dec j' j) as [->|N]; [congruence|].
    apply (F j' bar'); [lia|exact Lj].
Qed.

Lemma damageLast_none (b : Bullet.t) (m : nat) (bars : list Barrier.t) :
  damageLast b m bars = None <->
  (forall j bar, (j < m)%nat -> bars !! j = Some bar ->
                 hitsBarrier b bar = false).
Proof.
  induction m as [|j IH]; cbn [damageLast].
  { split; [intros _ j bar H; lia|reflexivity]. }
  destruct (bars !! j) as [bar|] eqn:L.
  - destruct (hitsBarrier b bar) eqn:Hit.
    + split; [discriminate|]. intros H.
      rewrite (H j bar) in Hit by (auto; lia). discriminate.
    + rewrite IH. split; intros H k bar' Hk Lk.
      * destruct (Nat.eq_dec k j) as [->|N]; [congruence|].
        apply (H k bar'); [lia|exact Lk].
      * apply (H k bar'); [lia|exact Lk].
  - rewrite IH. split; intros H k bar' Hk Lk.
    + destruct (Nat.eq_dec k j) as [->|N]; [congruence|].
      apply (H k bar'); [lia|exact Lk].
    + apply (H k bar'); [lia|exact Lk].
Qed.

(** C5: every bullet resolves at most one destroying interaction in a
    frame. [updateBullets] is the three rules taken bullet by bullet
    ([sweep]): with [s0] the state after the bullets advanced and the
    off-screen ones were pruned, every bullet of [s0] is offered to the
    invader rule once; the bullets that rule keeps ([kept1]), and only
    those, are offered to the barrier rule once; the bullets that rule
    keeps ([kept2]) to the player rule once; and the bullets the player
    rule keeps ([kept3]) are the bullets after the frame. So a bullet that
    strikes is consumed on the spot and meets no later test of the frame.
    A strike has exactly one victim: under the invader rule the first
    alive invader the (player's) bullet overlaps is shot down and scored;
    under the barrier rule the last segment in the array on the bullet's
    cell takes one point of damage; under the player rule the ship loses
    one life; and no strike touches the victims of the other two kinds. A
    bullet goes unconsumed by a rule only if it hits nothing under it. In
    every rule the victims are as many as the bullets it consumes, and so
    they are over the frame. *)
Theorem one_hit_per_bullet (s : Game) :
  healthy (barriers s) ->
  let s0 := advanceBullets s in
  (exists kept1 w1 kept2 w2 kept3 w3,
     sweep invaderStrike (bullets s0) s0 = (kept1, w1) /\
     sweep barrierStrike kept1 w1 = (kept2, w2) /\
     sweep playerStrike kept2 w2 = (kept3, w3) /\
     updateBullets s = set_bullets kept3 w3 /\
     (sublist kept1 (bullets s0) /\ sublist kept2 kept1 /\
      sublist kept3 kept2) /\
     aliveCount s0 - aliveCount w1
     = Z.of_nat (length (bullets s0)) - Z.of_nat (length kept1) /\
     totalHealth (barriers w1) - totalHealth (barriers w2)
     = Z.of_nat (length kept1) - Z.of_nat (length kept2) /\
     lives w2 - lives w3
     = Z.of_nat (length kept2) - Z.of_nat (length kept3)) /\
  (forall b w,
     match invaderStrike b w with
     | Some w' =>
         Bullet.isPlayerBullet b = true /\
         (exists before victim after,
            invaders w = before ++ victim :: after /\
            Forall (fun inv => hitsInvader b inv = false) before /\
            hitsInvader b victim = true /\
            invaders w' = before ++ shotDown victim :: after /\
            score w' = score w + (Invader.type victim + 1) * 10) /\
         barriers w' = barriers w /\ lives w' = lives w
     | None =>
         Bullet.isPlayerBullet b = false \/
         Forall (fun inv => hitsInvader b inv = false) (invaders w)
     end) /\
  (forall b w,
     match barrierStrike b w with
     | Some w' =>
         (exists j bar,
            barriers w !! j = Some bar /\ hitsBarrier b bar = true /\
            (forall j' bar', (j < j')%nat -> barriers w !! j' = Some bar' ->
                             hitsBarrier b bar' = false) /\
            barriers w' = damageBarrier j bar (barriers w) /\
            (healthy (barriers w) ->
             totalHealth (barriers w') = totalHealth (barriers w) - 1)) /\
         invaders w' = invaders w /\ score w' = score w /\
         lives w' = lives w
     | None => Forall (fun bar => hitsBarrier b bar = false) (barriers w)
     end) /\
  (forall b w,
     match playerStrike b w with
     | Some w' =>
         hitsPlayer b (player w) = true /\ lives w' = lives w - 1 /\
         invaders w' = invaders w /\ score w' = score w /\
         barriers w' = barriers w
     | None => hitsPlayer b (player w) = false
     end) /\
  (aliveCount s - aliveCount (updateBullets s))
  + (totalHealth (barriers s) - totalHealth (barriers (updateBullets s)))
  + (lives s - lives (updateBullets s))
  = bulletCount s0 - bulletCount (updateBullets s).
Proof.
  intros H s0. split; [|split; [|split; [|split]]].
  - pose proof (updateBullets_sweep s) as E. cbv zeta in E. fold s0 in E.
    destruct (rules_sweep s0) as (R1 & R2 & R3).
    pose proof (sweep_sublist invaderStrike (bullets s0) s0) as S1.
    destruct (sweep invaderStrike (bullets s0) s0) as [kept1 w1] eqn:E1.
    cbn [fst snd] in E, S1, R1, R2, R3.
    pose proof (sweep_sublist barrierStrike kept1 w1) as S2.
    destruct (sweep barrierStrike kept1 w1) as [kept2 w2] eqn:E2.
    cbn [fst snd] in E, S2, R2, R3.
    pose proof (sweep_sublist playerStrike kept2 w2) as S3.
    destruct (sweep playerStrike kept2 w2) as [kept3 w3] eqn:E3.
    cbn [fst snd] in E, S3, R3.
    exists kept1, w1, kept2, w2, kept3, w3.
    do 5 (split; [auto|]).
    destruct (invaderCollisions_count (length (bullets s0)) s0) as [A _].
    rewrite R1 in A.
    assert (B0 : barriers w1 = barriers s0).
    { destruct (invaderCollisions_shape (length (bullets s0)) s0)
        as (? & ? & ? & ? & J). rewrite R1 in J.
      apply (f_equal barriers) in J. exact J. }
    assert (H1 : healthy (barriers (set_bullets kept1 w1)))
      by (cbn [barriers set_bullets]; rewrite B0; exact H).
    destruct (barrierCollisions_count (length kept1) _ H1) as (B & _ & _).
    rewrite R2 in B.
    destruct (playerCollisions_count (length kept2) (set_bullets kept2 w2))
      as [C _].
    rewrite R3 in C.
    split; [exact A|]. split; [exact B|exact C].
  - intros b w. unfold invaderStrike.
    destruct (Bullet.isPlayerBullet b); [|auto].
    destruct (destroyFirst b (invaders w)) as [[invs' v]|] eqn:D.
    + destruct (destroyFirst_victim _ _ _ _ D)
        as (before & after & E1 & E2 & H1 & H2).
      split; [reflexivity|]. split; [|split; reflexivity].
      exists before, v, after. auto.
    + right. apply destroyFirst_none, D.
  - intros b w. unfold barrierStrike.
    destruct (damageLast b (length (barriers w)) (barriers w)) as [bars'|] eqn:D.
    + destruct (damageLast_victim _ _ _ _ D) as (j & bar & L & Hit & F & ->).
      split; [|auto]. exists j, bar.
      split; [exact L|]. split; [exact Hit|]. split; [|split; [reflexivity|]].
      * intros j' bar' Hj Lj. apply (F j' bar'); [|exact Lj].
        apply lookup_lt_Some in Lj. lia.
      * intros Hw. cbn [barriers set_barriers].
        apply damageBarrier_health; assumption.
    + apply Forall_lookup_2. intros j bar L.
      apply (proj1 (damageLast_none _ _ _) D j bar); [|exact L].
      apply lookup_lt_Some in L. exact L.
  - intros b w. unfold playerStrike.
    destruct (hitsPlayer b (player w)); [|reflexivity].
    cbn. destruct (lives w - 1 <=? 0); auto.
  - destruct (invaderCollisions_count (length (bullets s0)) s0) as [A1 _].
    set (s1 := invaderCollisions (length (bullets s0)) s0) in *.
    assert (A3 : barriers s1 = barriers s0 /\ lives s1 = lives s0).
    { subst s1. destruct (invaderCollisions_shape (length (bullets s0)) s0)
        as (? & ? & ? & ? & ->). auto. }
    assert (H1 : healthy (barriers s1)) by (destruct A3 as [-> _]; exact H).
    destruct (barrierCollisions_count (length (bullets s1)) s1 H1)
      as (B1 & _ & _).
    set (s2 := barrierCollisions (length (bullets s1)) s1) in *.
    assert (B3 : invaders s2 = invaders s1 /\ lives s2 = lives s1).
    { subst s2. destruct (barrierCollisions_shape (length (bullets s1)) s1)
        as (? & ? & ? & ->). auto. }
    destruct (playerCollisions_count (length (bullets s2)) s2) as [C1 _].
    set (s3 := playerCollisions (length (bullets s2)) s2) in *.
    assert (C3 : invaders s3 = invaders s2 /\ barriers s3 = barriers s2).
    { subst s3. destruct (playerCollisions_shape (length (bullets s2)) s2)
        as (? & ? & ? & ? & ->). auto. }
    change (updateBullets s) with s3.
    destruct A3 as [A3 A4], B3 as [B3 B4], C3 as [C3 C4].
    assert (I0 : aliveCount s0 = aliveCount s /\ barriers s0 = barriers s
                 /\ lives s0 = lives s) by (subst s0; auto).
    destruct I0 as (I1 & I2 & I3).
    assert (I4 : aliveCount s3 = aliveCount s1)
      by (unfold aliveCount, aliveInvaders; rewrite C3, B3; reflexivity).
    rewrite I4, C4, <- I1, <- I2, <- I3.
    rewrite A3 in B1. lia.
Qed.

(** Three bullets, three victims of three kinds, three bullets gone. *)
Lemma one_hit_per_bullet_witness :
  healthy (barriers crossfire) /\
  bulletCount (advanceBullets crossfire) = 3 /\
  bulletCount (updateBullets crossfire) = 0 /\
  (aliveCount crossfire - aliveCount (updateBullets crossfire))
  + (totalHealth (barriers crossfire)
     - totalHealth (barriers (updateBullets crossfire)))
  + (lives crossfire - lives (updateBullets crossfire)) = 3.
Proof.
  assert (H : healthy (barriers crossfire)).
  { apply List.Forall_forall. intros bar Hin. vm_compute in Hin.
    repeat (destruct Hin as [<-|Hin]; [simpl; lia|]). destruct Hin. }
  destruct (one_hit_per_bullet crossfire H) as (_ & _ & _ & _ & K).
  split; [exact H|]. split; [reflexivity|]. split; [reflexivity|].
  rewrite K. reflexivity.
Defined.

(** ** Lives *)

Lemma reachedPlayer_fold_lives (l : list Invader.t) (s : Game) :
  lives (fold_left (fun acc inv => reachedPlayer inv acc) l s) = lives s \/
  lives (fold_left (fun acc inv => reachedPlayer inv acc) l s) = 0.
Proof.
  revert s. induction l as [|inv l IH]; intros s; simpl; [auto|].
  unfold reachedPlayer at 2 4.
  destruct (Invader.y inv >=? Point.y (player s) - 1); [|apply IH].
  match goal with |- context [fold_left _ l ?t] =>
    destruct (IH t) as [E|E]; rewrite E end; auto.
Qed.

Lemma moveInvaders_lives (dt : Z) (s : Game) :
  lives (moveInvaders dt s) = lives s \/ lives (moveInvaders dt s) = 0.
Proof.
  unfold moveInvaders. simpl.
  destruct (invaderMoveTimer s + dt >=? invaderMoveInterval s); [|auto].
  match goal with |- context [fold_left _ ?l ?t] =>
    assert (L : lives t = lives s)
      by (destruct (existsb _ _); destruct (aliveInvaders _); reflexivity);
    destruct (reachedPlayer_fold_lives l t) as [E|E]; rewrite E
  end; auto.
Qed.

Lemma updateBullets_lives (s : Game) : lives (updateBullets s) <= lives s.
Proof.
  unfold updateBullets, resolveCollisions.
  destruct (invaderCollisions_shape
              (length (bullets (advanceBullets s))) (advanceBullets s))
    as (a1 & a2 & a3 & a4 & ->).
  match goal with |- context [barrierCollisions ?n ?t] =>
    destruct (barrierCollisions_shape n t) as (b1 & b2 & b3 & ->) end.
  match goal with |- context [playerCollisions ?n ?t] =>
    destruct (playerCollisions_count n t) as [C1 C2] end.
  apply sublist_length in C2. unfold bulletCount in C1. simpl in *. lia.
Qed.

Lemma levelCheck_lives (t : Game) :
  lives (updateHighScore (checkLevelComplete t)) = lives t.
Proof.
  rewrite updateHighScore_max. unfold checkLevelComplete.
  destruct (aliveInvaders t); reflexivity.
Qed.

Lemma enemyFire_lives (dt : Z) (r : Q) (t : Game) :
  lives (enemyFire dt r t) = lives t.
Proof.
  destruct (enemyFire_shape dt r t) as (b1 & b2 & b3 & ->). reflexivity.
Qed.

Lemma simulate_lives (dt : Z) (r : Q) (s : Game) :
  lives s <= 3 -> lives (simulate dt r s) <= 3.
Proof.
  intros H. unfold simulate. rewrite levelCheck_lives.
  unfold beforeLevelCheck.
  pose proof (updateBullets_lives
                (enemyFire dt r (moveInvaders dt (coolDown dt s)))) as U.
  rewrite enemyFire_lives in U.
  assert (C : lives (coolDown dt s) = lives s)
    by (unfold coolDown; destruct (_ >? _); reflexivity).
  destruct (moveInvaders_lives dt (coolDown dt s)) as [M|M]; lia.
Qed.

(** The upper half of the range holds in every reachable state. *)
Lemma lives_at_most_three (s : Game) : reachable s -> lives s <= 3.
Proof.
  revert s. apply (reachable_preserves (fun s => lives s <= 3)).
  - intros s H. unfold startGame. destruct (_ && _); exact H.
  - intros s H. unfold moveLeft. destruct (_ >? _); exact H.
  - intros s H. unfold moveRight. destruct (_ <? _); exact H.
  - intros s H. unfold shootBullet. destruct (_ <=? _); exact H.
  - intros s H. unfold togglePause. destruct (_ && _); exact H.
  - intros s _ _. simpl. lia.
  - intros s H. exact H.
  - intros dt r s H _. apply simulate_lives, H.
  - simpl. lia.
Qed.

(** C4 fails on the code. The player rule of [updateBullets] goes on
    through the bullet list after the hit that ends the game, so every
    further enemy bullet on the ship takes another life: with one life left
    and two bullets arriving, lives end at -1; and from a new game the run
    [volley] brings four enemy bullets onto the ship in one frame and takes
    the lives from 3 to -1. *)
Theorem lives_become_negative :
  (lives lastLife = 1 /\ lives (updateBullets lastLife) = -1 /\
   gameOver (updateBullets lastLife) = true) /\
  (reachable (run newGame volley) /\
   lives (run newGame (removelast volley)) = 3 /\
   lives (run newGame volley) = -1 /\
   gameOver (run newGame volley) = true).
Proof.
  split.
  - split; [|split]; vm_compute; reflexivity.
  - split; [apply reachable_run|].
    split; [|split]; vm_compute; reflexivity.
Qed.


(** ** Barrier health *)

Lemma healthy_freshBarriers : healthy freshBarriers.
Proof.
  apply List.Forall_forall. intros bar Hin. vm_compute in Hin.
  repeat (destruct Hin as [<-|Hin]; [simpl; lia|]). destruct Hin.
Qed.

Lemma updateBullets_healthy (t : Game) :
  healthy (barriers t) -> healthy (barriers (updateBullets t)).
Proof.
  intros H. unfold updateBullets, resolveCollisions.
  set (s0 := advanceBullets t).
  set (s1 := invaderCollisions (length (bullets s0)) s0).
  set (s2 := barrierCollisions (length (bullets s1)) s1).
  assert (E1 : barriers s1 = barriers t).
  { subst s1. destruct (invaderCollisions_shape (length (bullets s0)) s0)
      as (? & ? & ? & ? & ->). reflexivity. }
  assert (H2 : healthy (barriers s2)).
  { subst s2. apply barrierCollisions_count. rewrite E1. exact H. }
  destruct (playerCollisions_shape (length (bullets s2)) s2)
    as (? & ? & ? & ? & ->).
  exact H2.
Qed.

Lemma levelCheck_barriers (t : Game) :
  barriers (updateHighScore (checkLevelComplete t)) = freshBarriers \/
  barriers (updateHighScore (checkLevelComplete t)) = barriers t.
Proof.
  rewrite updateHighScore_max. unfold checkLevelComplete.
  destruct (aliveInvaders t); auto.
Qed.

Lemma beforeBullets_barriers (dt : Z) (r : Q) (s : Game) :
  barriers (enemyFire dt r (moveInvaders dt (coolDown dt s))) = barriers s.
Proof.
  destruct (enemyFire_shape dt r (moveInvaders dt (coolDown dt s)))
    as (b1 & b2 & b3 & ->).
  cbn [barriers].
  destruct (moveInvaders_shape dt (coolDown dt s))
    as (m1 & m2 & m3 & m4 & m5 & m6 & ->).
  cbn [barriers]. unfold coolDown. destruct (_ >? _); reflexivity.
Qed.

Lemma simulate_healthy (dt : Z) (r : Q) (s : Game) :
  healthy (barriers s) -> healthy (barriers (simulate dt r s)).
Proof.
  intros H. unfold simulate.
  destruct (levelCheck_barriers (beforeLevelCheck dt r s)) as [-> | ->];
    [apply healthy_freshBarriers|].
  unfold beforeLevelCheck. apply updateBullets_healthy.
  rewrite beforeBullets_barriers. exact H.
Qed.

(** Every barrier segment of a reachable state has health 1, 2 or 3 left:
    a segment that loses its last point is removed. *)
Lemma healthy_reachable (s : Game) : reachable s -> healthy (barriers s).
Proof.
  revert s. apply (reachable_preserves (fun s => healthy (barriers s))).
  - intros s H. unfold startGame. destruct (_ && _); exact H.
  - intros s H. unfold moveLeft. destruct (_ >? _); exact H.
  - intros s H. unfold moveRight. destruct (_ <? _); exact H.
  - intros s H. unfold shootBullet. destruct (_ <=? _); exact H.
  - intros s H. unfold togglePause. destruct (_ && _); exact H.
  - intros s _ _. apply healthy_freshBarriers.
  - intros s H. exact H.
  - intros dt r s H _. apply simulate_healthy, H.
  - apply healthy_freshBarriers.
Qed.


(** ** Scenarios of the specification, run on the model *)

(** Scenario 1: a player bullet aligned with an invader kills it, scores
    (tier + 1) * 10 and is removed. *)
Example scenario_invader_hit :
  let s := set_bullets [Bullet.mk 30 6 true] playingGame in
  invaders s !! 5%nat = Some (Invader.mk 30 5 2 true) /\
  invaders (updateBullets s) !! 5%nat = Some (Invader.mk 30 5 2 false) /\
  score (updateBullets s) = score s + 30 /\ bullets (updateBullets s) = [].
Proof.
  cbv zeta. split; [|split; [|split]]; vm_compute; reflexivity.
Qed.

(** Scenario 3: one life left and one enemy bullet on the ship: lives 0,
    game over, and the frame keeps the high score. *)
Example scenario_last_life :
  let s := set_highScore 120 (set_bullets [Bullet.mk 30 36 false] lastLife) in
  lives (simulate 16 0%Q s) = 0 /\ phase (simulate 16 0%Q s) = Some GameOver /\
  highScore (simulate 16 0%Q s) = 120.
Proof.
  cbv zeta. split; [|split]; vm_compute; reflexivity.
Qed.

(** * Further properties of the simulation *)

(** ** Invariants of the simulation blocks

    A property kept by every input handler and by each of the six blocks
    of the gated part of [update] holds in every reachable state. *)

Section Blocks.
Variable P : Game -> Prop.

Hypothesis P_coolDown : forall dt s, P s -> P (coolDown dt s).
Hypothesis P_moveInvaders : forall dt s, P s -> P (moveInvaders dt s).
Hypothesis P_enemyFire : forall dt r s, P s -> P (enemyFire dt r s).
Hypothesis P_updateBullets : forall s, P s -> P (updateBullets s).
Hypothesis P_checkLevelComplete : forall s, P s -> P (checkLevelComplete s).
Hypothesis P_updateHighScore : forall s, P s -> P (updateHighScore s).

Lemma simulate_preserves dt r s : P s -> P (simulate dt r s).
Proof.
  intros H. unfold simulate, beforeLevelCheck.
  apply P_updateHighScore, P_checkLevelComplete, P_updateBullets,
    P_enemyFire, P_moveInvaders, P_coolDown, H.
Qed.

Hypothesis P_startGame : forall s, P s -> P (startGame s).
Hypothesis P_moveLeft : forall s, P s -> P (moveLeft s).
Hypothesis P_moveRight : forall s, P s -> P (moveRight s).
Hypothesis P_shootBullet : forall s, P s -> P (shootBullet s).
Hypothesis P_togglePause : forall s, P s -> P (togglePause s).
Hypothesis P_initGame : forall s, P s -> P (initGame s).
Hypothesis P_toggleMute : forall s, P s -> P (toggleMute s).

Lemma step_invariant s e : P s -> P (step s e).
Proof.
  apply step_preserves; auto using simulate_preserves.
Qed.

Lemma reachable_invariant : P newGame -> forall s, reachable s -> P s.
Proof.
  intros H0 s R. induction R; [assumption|]. apply step_invariant; assumption.
Qed.
End Blocks.

(** ** Formation parameters *)

Lemma moveInvaders_direction (dt : Z) (s : Game) :
  invaderDirection (moveInvaders dt s) = invaderDirection s \/
  invaderDirection (moveInvaders dt s) = invaderDirection s * -1.
Proof.
  destruct (Z_lt_ge_dec (invaderMoveTimer s + dt) (invaderMoveInterval s))
    as [Hlt|Hge].
  - left. unfold moveInvaders. cbn [invaderMoveTimer invaderMoveInterval
      set_invaderMoveTimer].
    replace (invaderMoveTimer s + dt >=? invaderMoveInterval s) with false
      by (symmetry; rewrite Z.geb_leb; apply Z.leb_gt; lia).
    reflexivity.
  - destruct (moveInvaders_triggered dt s Hge) as [_ K].
    destruct (existsb _ _); destruct K as [_ ->]; auto.
Qed.

Lemma moveInvaders_level (dt : Z) (s : Game) :
  level (moveInvaders dt s) = level s /\
  invaderMoveInterval (moveInvaders dt s) = invaderMoveInterval s.
Proof.
  destruct (moveInvaders_shape dt s) as (? & ? & ? & ? & ? & ? & ->).
  split; reflexivity.
Qed.

Lemma paramsOK_moveInvaders dt s : paramsOK s -> paramsOK (moveInvaders dt s).
Proof.
  unfold paramsOK. intros (H1 & H2 & H3).
  destruct (moveInvaders_level dt s) as [-> ->].
  destruct (moveInvaders_direction dt s) as [-> | ->]; repeat split; lia.
Qed.

Lemma paramsOK_enemyFire dt r s : paramsOK s -> paramsOK (enemyFire dt r s).
Proof.
  unfold paramsOK. destruct (enemyFire_shape dt r s) as (? & ? & ? & ->).
  auto.
Qed.

Lemma paramsOK_updateBullets s : paramsOK s -> paramsOK (updateBullets s).
Proof.
  unfold paramsOK.
  destruct (updateBullets_shape s) as (? & ? & ? & ? & ? & ? & ? & ->).
  auto.
Qed.

Lemma paramsOK_checkLevelComplete s :
  paramsOK s -> paramsOK (checkLevelComplete s).
Proof.
  intros (H1 & H2 & H3). destruct (aliveInvaders s) eqn:E.
  - rewrite (checkLevelComplete_cleared s E). unfold paramsOK. fields.
    repeat split; auto; lia.
  - rewrite checkLevelComplete_pending by (rewrite E; discriminate).
    repeat split; assumption.
Qed.

Lemma paramsOK_initGame s : paramsOK (initGame s).
Proof.
  unfold paramsOK, initGame. fields. repeat split; auto; lia.
Qed.

Lemma paramsOK_reachable (s : Game) : reachable s -> paramsOK s.
Proof.
  revert s. apply (reachable_invariant paramsOK);
    auto using paramsOK_moveInvaders, paramsOK_enemyFire,
      paramsOK_updateBullets, paramsOK_checkLevelComplete, paramsOK_initGame.
  - intros dt s H. unfold coolDown. destruct (_ >? _); exact H.
  - intros s H. rewrite updateHighScore_max. exact H.
  - intros s H. unfold startGame. destruct (_ && _); exact H.
  - intros s H. unfold moveLeft. destruct (_ >? _); exact H.
  - intros s H. unfold moveRight. destruct (_ <? _); exact H.
  - intros s H. unfold shootBullet. destruct (_ <=? _); exact H.
  - intros s H. unfold togglePause. destruct (_ && _); exact H.
  - apply paramsOK_initGame.
Qed.

(** X1: in every reachable state the level is at least 1, the formation
    step interval is max(300, 800 - 100 * level) for the current level, so
    between 300 and 700 ms, and the direction is +1 or -1. *)
Theorem formation_parameters_follow_level (s : Game) :
  reachable s ->
  1 <= level s /\
  invaderMoveInterval s = Z.max 300 (800 - level s * 100) /\
  300 <= invaderMoveInterval s <= 700 /\
  (5 <= level s -> invaderMoveInterval s = 300) /\
  (invaderDirection s = 1 \/ invaderDirection s = -1).
Proof.
  intros R. destruct (paramsOK_reachable s R) as (H1 & H2 & H3).
  repeat split; try assumption; lia.
Qed.

Lemma formation_parameters_follow_level_witness :
  reachable (run newGame firstFrame) /\
  300 <= invaderMoveInterval (run newGame firstFrame) <= 700 /\
  (invaderDirection (run newGame firstFrame) = 1 \/
   invaderDirection (run newGame firstFrame) = -1).
Proof.
  split; [apply reachable_run|].
  destruct (formation_parameters_follow_level (run newGame firstFrame)
              (reachable_run firstFrame)) as (_ & _ & H3 & _ & H5).
  split; assumption.
Defined.

(** ** The formation as a rigid body *)

Lemma moveInvaders_idle (dt : Z) (s : Game) :
  invaderMoveTimer s + dt < invaderMoveInterval s ->
  moveInvaders dt s = set_invaderMoveTimer (invaderMoveTimer s + dt) s.
Proof.
  intros H. unfold moveInvaders.
  cbn [invaderMoveTimer invaderMoveInterval set_invaderMoveTimer].
  replace (invaderMoveTimer s + dt >=? invaderMoveInterval s) with false
    by (symmetry; rewrite Z.geb_leb; apply Z.leb_gt; lia).
  reflexivity.
Qed.

(** The formation after [moveInvaders]: as it was, dropped, or slid. *)
Lemma moveInvaders_cases (dt : Z) (s : Game) :
  (invaders (moveInvaders dt s) = invaders s /\
   invaderDirection (moveInvaders dt s) = invaderDirection s) \/
  (existsb (atEdge (invaderDirection s)) (aliveInvaders s) = true /\
   invaders (moveInvaders dt s) = map dropInvader (invaders s) /\
   invaderDirection (moveInvaders dt s) = invaderDirection s * -1) \/
  (existsb (atEdge (invaderDirection s)) (aliveInvaders s) = false /\
   invaders (moveInvaders dt s)
   = map (slideInvader (invaderDirection s)) (invaders s) /\
   invaderDirection (moveInvaders dt s) = invaderDirection s).
Proof.
  destruct (Z_lt_ge_dec (invaderMoveTimer s + dt) (invaderMoveInterval s))
    as [Hlt|Hge].
  - left. rewrite (moveInvaders_idle dt s Hlt). split; reflexivity.
  - right. destruct (moveInvaders_triggered dt s Hge) as [_ K].
    destruct (existsb _ _); [left|right]; auto.
Qed.

Lemma inFormation_drop (dx dy : Z) (l f : list Invader.t) :
  Forall2 (inFormation dx dy) l f ->
  Forall2 (inFormation dx (dy + 2)) (map dropInvader l) f.
Proof.
  induction 1 as [|a b l f [Ht Hp] _ IH]; simpl; constructor; [|exact IH].
  unfold inFormation, dropInvader, invaderDropDistance.
  destruct (Invader.alive a) eqn:E; cbn [Invader.type Invader.alive
    Invader.x Invader.y]; rewrite ?E; split; try assumption;
    try discriminate.
  intros _. destruct (Hp eq_refl). lia.
Qed.

Lemma inFormation_slide (dir dx dy : Z) (l f : list Invader.t) :
  Forall2 (inFormation dx dy) l f ->
  Forall2 (inFormation (dx + dir) dy) (map (slideInvader dir) l) f.
Proof.
  induction 1 as [|a b l f [Ht Hp] _ IH]; simpl; constructor; [|exact IH].
  unfold inFormation, slideInvader.
  destruct (Invader.alive a) eqn:E; cbn [Invader.type Invader.alive
    Invader.x Invader.y]; rewrite ?E; split; try assumption;
    try discriminate.
  intros _. destruct (Hp eq_refl). lia.
Qed.

Lemma inColumns_drop (l : list Invader.t) :
  inColumns l -> inColumns (map dropInvader l).
Proof.
  unfold inColumns. induction 1 as [|a l H _ IH]; simpl; constructor;
    [|exact IH].
  unfold dropInvader. destruct (Invader.alive a) eqn:E; [exact H|].
  rewrite E. discriminate.
Qed.

Lemma no_edge (dir : Z) (l : list Invader.t) (a : Invader.t) :
  existsb (atEdge dir) (List.filter Invader.alive l) = false ->
  In a l -> Invader.alive a = true -> atEdge dir a = false.
Proof.
  intros H Hin Ha.
  destruct (atEdge dir a) eqn:E; [|reflexivity].
  assert (K : existsb (atEdge dir) (List.filter Invader.alive l) = true).
  { apply existsb_exists. exists a. split; [|exact E].
    apply List.filter_In. auto. }
  congruence.
Qed.

Lemma inColumns_slide (dir : Z) (l : list Invader.t) :
  dir = 1 \/ dir = -1 ->
  existsb (atEdge dir) (List.filter Invader.alive l) = false ->
  inColumns l -> inColumns (map (slideInvader dir) l).
Proof.
  intros Hd He Hc. unfold inColumns in *.
  rewrite List.Forall_forall in Hc. apply List.Forall_forall.
  intros b Hb. apply in_map_iff in Hb as (a & <- & Hin).
  unfold slideInvader. destruct (Invader.alive a) eqn:Ha;
    [|intros K; rewrite Ha in K; discriminate].
  intros _. cbn [Invader.x].
  pose proof (no_edge dir l a He Hin Ha) as Ne.
  specialize (Hc a Hin Ha). unfold atEdge, GRID_WIDTH in *.
  apply orb_false_iff in Ne as [N1 N2].
  destruct Hd as [-> | ->]; cbn [Z.eqb andb] in N1, N2.
  - rewrite Z.geb_leb in N1. apply Z.leb_gt in N1. lia.
  - apply Z.leb_gt in N2. lia.
Qed.

Lemma formationOK_moveInvaders dt s :
  formationOK s -> formationOK (moveInvaders dt s).
Proof.
  intros (Hd & (dx & dy & Hy & Hf) & Hc). unfold formationOK.
  destruct (moveInvaders_cases dt s)
    as [[-> ->] | [(He & -> & ->) | (He & -> & ->)]].
  - split; [exact Hd|]. split; [exists dx, dy; auto|exact Hc].
  - split; [lia|]. split; [|apply inColumns_drop, Hc].
    exists dx, (dy + 2). split; [lia|apply inFormation_drop, Hf].
  - split; [exact Hd|]. split; [|apply inColumns_slide; assumption].
    exists (dx + invaderDirection s), dy.
    split; [exact Hy|apply inFormation_slide, Hf].
Qed.

(** Collisions wear the formation down and do nothing else to it. *)

Lemma wornDown_refl (l : list Invader.t) : Forall2 wornDown l l.
Proof. induction l; constructor; unfold wornDown; auto. Qed.

Lemma wornDown_trans (l1 l2 l3 : list Invader.t) :
  Forall2 wornDown l1 l2 -> Forall2 wornDown l2 l3 -> Forall2 wornDown l1 l3.
Proof.
  intros H. revert l3. induction H as [|a b l1 l2 Hab _ IH]; intros l3 H3;
    inversion H3; subst; constructor; [|apply IH; assumption].
  unfold wornDown in *. intuition congruence.
Qed.

Lemma destroyFirst_wornDown (b : Bullet.t) (invs invs' : list Invader.t)
      (victim : Invader.t) :
  destroyFirst b invs = Some (invs', victim) -> Forall2 wornDown invs invs'.
Proof.
  revert invs'. induction invs as [|inv rest IH]; intros invs'; simpl;
    [discriminate|].
  destruct (hitsInvader b inv).
  - intros [= <- <-]. constructor; [|apply wornDown_refl].
    unfold wornDown. cbn. repeat split. discriminate.
  - destruct (destroyFirst b rest) as [[rest' v]|]; [|discriminate].
    intros [= <- <-]. constructor; [|apply IH; reflexivity].
    unfold wornDown. auto.
Qed.

Lemma invaderCollisions_wornDown (n : nat) (s : Game) :
  Forall2 wornDown (invaders s) (invaders (invaderCollisions n s)).
Proof.
  revert s. induction n as [|i IH]; intros s; simpl; [apply wornDown_refl|].
  destruct (bullets s !! i) as [b|]; [|apply IH].
  destruct (negb (Bullet.isPlayerBullet b)); [apply IH|].
  destruct (destroyFirst b (invaders s)) as [[invs' v]|] eqn:D; [|apply IH].
  eapply wornDown_trans; [apply (destroyFirst_wornDown _ _ _ _ D)|].
  match goal with |- context [invaderCollisions i ?t] =>
    exact (IH t) end.
Qed.

Lemma updateBullets_invaders (s : Game) :
  invaders (updateBullets s)
  = invaders (invaderCollisions (length (bullets (advanceBullets s)))
                (advanceBullets s)).
Proof.
  unfold updateBullets, resolveCollisions.
  set (s1 := invaderCollisions _ _).
  set (s2 := barrierCollisions _ _).
  destruct (playerCollisions_shape (length (bullets s2)) s2)
    as (? & ? & ? & ? & ->).
  cbn [invaders]. subst s2.
  destruct (barrierCollisions_shape (length (bullets s1)) s1)
    as (? & ? & ? & ->).
  reflexivity.
Qed.

Lemma updateBullets_wornDown (s : Game) :
  Forall2 wornDown (invaders s) (invaders (updateBullets s)).
Proof.
  rewrite updateBullets_invaders.
  exact (invaderCollisions_wornDown _ (advanceBullets s)).
Qed.

Lemma inFormation_wornDown (dx dy : Z) (l l' f : list Invader.t) :
  Forall2 wornDown l l' ->
  Forall2 (inFormation dx dy) l f -> Forall2 (inFormation dx dy) l' f.
Proof.
  intros H. revert f. induction H as [|a b l l' Hab _ IH]; intros f Hf;
    inversion Hf; subst; constructor; [|apply IH; assumption].
  unfold wornDown, inFormation in *.
  destruct Hab as (Hx & Hy & Ht & Ha).
  match goal with K : _ /\ _ |- _ => destruct K as [K1 K2] end.
  split; [congruence|]. intros Hb. rewrite Hx, Hy. auto.
Qed.

Lemma inColumns_wornDown (l l' : list Invader.t) :
  Forall2 wornDown l l' -> inColumns l -> inColumns l'.
Proof.
  unfold inColumns. induction 1 as [|a b l l' Hab _ IH]; intros Hc;
    [constructor|].
  apply Forall_cons in Hc as [Ha Hc]. constructor; [|apply IH, Hc].
  destruct Hab as (Hx & _ & _ & Hl). intros Hb. rewrite Hx. auto.
Qed.

Lemma formationOK_updateBullets s :
  formationOK s -> formationOK (updateBullets s).
Proof.
  intros (Hd & (dx & dy & Hy & Hf) & Hc). unfold formationOK.
  pose proof (updateBullets_wornDown s) as W.
  assert (D : invaderDirection (updateBullets s) = invaderDirection s).
  { destruct (updateBullets_shape s) as (? & ? & ? & ? & ? & ? & ? & ->).
    reflexivity. }
  rewrite D. split; [exact Hd|].
  split; [|exact (inColumns_wornDown _ _ W Hc)].
  exists dx, dy. split; [exact Hy|exact (inFormation_wornDown _ _ _ _ _ W Hf)].
Qed.

Lemma formationOK_fresh (s : Game) :
  invaders s = freshWave -> invaderDirection s = 1 -> formationOK s.
Proof.
  intros E D. unfold formationOK. rewrite E, D.
  split; [auto|]. split.
  - exists 0, 0. split; [lia|].
    assert (K : forall l, Forall2 (inFormation 0 0) l l).
    { induction l; constructor; [|assumption].
      unfold inFormation. split; [reflexivity|intros _; lia]. }
    apply K.
  - unfold inColumns. apply List.Forall_forall. intros a Hin _.
    assert (F : forallb (fun a => (1 <=? Invader.x a)
                                  && (Invader.x a <=? GRID_WIDTH - 3))
                  freshWave = true) by (vm_compute; reflexivity).
    rewrite forallb_forall in F. specialize (F a Hin).
    apply andb_true_iff in F as [F1 F2].
    apply Z.leb_le in F1, F2. lia.
Qed.

Lemma formationOK_checkLevelComplete s :
  formationOK s -> formationOK (checkLevelComplete s).
Proof.
  intros H. destruct (aliveInvaders s) eqn:E.
  - rewrite (checkLevelComplete_cleared s E).
    apply formationOK_fresh; reflexivity.
  - rewrite checkLevelComplete_pending by (rewrite E; discriminate). exact H.
Qed.

Lemma formationOK_reachable (s : Game) : reachable s -> formationOK s.
Proof.
  revert s. apply (reachable_invariant formationOK);
    auto using formationOK_moveInvaders, formationOK_updateBullets,
      formationOK_checkLevelComplete.
  - intros dt s H. unfold coolDown. destruct (_ >? _); exact H.
  - intros dt r s H. unfold formationOK.
    destruct (enemyFire_shape dt r s) as (? & ? & ? & ->). exact H.
  - intros s H. rewrite updateHighScore_max. exact H.
  - intros s H. unfold startGame. destruct (_ && _); exact H.
  - intros s H. unfold moveLeft. destruct (_ >? _); exact H.
  - intros s H. unfold moveRight. destruct (_ <? _); exact H.
  - intros s H. unfold shootBullet. destruct (_ <=? _); exact H.
  - intros s H. unfold togglePause. destruct (_ && _); exact H.
  - intros s _. apply formationOK_fresh; reflexivity.
  - apply formationOK_fresh; reflexivity.
Qed.

(** X2: the alive invaders of a reachable state are a fresh wave shifted
    as one rigid body: the array always holds 55 invaders with the tiers of
    a fresh wave, there is one shift (dx, dy) with dy >= 0 by which every
    alive invader is away from its spawn place, and every alive invader is
    in the columns 1 to W - 3 = 57. *)
Theorem formation_is_rigid (s : Game) :
  reachable s ->
  length (invaders s) = 55%nat /\
  map Invader.type (invaders s) = map Invader.type freshWave /\
  (exists dx dy, 0 <= dy /\
     forall (i : nat) (a f : Invader.t),
       invaders s !! i = Some a -> freshWave !! i = Some f ->
       Invader.alive a = true ->
       Invader.x a = Invader.x f + dx /\ Invader.y a = Invader.y f + dy) /\
  (forall a, In a (invaders s) -> Invader.alive a = true ->
             1 <= Invader.x a <= 57).
Proof.
  intros R. destruct (formationOK_reachable s R)
    as (_ & (dx & dy & Hy & Hf) & Hc).
  split; [rewrite (Forall2_length _ _ _ Hf); reflexivity|].
  split.
  { clear -Hf. induction Hf as [|a f l fs [Ht _] _ IH]; simpl;
      [reflexivity|]. rewrite Ht, IH. reflexivity. }
  split.
  - exists dx, dy. split; [exact Hy|]. intros i a f Ha Hfr Hl.
    rewrite Forall2_lookup in Hf. specialize (Hf i).
    rewrite Ha, Hfr in Hf. inversion Hf as [? ? [_ K]|]; subst. auto.
  - unfold inColumns in Hc. rewrite List.Forall_forall in Hc.
    intros a Hin Ha. specialize (Hc a Hin Ha). unfold GRID_WIDTH in Hc. lia.
Qed.

Lemma formation_is_rigid_witness :
  reachable (run newGame firstFrame) /\
  length (invaders (run newGame firstFrame)) = 55%nat /\
  map Invader.type (invaders (run newGame firstFrame))
  = map Invader.type freshWave.
Proof.
  split; [apply reachable_run|].
  destruct (formation_is_rigid (run newGame firstFrame)
              (reachable_run firstFrame)) as (H1 & H2 & _).
  split; assumption.
Defined.

(** ** Invaders only descend *)

Lemma descended_refl (l : list Invader.t) : Forall2 descended l l.
Proof. induction l; constructor; unfold descended; auto with zarith. Qed.

Lemma descended_trans (l1 l2 l3 : list Invader.t) :
  Forall2 descended l1 l2 -> Forall2 descended l2 l3 ->
  Forall2 descended l1 l3.
Proof.
  intros H. revert l3. induction H as [|a b l1 l2 Hab _ IH]; intros l3 H3;
    inversion H3 as [|? c ? ? Hbc]; subst; constructor;
    [|apply IH; assumption].
  unfold descended in *.
  destruct Hab as (T1 & Y1 & A1), Hbc as (T2 & Y2 & A2).
  split; [congruence|]. split; [lia|auto].
Qed.

Lemma descended_wornDown (l l' : list Invader.t) :
  Forall2 wornDown l l' -> Forall2 descended l l'.
Proof.
  induction 1 as [|a b l l' (Hx & Hy & Ht & Ha) _ IH]; constructor;
    [|exact IH].
  unfold descended. split; [exact Ht|]. split; [lia|exact Ha].
Qed.

Lemma descended_drop (l : list Invader.t) :
  Forall2 descended l (map dropInvader l).
Proof.
  induction l as [|a l IH]; simpl; constructor; [|exact IH].
  unfold descended, dropInvader, invaderDropDistance.
  destruct (Invader.alive a) eqn:E; cbn [Invader.type Invader.y
    Invader.alive]; rewrite ?E; repeat split; auto; lia.
Qed.

Lemma descended_slide (dir : Z) (l : list Invader.t) :
  Forall2 descended l (map (slideInvader dir) l).
Proof.
  induction l as [|a l IH]; simpl; constructor; [|exact IH].
  unfold descended, slideInvader.
  destruct (Invader.alive a) eqn:E; cbn [Invader.type Invader.y
    Invader.alive]; rewrite ?E; repeat split; auto; lia.
Qed.

Lemma moveInvaders_descended (dt : Z) (s : Game) :
  Forall2 descended (invaders s) (invaders (moveInvaders dt s)).
Proof.
  destruct (moveInvaders_cases dt s)
    as [[-> _] | [(_ & -> & _) | (_ & -> & _)]].
  - apply descended_refl.
  - apply descended_drop.
  - apply descended_slide.
Qed.

Lemma beforeLevelCheck_descended (dt : Z) (r : Q) (s : Game) :
  Forall2 descended (invaders s) (invaders (beforeLevelCheck dt r s)).
Proof.
  unfold beforeLevelCheck.
  eapply descended_trans;
    [|apply descended_wornDown, updateBullets_wornDown].
  assert (E : invaders (enemyFire dt r (moveInvaders dt (coolDown dt s)))
              = invaders (moveInvaders dt (coolDown dt s))).
  { destruct (enemyFire_shape dt r (moveInvaders dt (coolDown dt s)))
      as (? & ? & ? & ->). reflexivity. }
  rewrite E.
  assert (C : invaders (coolDown dt s) = invaders s)
    by (unfold coolDown; destruct (_ >? _); reflexivity).
  rewrite <- C at 1. apply moveInvaders_descended.
Qed.

Lemma beforeLevelCheck_level (dt : Z) (r : Q) (s : Game) :
  level (beforeLevelCheck dt r s) = level s.
Proof.
  destruct (beforeLevelCheck_shape dt r s)
    as (? & ? & ? & ? & ? & ? & ? & ? & ? & ? & ->).
  reflexivity.
Qed.

Lemma levelCheck_level (t : Game) :
  (level (updateHighScore (checkLevelComplete t)) = level t + 1) \/
  (level (updateHighScore (checkLevelComplete t)) = level t /\
   invaders (updateHighScore (checkLevelComplete t)) = invaders t).
Proof.
  rewrite updateHighScore_max. unfold checkLevelComplete.
  destruct (aliveInvaders t); auto.
Qed.

Lemma simulate_descended (dt : Z) (r : Q) (s : Game) :
  level (simulate dt r s) = level s ->
  Forall2 descended (invaders s) (invaders (simulate dt r s)).
Proof.
  unfold simulate. intros L.
  pose proof (beforeLevelCheck_level dt r s) as B.
  destruct (levelCheck_level (beforeLevelCheck dt r s)) as [K|[_ ->]];
    [lia|].
  apply beforeLevelCheck_descended.
Qed.

Lemma handlers_keep_wave (s : Game) :
  gameOver s = false ->
  (forall e, match e with Frame _ => False | _ => True end ->
             sameWave s (step s e)) /\
  (forall f, sameWave s (keyboardMovement (directionX f)
                           (handleGamepadInput (gamepad f) s))).
Proof.
  intros G.
  assert (P0 : sameWave s s) by (unfold sameWave; auto).
  assert (P1 : forall t, sameWave s t -> sameWave s (startGame t))
    by (intros t H; unfold startGame; destruct (_ && _); exact H).
  assert (P2 : forall t, sameWave s t -> sameWave s (moveLeft t))
    by (intros t H; unfold moveLeft; destruct (_ >? _); exact H).
  assert (P3 : forall t, sameWave s t -> sameWave s (moveRight t))
    by (intros t H; unfold moveRight; destruct (_ <? _); exact H).
  assert (P4 : forall t, sameWave s t -> sameWave s (shootBullet t))
    by (intros t H; unfold shootBullet; destruct (_ <=? _); exact H).
  assert (P5 : forall t, sameWave s t -> sameWave s (togglePause t))
    by (intros t H; unfold togglePause; destruct (_ && _); exact H).
  assert (P6 : forall t, sameWave s t -> gameOver t = true ->
                         sameWave s (initGame t))
    by (intros t (_ & _ & K & _) K'; congruence).
  assert (P7 : forall t, sameWave s t -> sameWave s (toggleMute t))
    by (intros t H; exact H).
  split.
  - intros e He. destruct e; try contradiction; cbn [step].
    + apply (shoot_preserves (sameWave s)); assumption.
    + apply P5, P0.
    + apply (restart_preserves (sameWave s)); assumption.
    + apply P7, P0.
  - intros f. apply (inputs_preserve (sameWave s)); assumption.
Qed.

(** X3: within a wave invaders only descend. Whatever the event, if the
    game was not over and the level did not change, each invader keeps its
    tier, has a y that is not smaller than before, and is alive only if it
    was alive before. *)
Theorem invaders_never_ascend (s : Game) (e : Event) :
  gameOver s = false ->
  level (step s e) = level s ->
  Forall2 descended (invaders s) (invaders (step s e)).
Proof.
  intros G L. destruct (handlers_keep_wave s G) as [K1 K2].
  destruct e as [| | | |f].
  - destruct (K1 KeySpace I) as (-> & _). apply descended_refl.
  - destruct (K1 KeyP I) as (-> & _). apply descended_refl.
  - destruct (K1 KeyR I) as (-> & _). apply descended_refl.
  - destruct (K1 KeyM I) as (-> & _). apply descended_refl.
  - cbn [step] in *. unfold update in *. cbv zeta in *.
    destruct (K2 f) as (E1 & E2 & _).
    destruct (inactive _).
    + rewrite E1. apply descended_refl.
    + rewrite <- E1 at 1. apply simulate_descended. rewrite L, E2.
      reflexivity.
Qed.

Lemma invaders_never_ascend_witness :
  gameOver atRightEdge = false /\
  level (step atRightEdge (Frame (idleFrame 16))) = level atRightEdge /\
  Forall2 descended (invaders atRightEdge)
    (invaders (step atRightEdge (Frame (idleFrame 16)))).
Proof.
  assert (H1 : gameOver atRightEdge = false) by reflexivity.
  assert (H2 : level (step atRightEdge (Frame (idleFrame 16)))
               = level atRightEdge) by (vm_compute; reflexivity).
  split; [exact H1|]. split; [exact H2|].
  exact (invaders_never_ascend atRightEdge (Frame (idleFrame 16)) H1 H2).
Defined.

(** ** The loss condition of the formation *)

Lemma reachedPlayer_fold_lost (l : list Invader.t) (t : Game) :
  lives t = 0 -> gameOver t = true ->
  lives (fold_left (fun acc inv => reachedPlayer inv acc) l t) = 0 /\
  gameOver (fold_left (fun acc inv => reachedPlayer inv acc) l t) = true.
Proof.
  revert t. induction l as [|inv l IH]; intros t H1 H2; simpl; [auto|].
  apply IH; unfold reachedPlayer; destruct (_ >=? _); assumption || reflexivity.
Qed.

Lemma reachedPlayer_fold_cases (l : list Invader.t) (t : Game) :
  (Exists (fun inv => Invader.y inv >= Point.y (player t) - 1) l ->
   lives (fold_left (fun acc inv => reachedPlayer inv acc) l t) = 0 /\
   gameOver (fold_left (fun acc inv => reachedPlayer inv acc) l t) = true) /\
  (~ Exists (fun inv => Invader.y inv >= Point.y (player t) - 1) l ->
   fold_left (fun acc inv => reachedPlayer inv acc) l t = t).
Proof.
  revert t. induction l as [|inv l IH]; intros t; simpl.
  { split; [intros H; inversion H|reflexivity]. }
  destruct (Invader.y inv >=? Point.y (player t) - 1) eqn:E.
  - assert (R : reachedPlayer inv t
                = play Sound.gameOver (set_gameOver true (set_lives 0 t)))
      by (unfold reachedPlayer; rewrite E; reflexivity).
    rewrite R. split.
    + intros _. apply reachedPlayer_fold_lost; reflexivity.
    + intros N. exfalso. apply N. apply List.Exists_cons_hd.
      apply Z.geb_le in E. lia.
  - assert (R : reachedPlayer inv t = t)
      by (unfold reachedPlayer; rewrite E; reflexivity).
    rewrite R. rewrite Z.geb_leb in E. apply Z.leb_gt in E.
    destruct (IH t) as [I1 I2]. split.
    + intros H. apply I1. inversion H; subst; [lia|assumption].
    + intros N. apply I2. intros K. apply N.
      apply List.Exists_cons_tl, K.
Qed.

Lemma moveInvaders_loss_check (dt : Z) (s : Game) :
  invaderMoveTimer s + dt >= invaderMoveInterval s ->
  exists s4,
    moveInvaders dt s
    = fold_left (fun acc inv => reachedPlayer inv acc) (aliveInvaders s4) s4 /\
    player s4 = player s /\ lives s4 = lives s /\ gameOver s4 = gameOver s.
Proof.
  intros H. unfold moveInvaders.
  cbn [invaderMoveTimer invaderMoveInterval set_invaderMoveTimer].
  replace (invaderMoveTimer s + dt >=? invaderMoveInterval s) with true
    by (symmetry; apply Z.geb_le; lia).
  cbv zeta. eexists. split; [reflexivity|].
  destruct (existsb _ _); destruct (aliveInvaders _); repeat split.
Qed.

(** X4: the loss check of a formation step. After a triggered step, if
    some alive invader is on the row above the player or lower, the game is
    over and the lives are 0; otherwise the step leaves lives and the
    game-over flag as they were. The player is never moved by the step. *)
Theorem formation_reaching_player_ends_game (dt : Z) (s : Game) :
  invaderMoveTimer s + dt >= invaderMoveInterval s ->
  player (moveInvaders dt s) = player s /\
  (reachedRow (moveInvaders dt s) ->
   gameOver (moveInvaders dt s) = true /\ lives (moveInvaders dt s) = 0) /\
  (~ reachedRow (moveInvaders dt s) ->
   gameOver (moveInvaders dt s) = gameOver s /\
   lives (moveInvaders dt s) = lives s).
Proof.
  intros H.
  assert (Pl : player (moveInvaders dt s) = player s).
  { destruct (moveInvaders_shape dt s) as (? & ? & ? & ? & ? & ? & ->).
    reflexivity. }
  split; [exact Pl|].
  unfold reachedRow. rewrite Pl.
  destruct (moveInvaders_loss_check dt s H) as (s4 & -> & S1 & S2 & S3).
  assert (F : invaders (fold_left (fun acc inv => reachedPlayer inv acc)
                          (aliveInvaders s4) s4) = invaders s4).
  { destruct (reachedPlayer_fold_shape (aliveInvaders s4) s4)
      as (? & ? & ? & ->). reflexivity. }
  destruct (reachedPlayer_fold_cases (aliveInvaders s4) s4) as [C1 C2].
  rewrite S1 in C1, C2. rewrite F.
  assert (Q : Exists (fun inv => Invader.y inv >= Point.y (player s) - 1)
                (aliveInvaders s4) <->
              exists inv, In inv (invaders s4) /\ Invader.alive inv = true /\
                          Invader.y inv >= Point.y (player s) - 1).
  { unfold aliveInvaders. rewrite List.Exists_exists. split.
    - intros (inv & Hin & Hy). apply List.filter_In in Hin as [Hin Ha].
      exists inv. auto.
    - intros (inv & Hin & Ha & Hy). exists inv.
      split; [apply List.filter_In; auto|exact Hy]. }
  split.
  - intros R. apply Q in R. destruct (C1 R). auto.
  - intros N. rewrite C2 by (intros R; apply N, Q, R). auto.
Qed.

Lemma formation_reaching_player_ends_game_witness :
  invaderMoveTimer lastDrop + 16 >= invaderMoveInterval lastDrop /\
  lives lastDrop = 3 /\
  gameOver (moveInvaders 16 lastDrop) = true /\
  lives (moveInvaders 16 lastDrop) = 0.
Proof.
  assert (H : invaderMoveTimer lastDrop + 16 >= invaderMoveInterval lastDrop)
    by (vm_compute; congruence).
  destruct (formation_reaching_player_ends_game 16 lastDrop H) as (_ & K & _).
  split; [exact H|]. split; [reflexivity|].
  apply K. unfold reachedRow.
  exists (Invader.mk 17 37 0 true).
  split; [vm_compute; tauto|]. split; [reflexivity|].
  vm_compute. congruence.
Defined.

(** ** Enemy fire *)

(** Binary64 rounding: the result is within half the last bit of the
    real, and a binary64 value is left as it is. *)

Lemma nearestEven_le (q : Q) : (inject_Z (nearestEven q) <= q + half)%Q.
Proof.
  unfold nearestEven, half.
  pose proof (Qfloor_le q) as L.
  destruct (q - inject_Z (Qfloor q) ?= 1 # 2)%Q eqn:C.
  - apply Qeq_alt in C.
    destruct (Z.even (Qfloor q));
      [|rewrite inject_Z_plus; change (inject_Z 1) with 1%Q]; lra.
  - lra.
  - apply Qgt_alt in C. rewrite inject_Z_plus.
    change (inject_Z 1) with 1%Q. lra.
Qed.

Lemma nearestEven_ge (q : Q) : (q - half <= inject_Z (nearestEven q))%Q.
Proof.
  unfold nearestEven, half.
  pose proof (Qlt_floor q) as U. rewrite inject_Z_plus in U.
  change (inject_Z 1) with 1%Q in U.
  destruct (q - inject_Z (Qfloor q) ?= 1 # 2)%Q eqn:C.
  - apply Qeq_alt in C.
    destruct (Z.even (Qfloor q));
      [|rewrite inject_Z_plus; change (inject_Z 1) with 1%Q]; lra.
  - apply Qlt_alt in C. lra.
  - rewrite inject_Z_plus. change (inject_Z 1) with 1%Q. lra.
Qed.

Lemma nearestEven_nonneg (q : Q) : (0 <= q)%Q -> 0 <= nearestEven q.
Proof.
  intros H. unfold nearestEven.
  assert (F : 0 <= Qfloor q)
    by (change 0 with (Qfloor 0); apply Qfloor_resp_le, H).
  destruct (q - inject_Z (Qfloor q) ?= half)%Q; [|lia|lia].
  destruct (Z.even (Qfloor q)); lia.
Qed.

Lemma two_pow_pos (e : Z) : (0 < 2 ^ e)%Q.
Proof. apply Qpower_0_lt. reflexivity. Qed.

Lemma two_pow_plus (a b : Z) : (2 ^ (a + b) == 2 ^ a * 2 ^ b)%Q.
Proof. apply Qpower_plus. discriminate. Qed.

Lemma two_pow_le (a b : Z) : a <= b -> (2 ^ a <= 2 ^ b)%Q.
Proof. intros H. apply Qpower_le_compat_l; [exact H|discriminate]. Qed.

Lemma two_pow_Z (n : Z) : 0 <= n -> (2 ^ n == inject_Z (2 ^ n))%Q.
Proof. intros H. symmetry. apply (Zpower_Qpower 2 n H). Qed.

Lemma ilog2_le (q : Q) : (0 < q)%Q -> (2 ^ ilog2 q <= q)%Q.
Proof.
  intros H. unfold ilog2. cbv zeta.
  set (la := Z.log2 (Qnum q)). set (lb := Z.log2 (Z.pos (Qden q))).
  destruct (Qle_bool (2 ^ (la - lb)) q) eqn:T.
  { apply Qle_bool_iff, T. }
  destruct q as [a b]. cbn [Qnum Qden] in la, lb.
  assert (Pa : 0 < a) by (unfold Qlt in H; simpl in H; lia).
  destruct (Z.log2_spec a Pa) as [A1 _]. fold la in A1.
  assert (Pb : 0 < Z.pos b) by lia.
  destruct (Z.log2_spec _ Pb) as [_ B2]. fold lb in B2.
  assert (La : 0 <= la) by apply Z.log2_nonneg.
  assert (Lb : 0 <= lb) by apply Z.log2_nonneg.
  replace (la - lb - 1) with (la + - (lb + 1)) by lia.
  rewrite two_pow_plus, Qpower_opp, (two_pow_Z la La),
    (two_pow_Z (lb + 1)) by lia.
  replace (Z.succ lb) with (lb + 1) in B2 by lia.
  assert (P2 : 0 < 2 ^ (lb + 1)) by (apply Z.pow_pos_nonneg; lia).
  apply Qle_shift_div_r.
  { change (inject_Z 0 < inject_Z (2 ^ (lb + 1)))%Q.
    rewrite <- Zlt_Qlt. exact P2. }
  unfold Qle. simpl. nia.
Qed.

Lemma roundDouble_nonneg (q : Q) : (0 <= q)%Q -> (0 <= roundDouble q)%Q.
Proof.
  intros H. unfold roundDouble.
  destruct (Qeq_bool q 0); [apply Qle_refl|].
  apply Qmult_le_0_compat; [|apply Qlt_le_weak, two_pow_pos].
  change (inject_Z 0 <= inject_Z (nearestEven (q / 2 ^ lastBit q)))%Q.
  rewrite <- Zle_Qle. apply nearestEven_nonneg.
  apply Qle_shift_div_l; [apply two_pow_pos|]. lra.
Qed.

Lemma roundDouble_le (q : Q) :
  (0 < q)%Q -> (roundDouble q <= q + half * 2 ^ lastBit q)%Q.
Proof.
  intros H. unfold roundDouble.
  destruct (Qeq_bool q 0) eqn:Z0.
  { apply Qeq_bool_iff in Z0. lra. }
  pose proof (two_pow_pos (lastBit q)) as P.
  pose proof (nearestEven_le (q / 2 ^ lastBit q)) as N.
  apply (Qmult_le_compat_r _ _ (2 ^ lastBit q)) in N;
    [|apply Qlt_le_weak, P].
  eapply Qle_trans; [exact N|].
  apply Qle_lteq. right. field. lra.
Qed.

Lemma roundDouble_ge (q : Q) :
  (0 < q)%Q -> (q - half * 2 ^ lastBit q <= roundDouble q)%Q.
Proof.
  intros H. unfold roundDouble.
  destruct (Qeq_bool q 0) eqn:Z0.
  { apply Qeq_bool_iff in Z0. lra. }
  pose proof (two_pow_pos (lastBit q)) as P.
  pose proof (nearestEven_ge (q / 2 ^ lastBit q)) as N.
  apply (Qmult_le_compat_r _ _ (2 ^ lastBit q)) in N;
    [|apply Qlt_le_weak, P].
  eapply Qle_trans; [|exact N].
  apply Qle_lteq. right. field. lra.
Qed.

(** The binary64 values below 1 end at 1 - 2^-53. *)
Lemma binary64_below_one (r : Q) :
  binary64 r -> (r < 1)%Q -> (r <= 1 - 2 ^ (-53))%Q.
Proof.
  intros (m & e & Hm & He & E) H.
  destruct (Z_lt_le_dec e (-53)) as [Lo|Hi].
  - (* the last bit is below 2^-53: the value is at most 2^53 * 2^-54 *)
    pose proof (two_pow_pos e) as P.
    pose proof (two_pow_le e (-54) ltac:(lia)) as K2.
    assert (K1 : (inject_Z m <= inject_Z (2 ^ 53))%Q)
      by (rewrite <- Zle_Qle; lia).
    set (x := (2 ^ e)%Q) in *. set (y := inject_Z m) in *.
    change (2 ^ (-54))%Q with (1 # 18014398509481984)%Q in K2.
    change (inject_Z (2 ^ 53)) with (9007199254740992 # 1)%Q in K1.
    change (2 ^ (-53))%Q with (1 # 9007199254740992)%Q.
    rewrite E. nra.
  - (* the value is a multiple of 2^-53 *)
    set (M := m * 2 ^ (e + 53)).
    assert (EM : (r == inject_Z M * 2 ^ (-53))%Q).
    { rewrite E. unfold M. rewrite inject_Z_mult.
      rewrite <- (two_pow_Z (e + 53)) by lia.
      rewrite <- Qmult_assoc, <- two_pow_plus.
      replace (e + 53 + -53) with e by lia. reflexivity. }
    assert (LM : M < 2 ^ 53).
    { rewrite Zlt_Qlt.
      change (2 ^ (-53))%Q with (1 # 9007199254740992)%Q in EM.
      change (inject_Z (2 ^ 53)) with (9007199254740992 # 1)%Q. lra. }
    assert (KM : (inject_Z M <= inject_Z (2 ^ 53 - 1))%Q)
      by (rewrite <- Zle_Qle; lia).
    change (2 ^ (-53))%Q with (1 # 9007199254740992)%Q in *.
    change (inject_Z (2 ^ 53 - 1)) with (9007199254740991 # 1)%Q in KM.
    lra.
Qed.

Lemma Qabs_same (q : Q) : (0 <= q)%Q -> Qabs q = q.
Proof.
  destruct q as [a b]. unfold Qle. simpl. intros H.
  rewrite Z.abs_eq by lia. reflexivity.
Qed.

Lemma inject_nat_pos (n : nat) : (0 < n)%nat -> (1 <= inject_Z (Z.of_nat n))%Q.
Proof.
  intros H. change (inject_Z 1 <= inject_Z (Z.of_nat n))%Q.
  rewrite <- Zle_Qle. lia.
Qed.

(** The product of a sample and a length [n] rounds to a value below [n]:
    the product is at most n - n * 2^-53, and half its last bit is less
    than n * 2^-53. *)
Lemma product_rounds_below (r : Q) (n : nat) :
  binary64 r -> (0 <= r)%Q -> (r < 1)%Q -> (0 < n)%nat ->
  (roundDouble (r * inject_Z (Z.of_nat n)) < inject_Z (Z.of_nat n))%Q.
Proof.
  intros B H0 H1 Hn.
  pose proof (inject_nat_pos n Hn) as Pn.
  pose proof (binary64_below_one r B H1) as U.
  set (N := inject_Z (Z.of_nat n)) in *. set (x := (r * N)%Q).
  change (2 ^ (-53))%Q with (1 # 9007199254740992)%Q in U.
  assert (X0 : (0 <= x)%Q) by (unfold x; nra).
  assert (XU : (x <= N - N * (1 # 9007199254740992))%Q) by (unfold x; nra).
  destruct (Qlt_le_dec 0 x) as [Px|Zx].
  - eapply Qle_lt_trans; [apply (roundDouble_le x Px)|].
    assert (S : (2 ^ lastBit x < N * (1 # 4503599627370496))%Q).
    { unfold lastBit.
      rewrite (Qabs_same x X0).
      pose proof (ilog2_le x Px) as L. set (k := ilog2 x) in *.
      destruct (Z.max_spec (k - 52) (-1074)) as [[_ ->]|[_ ->]].
      - change (2 ^ (-1074) < N * (1 # 4503599627370496))%Q.
        apply Qlt_le_trans with (1 # 4503599627370496)%Q;
          [vm_compute; reflexivity|lra].
      - replace (k - 52) with (k + -52) by lia.
        rewrite two_pow_plus.
        change (2 ^ (-52))%Q with (1 # 4503599627370496)%Q. lra. }
    unfold half. lra.
  - assert (E : (x == 0)%Q) by lra.
    unfold roundDouble. apply Qeq_bool_iff in E. rewrite E. lra.
Qed.

Lemma randomIndex_in_range (r : Q) (n : nat) :
  unitSample r -> (0 < n)%nat -> (randomIndex r n < n)%nat.
Proof.
  intros (B & H0 & H1) Hn. unfold randomIndex.
  pose proof (product_rounds_below r n B H0 H1 Hn) as U.
  pose proof (inject_nat_pos n Hn) as Pn.
  set (q := roundDouble (r * inject_Z (Z.of_nat n))) in *.
  assert (L : (0 <= q)%Q).
  { apply roundDouble_nonneg. nra. }
  assert (F0 : 0 <= Qfloor q)
    by (change 0 with (Qfloor 0); apply Qfloor_resp_le, L).
  assert (F1 : Qfloor q < Z.of_nat n).
  { rewrite Zlt_Qlt. apply Qle_lt_trans with q; [apply Qfloor_le|exact U]. }
  lia.
Qed.

Lemma nearestEven_whole (q : Q) (z : Z) :
  (q == inject_Z z)%Q -> nearestEven q = z.
Proof.
  intros E. unfold nearestEven.
  assert (F : Qfloor q = z) by (rewrite E; apply Qfloor_Z).
  rewrite F.
  assert (C : (q - inject_Z z ?= half)%Q = Lt).
  { apply Qlt_alt. rewrite E. unfold Qminus. rewrite Qplus_opp_r.
    reflexivity. }
  rewrite C. reflexivity.
Qed.

Lemma roundDouble_binary64 (q : Q) : binary64 q -> (roundDouble q == q)%Q.
Proof.
  intros (m & e & Hm & He & E). unfold roundDouble.
  destruct (Qeq_bool q 0) eqn:Z0.
  { apply Qeq_bool_iff in Z0. symmetry. exact Z0. }
  apply Qeq_bool_neq in Z0.
  assert (Pq : (0 < Qabs q)%Q).
  { destruct (Qlt_le_dec 0 (Qabs q)) as [P|N]; [exact P|].
    exfalso. apply Z0. apply Qabs_Qle_condition in N. lra. }
  assert (A : (Qabs q == inject_Z (Z.abs m) * 2 ^ e)%Q).
  { rewrite E, Qabs_Qmult.
    rewrite (Qabs_pos (2 ^ e)) by apply Qlt_le_weak, two_pow_pos.
    reflexivity. }
  pose proof (ilog2_le (Qabs q) Pq) as L.
  assert (K : ilog2 (Qabs q) < 53 + e).
  { apply (Qpower_lt_compat_l_inv 2); [|reflexivity].
    eapply Qle_lt_trans; [exact L|]. rewrite A, two_pow_plus.
    apply Qmult_lt_compat_r; [apply two_pow_pos|].
    rewrite (two_pow_Z 53) by lia. rewrite <- Zlt_Qlt. exact Hm. }
  assert (B : lastBit q <= e) by (unfold lastBit; lia).
  set (l := lastBit q) in *.
  assert (W : (q / 2 ^ l == inject_Z (m * 2 ^ (e - l)))%Q).
  { rewrite E, inject_Z_mult, <- (two_pow_Z (e - l)) by lia.
    replace e with ((e - l) + l) at 1 by lia.
    rewrite two_pow_plus. field. apply Qpower_not_0. discriminate. }
  rewrite (nearestEven_whole _ _ W), <- W. field.
  apply Qpower_not_0. discriminate.
Qed.

(** One tenth is no binary64 value; the nearest one is
    3602879701896397 * 2^-55. *)
Example roundDouble_tenth :
  (roundDouble (1 # 10) == 3602879701896397 # 36028797018963968)%Q.
Proof. vm_compute. reflexivity. Qed.

(** The rounding of the product can change the index: for this sample
    and 55 invaders the real product is 32 - 7 * 2^-52, which rounds to
    32. *)
Example randomIndex_rounded_product :
  randomIndex (2620276146833743 # 4503599627370496) 55 = 32%nat /\
  Qfloor ((2620276146833743 # 4503599627370496) * 55) = 31.
Proof. split; vm_compute; reflexivity. Qed.

(** The sample of [shotFrame dt k] is one [Math.random()] can return. *)
Lemma shotFrame_sample (dt k : Z) :
  0 <= k < 55 -> unitSample (random (shotFrame dt k)).
Proof.
  intros H. cbn [random shotFrame].
  set (m := (2 * k + 1) * 2048 / 55 + 1).
  assert (B : 0 < m < 4096).
  { unfold m. split.
    - assert (0 <= (2 * k + 1) * 2048 / 55) by (apply Z.div_pos; lia). lia.
    - assert ((2 * k + 1) * 2048 / 55 < 4095)
        by (apply Z.div_lt_upper_bound; lia). lia. }
  split; [|split].
  - exists m, (-12). split; [lia|]. split; [lia|].
    unfold Qeq. simpl. lia.
  - unfold Qle. simpl. lia.
  - unfold Qlt. simpl. lia.
Qed.

Lemma volley_samples :
  Forall (fun k => unitSample (random (shotFrame 1500 k))) volleyPicks.
Proof.
  apply Forall_forall. intros k H. apply shotFrame_sample.
  apply list_elem_of_In in H. vm_compute in H.
  repeat (destruct H as [<-|H]; [lia|]). destruct H.
Qed.

(** The sample of [shotFrame dt k] selects invader [k] of a full wave. *)
Lemma shotFrame_selects (dt : Z) :
  Forall (fun k => randomIndex (random (shotFrame dt k)) 55 = Z.to_nat k)
         (map Z.of_nat (seq 0 55)).
Proof.
  apply Forall_forall. intros k H. apply list_elem_of_In in H.
  vm_compute in H.
  repeat (destruct H as [<-|H]; [vm_compute; reflexivity|]). destruct H.
Qed.

(** The bullets after [enemyShoot]: one more, fired by an alive invader,
    or (when the index is out of range or nobody is alive) the same. *)
Lemma enemyShoot_bullets (r : Q) (s : Game) :
  exists fired,
    bullets (enemyShoot r s) = bullets s ++ fired /\
    (fired = [] \/
     exists shooter, In shooter (aliveInvaders s) /\
                     fired = [enemyBullet shooter]).
Proof.
  unfold enemyShoot. destruct (aliveInvaders s) as [|a l] eqn:E.
  { exists []. split; [symmetry; apply app_nil_r|auto]. }
  destruct ((a :: l) !! randomIndex r (length (a :: l))) as [shooter|] eqn:L.
  - exists [enemyBullet shooter]. split; [reflexivity|]. right.
    exists shooter. split; [|reflexivity].
    apply list_elem_of_In. eapply list_elem_of_lookup_2. exact L.
  - exists []. split; [symmetry; apply app_nil_r|auto].
Qed.

(** X5: with a sample of [Math.random()], a binary64 value in [0, 1), the
    shooter index (the floor of the binary64 product of the sample and the
    number of alive invaders) is always in range: when some invader is
    alive, [enemyShoot] appends exactly one enemy bullet, one row below
    the alive invader at that index, and assigns no other field but the
    sound log; when none is alive it does nothing. *)
Theorem enemy_shot_comes_from_alive_invader (r : Q) (s : Game) :
  unitSample r ->
  (aliveInvaders s = [] -> enemyShoot r s = s) /\
  (aliveInvaders s <> [] ->
   (randomIndex r (length (aliveInvaders s)) < length (aliveInvaders s))%nat /\
   exists shooter,
     aliveInvaders s !! randomIndex r (length (aliveInvaders s))
     = Some shooter /\
     In shooter (invaders s) /\ Invader.alive shooter = true /\
     enemyShoot r s =
     play Sound.enemyShoot
       (set_bullets (bullets s ++ [enemyBullet shooter]) s)).
Proof.
  intros Hr. unfold enemyShoot. split.
  - intros ->. reflexivity.
  - intros Hne. destruct (aliveInvaders s) as [|a l] eqn:E; [contradiction|].
    assert (Hlt : (randomIndex r (length (a :: l)) < length (a :: l))%nat)
      by (apply randomIndex_in_range; [exact Hr|simpl; lia]).
    split; [exact Hlt|].
    destruct (lookup_lt_is_Some_2 _ _ Hlt) as [shooter L].
    rewrite L. exists shooter.
    assert (Hin : In shooter (aliveInvaders s)).
    { rewrite E. apply list_elem_of_In. eapply list_elem_of_lookup_2. exact L. }
    apply List.filter_In in Hin as [H1 H2].
    split; [reflexivity|]. split; [exact H1|]. split; [exact H2|reflexivity].
Qed.

(** The sample 7/16 on a full wave: 7/16 * 55 = 24.0625, invader 24. *)
Lemma enemy_shot_comes_from_alive_invader_witness :
  unitSample (Qmake 7 16) /\ aliveInvaders playingGame <> [] /\
  exists shooter,
    aliveInvaders playingGame !! 24%nat = Some shooter /\
    In shooter (invaders playingGame) /\ Invader.alive shooter = true /\
    enemyShoot (Qmake 7 16) playingGame =
    play Sound.enemyShoot
      (set_bullets (bullets playingGame ++ [enemyBullet shooter])
         playingGame).
Proof.
  assert (H : unitSample (Qmake 7 16)).
  { split; [|split; vm_compute; congruence].
    exists 7, (-4). split; [reflexivity|]. split; [lia|].
    vm_compute. reflexivity. }
  assert (N : aliveInvaders playingGame <> []) by (vm_compute; discriminate).
  destruct (enemy_shot_comes_from_alive_invader (Qmake 7 16) playingGame H)
    as [_ K].
  split; [exact H|]. split; [exact N|exact (proj2 (K N))].
Defined.

(** ** The enemy-fire timer *)





(** ** Bullets move one row per frame and stay on the grid *)

Lemma sublist_Forall {A : Type} (P : A -> Prop) (l k : list A) :
  sublist l k -> Forall P k -> Forall P l.
Proof.
  induction 1 as [|x l k _ IH|x l k _ IH]; intros H.
  - constructor.
  - apply Forall_cons in H as [Hx H]. constructor; auto.
  - apply Forall_cons in H as [_ H]. auto.
Qed.

Lemma barrierCollisions_sublist (n : nat) (s : Game) :
  sublist (bullets (barrierCollisions n s)) (bullets s).
Proof.
  revert s. induction n as [|i IH]; intros s; simpl; [reflexivity|].
  destruct (bullets s !! i) as [b|]; [|apply IH].
  destruct (damageLast b (length (barriers s)) (barriers s)) as [bars'|];
    [|apply IH].
  match goal with |- context [barrierCollisions i ?t] =>
    pose proof (IH t) as H end.
  cbn [bullets set_bullets] in H.
  etransitivity; [exact H|apply sublist_delete].
Qed.

Lemma updateBullets_sublist (s : Game) :
  sublist (bullets (updateBullets s))
          (List.filter onScreen (map advance (bullets s))).
Proof.
  unfold updateBullets, resolveCollisions.
  set (s0 := advanceBullets s).
  set (s1 := invaderCollisions (length (bullets s0)) s0).
  set (s2 := barrierCollisions (length (bullets s1)) s1).
  destruct (playerCollisions_count (length (bullets s2)) s2) as [_ C].
  pose proof (barrierCollisions_sublist (length (bullets s1)) s1) as B.
  destruct (invaderCollisions_count (length (bullets s0)) s0) as [_ A].
  fold s1 in A. fold s2 in B.
  etransitivity; [exact C|]. etransitivity; [exact B|]. exact A.
Qed.

Lemma enemyFire_bullets (dt : Z) (r : Q) (t : Game) :
  exists fired,
    bullets (enemyFire dt r t) = bullets t ++ fired /\
    (fired = [] \/
     exists shooter, In shooter (invaders t) /\
                     Invader.alive shooter = true /\
                     fired = [enemyBullet shooter]).
Proof.
  unfold enemyFire. cbv zeta. cbn [enemyShootTimer set_enemyShootTimer].
  destruct (_ >=? enemyShootInterval).
  - match goal with |- context [enemyShoot r ?u] =>
      destruct (enemyShoot_bullets r u) as (fired & E & K) end.
    exists fired. split; [exact E|].
    destruct K as [K|(shooter & Hin & K)]; [auto|right].
    exists shooter. apply List.filter_In in Hin as [H1 H2]. auto.
  - exists []. split; [symmetry; apply app_nil_r|auto].
Qed.

Lemma levelCheck_bullets (t : Game) :
  bullets (updateHighScore (checkLevelComplete t)) = bullets t \/
  bullets (updateHighScore (checkLevelComplete t)) = [].
Proof.
  rewrite updateHighScore_max. unfold checkLevelComplete.
  destruct (aliveInvaders t); auto.
Qed.

Lemma frame_bullets (dt : Z) (r : Q) (s : Game) :
  exists fired,
    (fired = [] \/
     exists shooter,
       In shooter (invaders (moveInvaders dt (coolDown dt s))) /\
       Invader.alive shooter = true /\ fired = [enemyBullet shooter]) /\
    sublist (bullets (beforeLevelCheck dt r s))
            (List.filter onScreen (map advance (bullets s ++ fired))).
Proof.
  destruct (enemyFire_bullets dt r (moveInvaders dt (coolDown dt s)))
    as (fired & E & K).
  exists fired. split; [exact K|].
  unfold beforeLevelCheck.
  pose proof (updateBullets_sublist
                (enemyFire dt r (moveInvaders dt (coolDown dt s)))) as U.
  rewrite E in U.
  assert (B : bullets (moveInvaders dt (coolDown dt s)) = bullets s).
  { destruct (moveInvaders_shape dt (coolDown dt s))
      as (? & ? & ? & ? & ? & ? & ->).
    cbn [bullets]. unfold coolDown. destruct (_ >? _); reflexivity. }
  rewrite B in U. exact U.
Qed.


Lemma onGrid_advanced (l : list Bullet.t) :
  Forall (fun b => 0 <= Bullet.x b <= GRID_WIDTH - 2) l ->
  Forall onGrid (List.filter onScreen (map advance l)).
Proof.
  intros H. apply List.Forall_forall. intros b Hb.
  apply List.filter_In in Hb as [Hin Hs].
  apply in_map_iff in Hin as (a & <- & Hin).
  rewrite List.Forall_forall in H. specialize (H a Hin).
  unfold onScreen in Hs. apply andb_true_iff in Hs as [S1 S2].
  rewrite Z.geb_leb in S1. apply Z.leb_le in S1. apply Z.ltb_lt in S2.
  unfold onGrid. split; [|lia].
  unfold advance. destruct (Bullet.isPlayerBullet a); exact H.
Qed.

Lemma formationOK_simulate (dt : Z) (r : Q) (s : Game) :
  formationOK s -> formationOK (simulate dt r s).
Proof.
  apply (simulate_preserves formationOK);
    auto using formationOK_moveInvaders, formationOK_updateBullets,
      formationOK_checkLevelComplete.
  - intros d t H. unfold coolDown. destruct (_ >? _); exact H.
  - intros d q t H. unfold formationOK.
    destruct (enemyFire_shape d q t) as (? & ? & ? & ->). exact H.
  - intros t H. rewrite updateHighScore_max. exact H.
Qed.

Lemma simulate_onGrid (dt : Z) (r : Q) (s : Game) :
  formationOK s -> Forall onGrid (bullets s) ->
  Forall onGrid (bullets (simulate dt r s)).
Proof.
  intros F H. unfold simulate.
  destruct (levelCheck_bullets (beforeLevelCheck dt r s)) as [-> | ->];
    [|constructor].
  destruct (frame_bullets dt r s) as (fired & K & S).
  apply (sublist_Forall _ _ _ S), onGrid_advanced.
  apply Forall_app. split.
  - eapply Forall_impl; [exact H|]. intros b [Hx _]. exact Hx.
  - destruct K as [->|(shooter & Hin & Ha & ->)]; [constructor|].
    constructor; [|constructor]. cbn [enemyBullet Bullet.x].
    assert (F' : formationOK (moveInvaders dt (coolDown dt s))).
    { apply formationOK_moveInvaders. unfold coolDown.
      destruct (_ >? _); exact F. }
    destruct F' as (_ & _ & Hc). unfold inColumns in Hc.
    rewrite List.Forall_forall in Hc. specialize (Hc shooter Hin Ha).
    unfold GRID_WIDTH in *. lia.
Qed.

Lemma onGrid_reachable (s : Game) :
  reachable s -> Forall onGrid (bullets s).
Proof.
  intros R. induction R as [|s e R IH]; [constructor|].
  pose proof (onTrack_reachable s R) as T.
  pose proof (formationOK_reachable s R) as F.
  set (P := fun t : Game => onTrack t /\ formationOK t /\
                            Forall onGrid (bullets t)).
  assert (H : P (step s e)); [|exact (proj2 (proj2 H))].
  apply (step_preserves P); [..|exact (conj T (conj F IH))]; subst P;
    cbv beta.
  - intros t (H1 & H2 & H3). split; [apply onTrack_startGame, H1|].
    unfold startGame. destruct (_ && _); auto.
  - intros t (H1 & H2 & H3). split; [apply onTrack_moveLeft, H1|].
    unfold moveLeft. destruct (_ >? _); auto.
  - intros t (H1 & H2 & H3). split; [apply onTrack_moveRight, H1|].
    unfold moveRight. destruct (_ <? _); auto.
  - intros t (H1 & H2 & H3). split; [apply onTrack_shootBullet, H1|].
    unfold shootBullet. destruct (_ <=? _); [|auto].
    split; [exact H2|]. cbn [bullets set_bullets play set_shootCooldown
      set_synthManager].
    apply Forall_app. split; [exact H3|]. constructor; [|constructor].
    destruct H1 as (Hy & Hx & _). unfold onGrid, GRID_WIDTH, GRID_HEIGHT in *.
    cbn [Bullet.x Bullet.y]. lia.
  - intros t (H1 & H2 & H3). split; [apply onTrack_togglePause, H1|].
    unfold togglePause. destruct (_ && _); auto.
  - intros t _ _. split; [apply onTrack_initGame|].
    split; [apply formationOK_fresh; reflexivity|constructor].
  - intros t H. exact H.
  - intros dt r t (H1 & H2 & H3) _. split; [apply onTrack_simulate, H1|].
    split; [apply formationOK_simulate, H2|apply simulate_onGrid; assumption].
Qed.

(** X8: in every reachable state every bullet is on the grid: its column
    is within 0 to W - 2 = 58 and its row within 0 to H - 1 = 39. *)
Theorem bullets_stay_on_grid (s : Game) :
  reachable s ->
  Forall (fun b => 0 <= Bullet.x b <= 58 /\ 0 <= Bullet.y b <= 39) (bullets s).
Proof.
  intros R. eapply Forall_impl; [exact (onGrid_reachable s R)|].
  intros b [Hx Hy]. unfold GRID_WIDTH, GRID_HEIGHT in *. lia.
Qed.

Lemma bullets_stay_on_grid_witness :
  reachable (run newGame volley) /\
  Forall (fun b => 0 <= Bullet.x b <= 58 /\ 0 <= Bullet.y b <= 39)
    (bullets (run newGame volley)).
Proof.
  split; [apply reachable_run|].
  apply (bullets_stay_on_grid (run newGame volley)), reachable_run.
Defined.

(** ** Scoring *)

Lemma destroyFirst_bounty (b : Bullet.t) (invs invs' : list Invader.t)
      (victim : Invader.t) :
  destroyFirst b invs = Some (invs', victim) ->
  bounty invs = bounty invs' + (Invader.type victim + 1) * 10.
Proof.
  revert invs'. induction invs as [|inv rest IH]; intros invs';
    cbn [destroyFirst]; [discriminate|].
  destruct (hitsInvader b inv) eqn:Hit.
  - intros [= <- <-]. unfold hitsInvader in Hit.
    unfold bounty. cbn [fold_right Invader.alive Invader.type].
    destruct (Invader.alive inv); [lia|discriminate].
  - destruct (destroyFirst b rest) as [[rest' v]|]; [|discriminate].
    intros [= <- <-]. specialize (IH rest' eq_refl).
    unfold bounty in *. cbn [fold_right].
    destruct (Invader.alive inv); lia.
Qed.

Lemma invaderCollisions_bounty (n : nat) (s : Game) :
  score (invaderCollisions n s) + bounty (invaders (invaderCollisions n s))
  = score s + bounty (invaders s).
Proof.
  revert s. induction n as [|i IH]; intros s; simpl; [reflexivity|].
  destruct (bullets s !! i) as [b|]; [|apply IH].
  destruct (negb (Bullet.isPlayerBullet b)); [apply IH|].
  destruct (destroyFirst b (invaders s)) as [[invs' v]|] eqn:D; [|apply IH].
  rewrite IH. cbn [score invaders set_score set_invaders set_bullets play
    set_synthManager].
  rewrite (destroyFirst_bounty _ _ _ _ D). lia.
Qed.

Lemma updateBullets_score_eq (s : Game) :
  score (updateBullets s)
  = score (invaderCollisions (length (bullets (advanceBullets s)))
             (advanceBullets s)).
Proof.
  unfold updateBullets, resolveCollisions.
  set (s1 := invaderCollisions _ _).
  set (s2 := barrierCollisions _ _).
  destruct (playerCollisions_shape (length (bullets s2)) s2)
    as (? & ? & ? & ? & ->).
  cbn [score]. subst s2.
  destruct (barrierCollisions_shape (length (bullets s1)) s1)
    as (? & ? & ? & ->).
  reflexivity.
Qed.

Lemma updateBullets_bounty (s : Game) :
  score (updateBullets s) + bounty (invaders (updateBullets s))
  = score s + bounty (invaders s).
Proof.
  rewrite updateBullets_score_eq, updateBullets_invaders.
  exact (invaderCollisions_bounty _ (advanceBullets s)).
Qed.

Lemma bounty_drop (l : list Invader.t) :
  bounty (map dropInvader l) = bounty l.
Proof.
  induction l as [|a l IH]; [reflexivity|].
  unfold bounty in *. cbn [map fold_right]. rewrite IH.
  unfold dropInvader. destruct (Invader.alive a) eqn:E;
    cbn [Invader.alive Invader.type]; rewrite ?E; reflexivity.
Qed.

Lemma bounty_slide (dir : Z) (l : list Invader.t) :
  bounty (map (slideInvader dir) l) = bounty l.
Proof.
  induction l as [|a l IH]; [reflexivity|].
  unfold bounty in *. cbn [map fold_right]. rewrite IH.
  unfold slideInvader. destruct (Invader.alive a) eqn:E;
    cbn [Invader.alive Invader.type]; rewrite ?E; reflexivity.
Qed.

Lemma beforeLevelCheck_bounty (dt : Z) (r : Q) (s : Game) :
  score (beforeLevelCheck dt r s)
  + bounty (invaders (beforeLevelCheck dt r s))
  = score s + bounty (invaders s).
Proof.
  unfold beforeLevelCheck. rewrite updateBullets_bounty.
  set (m := moveInvaders dt (coolDown dt s)).
  assert (E : score (enemyFire dt r m) = score m /\
              invaders (enemyFire dt r m) = invaders m).
  { destruct (enemyFire_shape dt r m) as (? & ? & ? & ->).
    split; reflexivity. }
  destruct E as [-> ->]. subst m.
  assert (S : score (moveInvaders dt (coolDown dt s)) = score s).
  { destruct (moveInvaders_shape dt (coolDown dt s))
      as (? & ? & ? & ? & ? & ? & ->).
    cbn [score]. unfold coolDown. destruct (_ >? _); reflexivity. }
  assert (C : invaders (coolDown dt s) = invaders s)
    by (unfold coolDown; destruct (_ >? _); reflexivity).
  rewrite S. f_equal. rewrite <- C.
  destruct (moveInvaders_cases dt (coolDown dt s))
    as [[-> _] | [(_ & -> & _) | (_ & -> & _)]];
    [reflexivity|apply bounty_drop|apply bounty_slide].
Qed.

Lemma levelCheck_score (t : Game) :
  score (updateHighScore (checkLevelComplete t)) = score t.
Proof.
  rewrite updateHighScore_max. unfold checkLevelComplete.
  destruct (aliveInvaders t); reflexivity.
Qed.

Lemma bounty_cleared (l : list Invader.t) :
  List.filter Invader.alive l = [] -> bounty l = 0.
Proof.
  induction l as [|a l IH]; [reflexivity|].
  unfold bounty in *. cbn [List.filter fold_right].
  destruct (Invader.alive a); [discriminate|exact IH].
Qed.

Lemma bounty_none_alive (u : Game) :
  aliveInvaders u = [] -> bounty (invaders u) = 0.
Proof. intros H. apply bounty_cleared. exact H. Qed.

Lemma bounty_freshWave : bounty freshWave = 990.
Proof. vm_compute. reflexivity. Qed.

Lemma levelCheck_wave (u : Game) :
  (aliveInvaders u = [] /\
   level (updateHighScore (checkLevelComplete u)) = level u + 1 /\
   invaders (updateHighScore (checkLevelComplete u)) = freshWave) \/
  (level (updateHighScore (checkLevelComplete u)) = level u /\
   invaders (updateHighScore (checkLevelComplete u)) = invaders u).
Proof.
  rewrite updateHighScore_max. unfold checkLevelComplete.
  destruct (aliveInvaders u); [left|right]; auto.
Qed.

Lemma simulate_bounty (dt : Z) (r : Q) (t : Game) :
  (level (simulate dt r t) = level t ->
   score (simulate dt r t) + bounty (invaders (simulate dt r t))
   = score t + bounty (invaders t)) /\
  (level (simulate dt r t) <> level t ->
   score (simulate dt r t) = score t + bounty (invaders t) /\
   bounty (invaders (simulate dt r t)) = 990).
Proof.
  pose proof (beforeLevelCheck_bounty dt r t) as B.
  pose proof (beforeLevelCheck_level dt r t) as L.
  unfold simulate. rewrite levelCheck_score.
  destruct (levelCheck_wave (beforeLevelCheck dt r t))
    as [(A & -> & ->)|(-> & ->)]; rewrite L.
  - split; [lia|]. intros _.
    rewrite (bounty_none_alive _ A) in B.
    split; [lia|exact bounty_freshWave].
  - split; [intros _; exact B|intros N; lia].
Qed.

(** X9: points and kills balance. Within a wave (the game not over before
    the event, the level the same after it) the score plus the bounty of
    the invaders still alive, (tier + 1) * 10 each, is constant: every point
    scored is the bounty of an invader that died. A fresh wave holds 990
    points, and the frame that completes a level has collected all that
    was left of them. *)
Theorem score_plus_bounty_is_constant (s : Game) (e : Event) :
  gameOver s = false ->
  (level (step s e) = level s ->
   score (step s e) + bounty (invaders (step s e))
   = score s + bounty (invaders s)) /\
  (level (step s e) <> level s ->
   score (step s e) = score s + bounty (invaders s) /\
   bounty (invaders (step s e)) = 990).
Proof.
  intros G. destruct (handlers_keep_wave s G) as [K1 K2].
  assert (Q : forall t, sameWave s t ->
    (level t = level s ->
     score t + bounty (invaders t) = score s + bounty (invaders s)) /\
    (level t <> level s ->
     score t = score s + bounty (invaders s) /\ bounty (invaders t) = 990)).
  { intros t (E1 & E2 & _ & E4). split; [intros _|intros N; contradiction].
    rewrite E1, E4. reflexivity. }
  destruct e as [| | | |f].
  - apply Q, (K1 KeySpace I).
  - apply Q, (K1 KeyP I).
  - apply Q, (K1 KeyR I).
  - apply Q, (K1 KeyM I).
  - cbn [step]. unfold update. cbv zeta.
    pose proof (K2 f) as W.
    destruct (inactive _); [apply Q, W|].
    destruct W as (E1 & E2 & _ & E4).
    pose proof (simulate_bounty (deltaTime f) (random f)
                  (keyboardMovement (directionX f)
                     (handleGamepadInput (gamepad f) s))) as S.
    rewrite E1, E2, E4 in S. exact S.
Qed.

Lemma score_plus_bounty_is_constant_witness :
  gameOver crossfire = false /\
  level (step crossfire (Frame (idleFrame 16))) = level crossfire /\
  score (step crossfire (Frame (idleFrame 16)))
  + bounty (invaders (step crossfire (Frame (idleFrame 16))))
  = score crossfire + bounty (invaders crossfire).
Proof.
  assert (G : gameOver crossfire = false) by reflexivity.
  assert (L : level (step crossfire (Frame (idleFrame 16))) = level crossfire)
    by (vm_compute; reflexivity).
  destruct (score_plus_bounty_is_constant crossfire (Frame (idleFrame 16)) G)
    as [K _].
  split; [exact G|]. split; [exact L|exact (K L)].
Defined.

(** X10: a level goes up one at a time and never down during a game:
    whatever the event, the level of a game that is not over stays or grows
    by exactly 1. *)
Theorem level_steps_by_one (s : Game) (e : Event) :
  gameOver s = false ->
  level (step s e) = level s \/ level (step s e) = level s + 1.
Proof.
  intros G. destruct (handlers_keep_wave s G) as [K1 K2].
  destruct e as [| | | |f].
  - left. apply (K1 KeySpace I).
  - left. apply (K1 KeyP I).
  - left. apply (K1 KeyR I).
  - left. apply (K1 KeyM I).
  - cbn [step]. unfold update. cbv zeta.
    pose proof (K2 f) as W.
    destruct (inactive _); [left; apply W|].
    destruct W as (_ & E2 & _).
    unfold simulate.
    rewrite <- E2,
      <- (beforeLevelCheck_level (deltaTime f) (random f)
            (keyboardMovement (directionX f)
               (handleGamepadInput (gamepad f) s))).
    destruct (levelCheck_level
                (beforeLevelCheck (deltaTime f) (random f)
                   (keyboardMovement (directionX f)
                      (handleGamepadInput (gamepad f) s))))
      as [K|[K _]]; auto.
Qed.

Lemma level_steps_by_one_witness :
  gameOver clearedGame = false /\
  level (step clearedGame (Frame (idleFrame 16))) = level clearedGame + 1.
Proof.
  assert (G : gameOver clearedGame = false) by reflexivity.
  destruct (level_steps_by_one clearedGame (Frame (idleFrame 16)) G) as [K|K].
  - vm_compute in K. discriminate.
  - split; [exact G|exact K].
Defined.

(** ** No friendly fire *)

Lemma advance_owner (l : list Bullet.t) (o : bool) :
  Forall (fun b => Bullet.isPlayerBullet b = o) l ->
  Forall (fun b => Bullet.isPlayerBullet b = o)
         (List.filter onScreen (map advance l)).
Proof.
  intros H. apply List.Forall_forall. intros b Hb.
  apply List.filter_In in Hb as [Hin _].
  apply in_map_iff in Hin as (a & <- & Hin).
  rewrite List.Forall_forall in H. specialize (H a Hin).
  unfold advance. destruct (Bullet.isPlayerBullet a); exact H.
Qed.

Lemma invaderCollisions_allEnemy (n : nat) (s : Game) :
  allEnemy (bullets s) -> invaderCollisions n s = s.
Proof.
  intros H. induction n as [|i IH]; simpl; [reflexivity|].
  destruct (bullets s !! i) as [b|] eqn:L; [|exact IH].
  rewrite (Forall_lookup_1 _ _ _ _ H L). exact IH.
Qed.

Lemma playerCollisions_allPlayer (n : nat) (s : Game) :
  allPlayer (bullets s) -> playerCollisions n s = s.
Proof.
  intros H. induction n as [|i IH]; simpl; [reflexivity|].
  destruct (bullets s !! i) as [b|] eqn:L; [|exact IH].
  unfold hitsPlayer. rewrite (Forall_lookup_1 _ _ _ _ H L). exact IH.
Qed.

(** X11: no friendly fire. If every bullet is an enemy bullet,
    [updateBullets] leaves the invaders and the score as they were; if
    every bullet is a player bullet, it leaves the lives and the game-over
    flag as they were. *)
Theorem no_friendly_fire (s : Game) :
  (allEnemy (bullets s) ->
   invaders (updateBullets s) = invaders s /\
   score (updateBullets s) = score s) /\
  (allPlayer (bullets s) ->
   lives (updateBullets s) = lives s /\
   gameOver (updateBullets s) = gameOver s).
Proof.
  split.
  - intros H. rewrite updateBullets_invaders, updateBullets_score_eq.
    rewrite invaderCollisions_allEnemy
      by (apply (advance_owner _ false), H).
    split; reflexivity.
  - intros H. unfold updateBullets, resolveCollisions.
    set (s0 := advanceBullets s).
    set (s1 := invaderCollisions (length (bullets s0)) s0).
    set (s2 := barrierCollisions (length (bullets s1)) s1).
    assert (A : allPlayer (bullets s2)).
    { apply (sublist_Forall _ _ (bullets s1));
        [apply barrierCollisions_sublist|].
      apply (sublist_Forall _ _ (bullets s0));
        [apply invaderCollisions_count|].
      apply (advance_owner _ true), H. }
    rewrite (playerCollisions_allPlayer _ s2 A).
    assert (E2 : lives s2 = lives s1 /\ gameOver s2 = gameOver s1).
    { subst s2. destruct (barrierCollisions_shape (length (bullets s1)) s1)
        as (? & ? & ? & ->). split; reflexivity. }
    assert (E1 : lives s1 = lives s /\ gameOver s1 = gameOver s).
    { subst s1. destruct (invaderCollisions_shape (length (bullets s0)) s0)
        as (? & ? & ? & ? & ->). split; reflexivity. }
    destruct E2 as [-> ->]. exact E1.
Qed.

Lemma no_friendly_fire_witness :
  allEnemy (bullets lastLife) /\
  invaders (updateBullets lastLife) = invaders lastLife /\
  score (updateBullets lastLife) = score lastLife.
Proof.
  assert (H : allEnemy (bullets lastLife)) by (repeat constructor).
  destruct (no_friendly_fire lastLife) as [K _].
  split; [exact H|exact (K H)].
Defined.

(** ** Barrier segments *)

Lemma map_cell_delete (j : nat) (bars : list Barrier.t) :
  map cell (delete j bars) = delete j (map cell bars).
Proof.
  revert j. induction bars as [|a bars IH]; intros [|j]; simpl;
    try reflexivity.
  f_equal. apply IH.
Qed.

Lemma map_cell_insert (j : nat) (bar bar' : Barrier.t)
      (bars : list Barrier.t) :
  bars !! j = Some bar -> cell bar' = cell bar ->
  map cell (<[j := bar']> bars) = map cell bars.
Proof.
  revert j. induction bars as [|a bars IH]; intros [|j] L E; simpl in *;
    try discriminate.
  - injection L as ->. rewrite E. reflexivity.
  - f_equal. apply IH; assumption.
Qed.

Lemma damageBarrier_ok (j : nat) (bar : Barrier.t) (bars : list Barrier.t) :
  bars !! j = Some bar -> barriersOK bars ->
  barriersOK (damageBarrier j bar bars).
Proof.
  intros L [H S]. unfold damageBarrier, barriersOK.
  assert (P : 1 <= Barrier.health bar <= 3)
    by exact (Forall_lookup_1 _ _ _ _ H L).
  destruct (Barrier.health bar - 1 <=? 0) eqn:E.
  - split; [apply Forall_delete, H|].
    rewrite map_cell_delete.
    etransitivity; [apply sublist_delete|exact S].
  - apply Z.leb_gt in E. split.
    + apply Forall_insert; [exact H|]. cbn [Barrier.health]. lia.
    + rewrite (map_cell_insert j bar) by (assumption || reflexivity).
      exact S.
Qed.

Lemma damageLast_ok (b : Bullet.t) (m : nat) (bars bars' : list Barrier.t) :
  damageLast b m bars = Some bars' -> barriersOK bars -> barriersOK bars'.
Proof.
  induction m as [|j IH]; simpl; [discriminate|].
  destruct (bars !! j) as [bar|] eqn:L; [|exact IH].
  destruct (hitsBarrier b bar); [|exact IH].
  intros [= <-]. apply damageBarrier_ok, L.
Qed.

Lemma barrierCollisions_ok (n : nat) (s : Game) :
  barriersOK (barriers s) -> barriersOK (barriers (barrierCollisions n s)).
Proof.
  revert s. induction n as [|i IH]; intros s H; simpl; [exact H|].
  destruct (bullets s !! i) as [b|]; [|apply IH, H].
  destruct (damageLast b (length (barriers s)) (barriers s)) as [bars'|] eqn:D;
    [|apply IH, H].
  apply IH. exact (damageLast_ok _ _ _ _ D H).
Qed.

Lemma updateBullets_barriersOK (t : Game) :
  barriersOK (barriers t) -> barriersOK (barriers (updateBullets t)).
Proof.
  intros H. unfold updateBullets, resolveCollisions.
  set (s0 := advanceBullets t).
  set (s1 := invaderCollisions (length (bullets s0)) s0).
  set (s2 := barrierCollisions (length (bullets s1)) s1).
  assert (E1 : barriers s1 = barriers t).
  { subst s1. destruct (invaderCollisions_shape (length (bullets s0)) s0)
      as (? & ? & ? & ? & ->). reflexivity. }
  assert (H2 : barriersOK (barriers s2)).
  { subst s2. apply barrierCollisions_ok. rewrite E1. exact H. }
  destruct (playerCollisions_shape (length (bullets s2)) s2)
    as (? & ? & ? & ? & ->).
  exact H2.
Qed.

Lemma barriersOK_fresh : barriersOK freshBarriers.
Proof.
  split; [|reflexivity].
  apply List.Forall_forall. intros bar Hin. vm_compute in Hin.
  repeat (destruct Hin as [<-|Hin]; [cbn [Barrier.health]; lia|]).
  destruct Hin.
Qed.

Lemma barriersOK_reachable (s : Game) :
  reachable s -> barriersOK (barriers s).
Proof.
  revert s.
  apply (reachable_invariant (fun s => barriersOK (barriers s)));
    auto using updateBullets_barriersOK.
  - intros dt s H. unfold coolDown. destruct (_ >? _); exact H.
  - intros dt s H.
    destruct (moveInvaders_shape dt s) as (? & ? & ? & ? & ? & ? & ->).
    exact H.
  - intros dt r s H.
    destruct (enemyFire_shape dt r s) as (? & ? & ? & ->). exact H.
  - intros s H. unfold checkLevelComplete.
    destruct (aliveInvaders s); [apply barriersOK_fresh|exact H].
  - intros s H. rewrite updateHighScore_max. exact H.
  - intros s H. unfold startGame. destruct (_ && _); exact H.
  - intros s H. unfold moveLeft. destruct (_ >? _); exact H.
  - intros s H. unfold moveRight. destruct (_ <? _); exact H.
  - intros s H. unfold shootBullet. destruct (_ <=? _); exact H.
  - intros s H. unfold togglePause. destruct (_ && _); exact H.
  - intros s _. apply barriersOK_fresh.
  - apply barriersOK_fresh.
Qed.

(** X12: the barrier segments of a reachable state are segments of the
    four spawned blocks that have not been destroyed, in spawn order and
    on their spawn cells, at most 72 of them, each with 1, 2 or 3 points of
    health: a segment that loses its last point is removed, and no
    segment is ever moved or added outside a respawn. *)
Theorem barrier_segments_only_wear (s : Game) :
  reachable s ->
  Forall (fun bar => 1 <= Barrier.health bar <= 3) (barriers s) /\
  sublist (map cell (barriers s)) (map cell freshBarriers) /\
  (length (barriers s) <= 72)%nat.
Proof.
  intros R. destruct (barriersOK_reachable s R) as [H S].
  split; [exact H|]. split; [exact S|].
  apply sublist_length in S. rewrite !length_map in S. exact S.
Qed.

Lemma barrier_segments_only_wear_witness :
  reachable lostGame /\
  Forall (fun bar => 1 <= Barrier.health bar <= 3) (barriers lostGame) /\
  (length (barriers lostGame) <= 72)%nat.
Proof.
  split; [apply reachable_run|].
  destruct (barrier_segments_only_wear lostGame (reachable_run volley))
    as (H1 & _ & H3).
  split; assumption.
Defined.

(** ** Game over freezes the world *)

Lemma startGame_over (t : Game) : gameOver t = true -> startGame t = t.
Proof.
  intros H. unfold startGame. rewrite H, andb_false_r. reflexivity.
Qed.

Lemma shoot_over (t : Game) : gameOver t = true -> shoot t = t.
Proof.
  intros H. unfold shoot. rewrite H. cbn [negb]. rewrite andb_false_r.
  cbn [andb]. apply startGame_over, H.
Qed.

Lemma togglePause_over (t : Game) : gameOver t = true -> togglePause t = t.
Proof.
  intros H. unfold togglePause. rewrite H, andb_false_r. reflexivity.
Qed.

Lemma over_gamepad (g : Gamepad) (s : Game) :
  gameOver s = true ->
  isConnected g && pressedB g = false ->
  exists x m,
    handleGamepadInput g s =
    set_synthManager m (set_player (Point.mk x (Point.y (player s))) s) /\
    SynthManager.emitted m = SynthManager.emitted (synthManager s).
Proof.
  intros Go Hb. unfold handleGamepadInput.
  destruct (isConnected g) eqn:C; cbn [negb].
  2:{ exists (Point.x (player s)), (synthManager s).
      split; [|reflexivity]. rewrite set_player_same.
      destruct s; reflexivity. }
  cbn [andb] in Hb. rewrite Hb. cbv zeta.
  assert (E1 : exists x,
     (if pushedLeft g then startGame (moveLeft s)
      else if pushedRight g then startGame (moveRight s) else s)
     = set_player (Point.mk x (Point.y (player s))) s).
  { destruct (pushedLeft g); [|destruct (pushedRight g)].
    - destruct (moveLeft_column s) as [x ->].
      exists x. apply startGame_over, Go.
    - destruct (moveRight_column s) as [x ->].
      exists x. apply startGame_over, Go.
    - exists (Point.x (player s)). symmetry. apply set_player_same. }
  destruct E1 as (x & ->).
  set (t := set_player (Point.mk x (Point.y (player s))) s).
  assert (Gt : gameOver t = true) by exact Go.
  assert (E2 : (if pressedA g then shoot t else t) = t)
    by (destruct (pressedA g); [apply shoot_over, Gt|reflexivity]).
  rewrite E2.
  assert (E3 : (if pressedStart g then togglePause t else t) = t)
    by (destruct (pressedStart g); [apply togglePause_over, Gt|reflexivity]).
  rewrite E3.
  exists x,
    (if pressedY g then SynthManager.toggleMute (synthManager s)
     else synthManager s).
  split; destruct (pressedY g); reflexivity.
Qed.

Lemma over_keyboard (dx : Z) (s : Game) :
  gameOver s = true ->
  exists x,
    keyboardMovement dx s = set_player (Point.mk x (Point.y (player s))) s.
Proof.
  unfold keyboardMovement, startGame, moveLeft, moveRight.
  destruct s as [[px py] ? ? ? ? ? go pa st ? ? ? ? ? ? ? m];
    cbn [gameOver started player Point.x Point.y].
  intros ->. rewrite andb_false_r.
  destruct (dx =? 0); cbn [negb]; [exists px; reflexivity|].
  cbv zeta.
  repeat match goal with
         | |- context [if ?c then _ else _] =>
             destruct c; cbn [player set_player Point.x Point.y]
         end;
    eexists; reflexivity.
Qed.

(** X13: game over freezes the world. In a game that is over, an event
    that is not a restart (the R key, or a frame with the gamepad's B
    button) changes nothing but the ship's column and the mute setting:
    invaders, bullets, barriers, score, lives, level, high score, the three
    flags and all the clocks stay as they are, and no cue is emitted. *)
Theorem game_over_is_frozen (s : Game) (e : Event) :
  gameOver s = true ->
  noRestart e ->
  exists x m,
    step s e =
    mkGame (Point.mk x (Point.y (player s))) (invaders s) (bullets s)
      (barriers s) (score s) (lives s) (gameOver s) (paused s) (started s)
      (level s) (highScore s) (invaderMoveTimer s) (invaderMoveInterval s)
      (invaderDirection s) (shootCooldown s) (enemyShootTimer s) m /\
    SynthManager.emitted m = SynthManager.emitted (synthManager s).
Proof.
  intros Go Hn.
  assert (Same : exists x m,
    s = mkGame (Point.mk x (Point.y (player s))) (invaders s) (bullets s)
      (barriers s) (score s) (lives s) (gameOver s) (paused s) (started s)
      (level s) (highScore s) (invaderMoveTimer s) (invaderMoveInterval s)
      (invaderDirection s) (shootCooldown s) (enemyShootTimer s) m /\
    SynthManager.emitted m = SynthManager.emitted (synthManager s)).
  { exists (Point.x (player s)), (synthManager s).
    split; [|reflexivity]. destruct s as [[px py] ? ? ? ? ? ? ? ? ? ? ? ? ? ? ? ?].
    reflexivity. }
  destruct e as [| | | |f]; cbn [step].
  - rewrite (shoot_over s Go). exact Same.
  - rewrite (togglePause_over s Go). exact Same.
  - contradiction.
  - exists (Point.x (player s)), (SynthManager.toggleMute (synthManager s)).
    split; [|reflexivity]. destruct s as [[px py] ? ? ? ? ? ? ? ? ? ? ? ? ? ? ? ?].
    reflexivity.
  - cbn [noRestart] in Hn.
    destruct (over_gamepad (gamepad f) s Go Hn) as (x1 & m & E1 & Em).
    assert (G1 : gameOver (handleGamepadInput (gamepad f) s) = true)
      by (rewrite E1; exact Go).
    destruct (over_keyboard (directionX f) _ G1) as (x2 & E2).
    unfold update. cbv zeta. rewrite E2, E1.
    assert (In : inactive
        (set_player
           (Point.mk x2
              (Point.y
                 (player
                    (set_synthManager m
                       (set_player (Point.mk x1 (Point.y (player s))) s)))))
           (set_synthManager m
              (set_player (Point.mk x1 (Point.y (player s))) s))) = true).
    { unfold inactive. cbn [gameOver started paused set_player
        set_synthManager]. rewrite Go.
      destruct (started s), (paused s); reflexivity. }
    rewrite In. exists x2, m. split; [reflexivity|exact Em].
Qed.

Lemma game_over_is_frozen_witness :
  gameOver lostGame = true /\ noRestart (Frame (moveFrame 16 1)) /\
  exists x m,
    step lostGame (Frame (moveFrame 16 1)) =
    mkGame (Point.mk x (Point.y (player lostGame))) (invaders lostGame)
      (bullets lostGame) (barriers lostGame) (score lostGame)
      (lives lostGame) (gameOver lostGame) (paused lostGame)
      (started lostGame) (level lostGame) (highScore lostGame)
      (invaderMoveTimer lostGame) (invaderMoveInterval lostGame)
      (invaderDirection lostGame) (shootCooldown lostGame)
      (enemyShootTimer lostGame) m /\
    SynthManager.emitted m = SynthManager.emitted (synthManager lostGame).
Proof.
  assert (G : gameOver lostGame = true) by (vm_compute; reflexivity).
  assert (N : noRestart (Frame (moveFrame 16 1))) by reflexivity.
  split; [exact G|]. split; [exact N|].
  exact (game_over_is_frozen lostGame (Frame (moveFrame 16 1)) G N).
Defined.

(** ** Sound *)

Lemma heard_refl (m : SynthManager.t) : heard m m.
Proof.
  split; [reflexivity|]. exists []. split; [symmetry; apply app_nil_r|auto].
Qed.

Lemma heard_trans (m1 m2 m3 : SynthManager.t) :
  heard m1 m2 -> heard m2 m3 -> heard m1 m3.
Proof.
  intros (E1 & c1 & L1 & Q1) (E2 & c2 & L2 & Q2).
  split; [congruence|]. exists (c1 ++ c2).
  split; [rewrite L2, L1; symmetry; apply app_assoc|].
  intros M. rewrite (Q1 M), (Q2 (eq_trans E1 M)). reflexivity.
Qed.

Lemma heard_play (effect : SoundEffect) (m : SynthManager.t) :
  heard m (SynthManager.play effect m).
Proof.
  unfold SynthManager.play. destruct (SynthManager.muted m) eqn:M.
  - apply heard_refl.
  - split; [cbn; congruence|]. exists [effect]. split; [reflexivity|].
    congruence.
Qed.

Lemma heard_invaderCollisions (n : nat) (s : Game) :
  heard (synthManager s) (synthManager (invaderCollisions n s)).
Proof.
  revert s. induction n as [|i IH]; intros s; simpl; [apply heard_refl|].
  destruct (bullets s !! i) as [b|]; [|apply IH].
  destruct (negb (Bullet.isPlayerBullet b)); [apply IH|].
  destruct (destroyFirst b (invaders s)) as [[invs' v]|]; [|apply IH].
  eapply heard_trans; [|apply IH]. apply heard_play.
Qed.

Lemma heard_barrierCollisions (n : nat) (s : Game) :
  heard (synthManager s) (synthManager (barrierCollisions n s)).
Proof.
  revert s. induction n as [|i IH]; intros s; simpl; [apply heard_refl|].
  destruct (bullets s !! i) as [b|]; [|apply IH].
  destruct (damageLast b (length (barriers s)) (barriers s)) as [bars'|];
    [|apply IH].
  eapply heard_trans; [|apply IH]. apply heard_play.
Qed.

Lemma heard_playerStruck (i : nat) (s : Game) :
  heard (synthManager s) (synthManager (playerStruck i s)).
Proof.
  unfold playerStruck. cbv zeta.
  cbn [lives set_lives set_bullets play set_synthManager synthManager].
  destruct (lives s - 1 <=? 0);
    cbn [play set_gameOver set_synthManager synthManager].
  - eapply heard_trans; apply heard_play.
  - apply heard_play.
Qed.

Lemma heard_playerCollisions (n : nat) (s : Game) :
  heard (synthManager s) (synthManager (playerCollisions n s)).
Proof.
  revert s. induction n as [|i IH]; intros s; simpl; [apply heard_refl|].
  destruct (bullets s !! i) as [b|]; [|apply IH].
  destruct (hitsPlayer b (player s)); [|apply IH].
  eapply heard_trans; [apply heard_playerStruck|apply IH].
Qed.

Lemma heard_updateBullets (s : Game) :
  heard (synthManager s) (synthManager (updateBullets s)).
Proof.
  unfold updateBullets, resolveCollisions.
  set (s0 := advanceBullets s).
  set (s1 := invaderCollisions (length (bullets s0)) s0).
  set (s2 := barrierCollisions (length (bullets s1)) s1).
  eapply heard_trans; [|apply heard_playerCollisions].
  eapply heard_trans; [|apply heard_barrierCollisions].
  exact (heard_invaderCollisions (length (bullets s0)) s0).
Qed.

Lemma heard_reachedPlayer_fold (l : list Invader.t) (s : Game) :
  heard (synthManager s)
    (synthManager (fold_left (fun acc inv => reachedPlayer inv acc) l s)).
Proof.
  revert s. induction l as [|inv l IH]; intros s; simpl; [apply heard_refl|].
  eapply heard_trans; [|apply IH].
  unfold reachedPlayer. destruct (_ >=? _); [apply heard_play|apply heard_refl].
Qed.

Lemma heard_moveInvaders (dt : Z) (s : Game) :
  heard (synthManager s) (synthManager (moveInvaders dt s)).
Proof.
  destruct (Z_lt_ge_dec (invaderMoveTimer s + dt) (invaderMoveInterval s))
    as [Hlt|Hge].
  - rewrite (moveInvaders_idle dt s Hlt). apply heard_refl.
  - unfold moveInvaders.
    cbn [invaderMoveTimer invaderMoveInterval set_invaderMoveTimer].
    replace (invaderMoveTimer s + dt >=? invaderMoveInterval s) with true
      by (symmetry; apply Z.geb_le; lia).
    cbv zeta. eapply heard_trans; [|apply heard_reachedPlayer_fold].
    destruct (existsb _ _); destruct (aliveInvaders _);
      (apply heard_refl || apply heard_play).
Qed.

Lemma heard_enemyFire (dt : Z) (r : Q) (s : Game) :
  heard (synthManager s) (synthManager (enemyFire dt r s)).
Proof.
  unfold enemyFire. cbv zeta. cbn [enemyShootTimer set_enemyShootTimer].
  destruct (_ >=? enemyShootInterval); [|apply heard_refl].
  unfold enemyShoot.
  destruct (aliveInvaders _); [apply heard_refl|].
  destruct (_ !! _); [apply heard_play|apply heard_refl].
Qed.

Lemma heard_levelCheck (t : Game) :
  heard (synthManager t)
        (synthManager (updateHighScore (checkLevelComplete t))).
Proof.
  rewrite updateHighScore_max. unfold checkLevelComplete.
  destruct (aliveInvaders t); [apply heard_play|apply heard_refl].
Qed.

Lemma heard_simulate (dt : Z) (r : Q) (s : Game) :
  heard (synthManager s) (synthManager (simulate dt r s)).
Proof.
  unfold simulate, beforeLevelCheck.
  eapply heard_trans; [|apply heard_levelCheck].
  eapply heard_trans; [|apply heard_updateBullets].
  eapply heard_trans; [|apply heard_enemyFire].
  eapply heard_trans; [|apply heard_moveInvaders].
  unfold coolDown. destruct (_ >? _); apply heard_refl.
Qed.

Section Heard.
Variable m0 : SynthManager.t.

Lemma heard_startGame t : heard m0 (synthManager t) -> heard m0 (synthManager (startGame t)).
Proof. unfold startGame. destruct (_ && _); auto. Qed.

Lemma heard_moveLeft t : heard m0 (synthManager t) -> heard m0 (synthManager (moveLeft t)).
Proof. unfold moveLeft. destruct (_ >? _); auto. Qed.

Lemma heard_moveRight t : heard m0 (synthManager t) -> heard m0 (synthManager (moveRight t)).
Proof. unfold moveRight. destruct (_ <? _); auto. Qed.

Lemma heard_shootBullet t : heard m0 (synthManager t) -> heard m0 (synthManager (shootBullet t)).
Proof.
  unfold shootBullet. destruct (_ <=? _); [|auto].
  intros K. eapply heard_trans; [exact K|apply heard_play].
Qed.

Lemma heard_togglePause t : heard m0 (synthManager t) -> heard m0 (synthManager (togglePause t)).
Proof. unfold togglePause. destruct (_ && _); auto. Qed.

Lemma heard_shoot t : heard m0 (synthManager t) -> heard m0 (synthManager (shoot t)).
Proof.
  apply (shoot_preserves (fun u => heard m0 (synthManager u))); auto using heard_startGame, heard_shootBullet.
Qed.

Lemma heard_restart t : heard m0 (synthManager t) -> heard m0 (synthManager (restart t)).
Proof. apply (restart_preserves (fun u => heard m0 (synthManager u))). intros u K _. exact K. Qed.

Lemma heard_gamepad g t :
  isConnected g && pressedY g = false ->
  heard m0 (synthManager t) -> heard m0 (synthManager (handleGamepadInput g t)).
Proof.
  intros Hy K. unfold handleGamepadInput.
  destruct (isConnected g); cbn [negb]; [|exact K].
  cbn [andb] in Hy. rewrite Hy. cbv zeta.
  destruct (pressedB g); [apply heard_restart|];
    (destruct (pressedStart g); [apply heard_togglePause|]);
    (destruct (pressedA g); [apply heard_shoot|]);
    (destruct (pushedLeft g); [apply heard_startGame, heard_moveLeft, K|]);
    (destruct (pushedRight g);
       [apply heard_startGame, heard_moveRight, K|exact K]).
Qed.

Lemma heard_keyboard dx t :
  heard m0 (synthManager t) -> heard m0 (synthManager (keyboardMovement dx t)).
Proof.
  apply (keyboardMovement_preserves (fun u => heard m0 (synthManager u)));
    auto using heard_startGame, heard_moveLeft, heard_moveRight.
Qed.
End Heard.

(** X14: the sound sink only listens. An event that does not toggle mute
    (the M key, or a frame with the gamepad's Y button) leaves the mute
    setting as it is and only appends cues to the log of emitted sounds;
    while muted it appends nothing. *)
Theorem sound_follows_mute (s : Game) (e : Event) :
  noMuteToggle e ->
  SynthManager.muted (synthManager (step s e))
  = SynthManager.muted (synthManager s) /\
  exists cues,
    SynthManager.emitted (synthManager (step s e))
    = SynthManager.emitted (synthManager s) ++ cues /\
    (SynthManager.muted (synthManager s) = true -> cues = []).
Proof.
  intros N.
  change (heard (synthManager s) (synthManager (step s e))).
  pose proof (heard_refl (synthManager s)) as R.
  destruct e as [| | | |f]; cbn [step].
  - apply heard_shoot, R.
  - apply heard_togglePause, R.
  - apply heard_restart, R.
  - contradiction.
  - cbn [noMuteToggle] in N. unfold update. cbv zeta.
    pose proof (heard_keyboard _ (directionX f) _
                  (heard_gamepad _ (gamepad f) s N R)) as K.
    destruct (inactive _); [exact K|].
    eapply heard_trans; [exact K|apply heard_simulate].
Qed.

Lemma sound_follows_mute_witness :
  noMuteToggle (Frame (idleFrame 16)) /\
  SynthManager.muted (synthManager mutedCrossfire) = true /\
  lives (step mutedCrossfire (Frame (idleFrame 16))) = 2 /\
  SynthManager.emitted (synthManager (step mutedCrossfire (Frame (idleFrame 16))))
  = SynthManager.emitted (synthManager mutedCrossfire).
Proof.
  assert (N : noMuteToggle (Frame (idleFrame 16))) by reflexivity.
  destruct (sound_follows_mute mutedCrossfire (Frame (idleFrame 16)) N)
    as (_ & cues & E & Q).
  split; [exact N|]. split; [reflexivity|].
  split; [vm_compute; reflexivity|].
  rewrite E, (Q eq_refl). apply app_nil_r.
Defined.

(** ** Before the start *)

Lemma phase_notStarted_flags (s : Game) :
  phase s = Some NotStarted ->
  started s = false /\ paused s = false /\ gameOver s = false.
Proof.
  unfold phase. destruct (started s), (paused s), (gameOver s);
    intros; try discriminate; auto.
Qed.

Lemma togglePause_notStarted (t : Game) :
  started t = false -> togglePause t = t.
Proof. intros H. unfold togglePause. rewrite H. reflexivity. Qed.

(** X15: a game that has not started waits. A frame without a start
    input (no direction, no stick or d-pad push, no A and no Y button)
    changes nothing, whatever its [deltaTime]; the pause and restart keys
    do nothing; and the fire key starts the game without firing: the phase
    becomes Playing, and no bullet is added and the cooldown not set. *)
Theorem not_started_game_waits (s : Game) :
  phase s = Some NotStarted ->
  (forall f, idle f -> update f s = s) /\
  togglePause s = s /\ restart s = s /\
  (phase (shoot s) = Some Playing /\ bullets (shoot s) = bullets s /\
   shootCooldown (shoot s) = shootCooldown s).
Proof.
  intros Hp. destruct (phase_notStarted_flags s Hp) as (St & Pa & Go).
  pose proof (togglePause_notStarted s St) as TP.
  pose proof (restart_running s Go) as RS.
  split; [|split; [exact TP|split; [exact RS|]]].
  - intros f [Hd Hg].
    assert (G : handleGamepadInput (gamepad f) s = s).
    { unfold handleGamepadInput.
      destruct Hg as [C|(L & R & A & Y)].
      - rewrite C. reflexivity.
      - destruct (isConnected (gamepad f)); cbn [negb]; [|reflexivity].
        rewrite L, R, A, Y. cbv zeta.
        destruct (pressedStart (gamepad f)), (pressedB (gamepad f));
          rewrite ?TP, ?RS; reflexivity. }
    unfold update. cbv zeta. rewrite G.
    unfold keyboardMovement. rewrite Hd. cbn [Z.eqb negb].
    unfold inactive. rewrite St. reflexivity.
  - unfold shoot, startGame, phase.
    rewrite St, Go, Pa. cbn [andb negb]. rewrite St, Go.
    cbn [andb negb started paused gameOver set_started bullets shootCooldown].
    rewrite Pa, Go. repeat split.
Qed.

Lemma not_started_game_waits_witness :
  phase newGame = Some NotStarted /\ idle (idleFrame 5000) /\
  update (idleFrame 5000) newGame = newGame /\
  phase (shoot newGame) = Some Playing.
Proof.
  assert (P : phase newGame = Some NotStarted) by reflexivity.
  assert (I : idle (idleFrame 5000)) by (split; [reflexivity|left; reflexivity]).
  destruct (not_started_game_waits newGame P) as (K1 & _ & _ & K2 & _).
  split; [exact P|]. split; [exact I|]. split; [exact (K1 _ I)|exact K2].
Defined.

(** ** Barriers stop both sides alike *)

Lemma damageLast_place (b b' : Bullet.t) (m : nat) (bars : list Barrier.t) :
  place b = place b' -> damageLast b m bars = damageLast b' m bars.
Proof.
  intros E. injection E as Ex Ey.
  induction m as [|j IH]; simpl; [reflexivity|].
  destruct (bars !! j) as [bar|]; [|exact IH].
  unfold hitsBarrier. rewrite Ex, Ey, IH. reflexivity.
Qed.

Lemma map_place_lookup (l l' : list Bullet.t) (i : nat) :
  map place l = map place l' ->
  match l !! i, l' !! i with
  | Some b, Some b' => place b = place b'
  | None, None => True
  | _, _ => False
  end.
Proof.
  revert l' i. induction l as [|a l IH]; intros [|a' l'] i E;
    try discriminate; [destruct i; exact I|].
  injection E as Ex Ey Et. destruct i as [|i];
    [unfold place; simpl; congruence|].
  apply (IH l' i Et).
Qed.

Lemma map_place_delete (l l' : list Bullet.t) (i : nat) :
  map place l = map place l' ->
  map place (delete i l) = map place (delete i l').
Proof.
  revert l' i. induction l as [|a l IH]; intros [|a' l'] i E;
    try discriminate; [reflexivity|].
  injection E as Ex Ey Et. destruct i as [|i]; simpl; [exact Et|].
  unfold place at 1 3. rewrite Ex, Ey. f_equal. apply IH, Et.
Qed.

(** X16: barriers stop both sides alike. The bullet/barrier rule looks
    at the cell of a bullet only: run on two states with the same
    barriers whose bullet lists agree cell by cell, whoever owns the
    bullets, it damages and removes the same segments and consumes the
    bullets at the same places. *)
Theorem barriers_ignore_bullet_owner (n : nat) (s s' : Game) :
  barriers s = barriers s' ->
  map place (bullets s) = map place (bullets s') ->
  barriers (barrierCollisions n s) = barriers (barrierCollisions n s') /\
  map place (bullets (barrierCollisions n s))
  = map place (bullets (barrierCollisions n s')).
Proof.
  revert s s'. induction n as [|i IH]; intros s s' Eb Ep; simpl; [auto|].
  pose proof (map_place_lookup _ _ i Ep) as L.
  destruct (bullets s !! i) as [b|], (bullets s' !! i) as [b'|];
    try contradiction; [|apply IH; assumption].
  rewrite <- Eb, <- (damageLast_place b b' _ _ L).
  destruct (damageLast b (length (barriers s)) (barriers s)) as [bars'|];
    [|apply IH; assumption].
  apply IH; [reflexivity|].
  cbn [bullets set_bullets]. apply map_place_delete, Ep.
Qed.

Lemma barriers_ignore_bullet_owner_witness :
  barriers siege = barriers siegeSwapped /\
  map place (bullets siege) = map place (bullets siegeSwapped) /\
  barriers (barrierCollisions 2 siege)
  = barriers (barrierCollisions 2 siegeSwapped) /\
  totalHealth (barriers (barrierCollisions 2 siege)) = 214.
Proof.
  assert (H1 : barriers siege = barriers siegeSwapped)
    by (vm_compute; reflexivity).
  assert (H2 : map place (bullets siege) = map place (bullets siegeSwapped))
    by (vm_compute; reflexivity).
  destruct (barriers_ignore_bullet_owner 2 siege siegeSwapped H1 H2)
    as [K _].
  split; [exact H1|]. split; [exact H2|]. split; [exact K|].
  vm_compute. reflexivity.
Defined.

(** ** Lives *)

Lemma overIffNoLives_reachedPlayer_fold (l : list Invader.t) (t : Game) :
  overIffNoLives t ->
  overIffNoLives (fold_left (fun acc inv => reachedPlayer inv acc) l t).
Proof.
  revert t. induction l as [|inv l IH]; intros t H; simpl; [exact H|].
  apply IH. unfold reachedPlayer. destruct (_ >=? _); [|exact H].
  unfold overIffNoLives. cbn [gameOver lives play set_gameOver set_lives
    set_synthManager]. split; [lia|reflexivity].
Qed.

Lemma overIffNoLives_moveInvaders (dt : Z) (s : Game) :
  overIffNoLives s -> overIffNoLives (moveInvaders dt s).
Proof.
  intros H.
  destruct (Z_lt_ge_dec (invaderMoveTimer s + dt) (invaderMoveInterval s))
    as [Hlt|Hge].
  - rewrite (moveInvaders_idle dt s Hlt). exact H.
  - destruct (moveInvaders_loss_check dt s Hge) as (s4 & -> & _ & L & G).
    apply overIffNoLives_reachedPlayer_fold.
    unfold overIffNoLives. rewrite L, G. exact H.
Qed.

Lemma overIffNoLives_playerStruck (i : nat) (t : Game) :
  overIffNoLives t -> overIffNoLives (playerStruck i t).
Proof.
  unfold overIffNoLives, playerStruck. cbv zeta.
  cbn [lives gameOver set_lives set_bullets play set_synthManager].
  intros H. destruct (lives t - 1 <=? 0) eqn:E;
    cbn [lives gameOver set_lives set_bullets play set_synthManager
         set_gameOver].
  - apply Z.leb_le in E. split; [lia|reflexivity].
  - apply Z.leb_gt in E. split; [intros K; apply H in K; lia|lia].
Qed.

Lemma overIffNoLives_playerCollisions (n : nat) (t : Game) :
  overIffNoLives t -> overIffNoLives (playerCollisions n t).
Proof.
  revert t. induction n as [|i IH]; intros t H; simpl; [exact H|].
  destruct (bullets t !! i) as [b|]; [|apply IH, H].
  destruct (hitsPlayer b (player t)); [|apply IH, H].
  apply IH, overIffNoLives_playerStruck, H.
Qed.

Lemma overIffNoLives_updateBullets (t : Game) :
  overIffNoLives t -> overIffNoLives (updateBullets t).
Proof.
  intros H. unfold updateBullets, resolveCollisions.
  set (s0 := advanceBullets t).
  set (s1 := invaderCollisions (length (bullets s0)) s0).
  set (s2 := barrierCollisions (length (bullets s1)) s1).
  apply overIffNoLives_playerCollisions.
  assert (E2 : lives s2 = lives s1 /\ gameOver s2 = gameOver s1).
  { subst s2. destruct (barrierCollisions_shape (length (bullets s1)) s1)
      as (? & ? & ? & ->). split; reflexivity. }
  assert (E1 : lives s1 = lives t /\ gameOver s1 = gameOver t).
  { subst s1. destruct (invaderCollisions_shape (length (bullets s0)) s0)
      as (? & ? & ? & ? & ->). split; reflexivity. }
  unfold overIffNoLives.
  destruct E2 as [-> ->]. destruct E1 as [-> ->]. exact H.
Qed.

Lemma overIffNoLives_reachable (s : Game) : reachable s -> overIffNoLives s.
Proof.
  revert s. apply (reachable_invariant overIffNoLives);
    auto using overIffNoLives_moveInvaders, overIffNoLives_updateBullets.
  - intros dt s H. unfold coolDown. destruct (_ >? _); exact H.
  - intros dt r s H. unfold overIffNoLives.
    destruct (enemyFire_shape dt r s) as (? & ? & ? & ->). exact H.
  - intros s H. unfold overIffNoLives.
    destruct (checkLevelComplete_shape s)
      as (? & ? & ? & ? & ? & ? & ? & ->). exact H.
  - intros s H. rewrite updateHighScore_max. exact H.
  - intros s H. unfold startGame. destruct (_ && _); exact H.
  - intros s H. unfold moveLeft. destruct (_ >? _); exact H.
  - intros s H. unfold moveRight. destruct (_ <? _); exact H.
  - intros s H. unfold shootBullet. destruct (_ <=? _); exact H.
  - intros s H. unfold togglePause. destruct (_ && _); exact H.
  - intros s _. unfold overIffNoLives, initGame. fields.
    split; [discriminate|lia].
  - unfold overIffNoLives, newGame, initGame. fields.
    split; [discriminate|lia].
Qed.

(** X17: the game is over exactly when no life is left. In every
    reachable state the game-over flag is set if and only if lives <= 0,
    and lives are at most 3; so a game that is not over has 1, 2 or 3
    lives. *)
Theorem game_over_iff_no_lives (s : Game) :
  reachable s ->
  (gameOver s = true <-> lives s <= 0) /\
  lives s <= 3 /\
  (gameOver s = false -> 1 <= lives s <= 3).
Proof.
  intros R. pose proof (overIffNoLives_reachable s R) as H.
  pose proof (lives_at_most_three s R) as L.
  split; [exact H|]. split; [exact L|].
  intros G. split; [|exact L].
  destruct (Z_le_gt_dec (lives s) 0) as [K|K]; [|lia].
  apply H in K. congruence.
Qed.

Lemma game_over_iff_no_lives_witness :
  reachable lostGame /\ gameOver lostGame = true /\ lives lostGame <= 0.
Proof.
  assert (R : reachable lostGame) by apply reachable_run.
  destruct (game_over_iff_no_lives lostGame R) as (H & _ & _).
  assert (G : gameOver lostGame = true) by (vm_compute; reflexivity).
  split; [exact R|]. split; [exact G|apply H, G].
Defined.

(** ** The first invader hit wins *)

(** X18: a player bullet destroys the first invader it hits, in array
    order, and no other. [destroyFirst] succeeds exactly when some invader
    is hit; then the victim is the first one hit, the array is the same
    but for that invader's alive flag, and every invader before it is not
    hit. *)
Theorem first_invader_hit_wins (b : Bullet.t) (invs : list Invader.t) :
  (destroyFirst b invs = None <->
   Forall (fun inv => hitsInvader b inv = false) invs) /\
  (forall invs' victim,
     destroyFirst b invs = Some (invs', victim) ->
     exists before after,
       invs = before ++ victim :: after /\
       invs' = before
               ++ Invader.mk (Invader.x victim) (Invader.y victim)
                    (Invader.type victim) false :: after /\
       hitsInvader b victim = true /\
       Forall (fun inv => hitsInvader b inv = false) before).
Proof.
  induction invs as [|inv rest [IH1 IH2]]; cbn [destroyFirst].
  { split; [split; [constructor|reflexivity]|discriminate]. }
  destruct (hitsInvader b inv) eqn:Hit.
  - split.
    + split; [discriminate|]. intros H. apply Forall_cons in H as [K _].
      congruence.
    + intros invs' victim [= <- <-]. exists [], rest.
      repeat split; auto.
  - destruct (destroyFirst b rest) as [[rest' v]|].
    + split.
      * split; [discriminate|]. intros H. apply Forall_cons in H as [_ K].
        apply IH1 in K. discriminate.
      * intros invs' victim [= <- <-].
        destruct (IH2 rest' v eq_refl) as (before & after & -> & -> & H & F).
        exists (inv :: before), after. repeat split; auto.
    + split; [|discriminate].
      split; [intros _; constructor; [exact Hit|apply IH1; reflexivity]|
              reflexivity].
Qed.

Lemma first_invader_hit_wins_witness :
  let b := Bullet.mk 11 5 true in
  let near := Invader.mk 10 5 0 true in
  let far := Invader.mk 12 5 2 true in
  destroyFirst b [Invader.mk 30 5 1 true; near; far]
  = Some ([Invader.mk 30 5 1 true; Invader.mk 10 5 0 false; far], near) /\
  exists before after,
    [Invader.mk 30 5 1 true; near; far] = before ++ near :: after /\
    Forall (fun inv => hitsInvader b inv = false) before.
Proof.
  cbv zeta.
  destruct (first_invader_hit_wins (Bullet.mk 11 5 true)
              [Invader.mk 30 5 1 true; Invader.mk 10 5 0 true;
               Invader.mk 12 5 2 true]) as [_ K].
  split; [reflexivity|].
  destruct (K _ _ eq_refl) as (before & after & E & _ & _ & F).
  exists before, after. split; assumption.
Defined.
